(** * Hunter and rabbit pursuit simulation (IMO 2017, problem 3)

    A shallow embedding of the two high-precision engines
    [hunter_rabbit_modified_assumptions_hp.simulate] (continuous step
    length) and [hunter_rabbit_original_rules_hp.simulate] (unit steps,
    step length rounded up), and of [wrap_angle].

    The engines compute with [mpmath] numbers.  The arithmetic is an
    interface ([mp.Arith]); the engine is written once over it, and is
    then read twice.  Over the real numbers ([RealArith]), the values
    that [mpmath] approximates to the configured number of digits, but
    for the constant [PI_LD], which the modules compute once, at 53
    bits.  And over the real numbers with a value for the complex
    numbers ([Mpmath]) that [mpmath] returns outside the real domains
    of [asin] and [sqrt]. *)

From Stdlib Require Import List Arith Lia Bool.
From Stdlib Require Import ZArith Reals Lra Zfloor Machin.
Import ListNotations.

Set Implicit Arguments.

(** ** Exceptions and results *)

(** What an operation of the library can raise. *)
Inductive fault : Type :=
| DomainError
| ZeroDivisionError
| RecursionError.

Inductive result (A : Type) : Type :=
| Ok (x : A)
| Raise (e : fault).

Arguments Ok {A} x.
Arguments Raise {A} e.

(** ** The arithmetic of [mpmath] as an interface *)

Module mp.

(** The operations the engines use on [mpmath] numbers.  [div] is the
    [/] of the source ([1.0 / moves] raises on a zero divisor); [sqrt]
    and [asin] may raise; [fmod] is [%], which may raise too; [gt] is
    the comparison [D > D_limit].  [pi] is the value of [LD(mp.pi)]
    where the source evaluates it: in the assignment of [PI_LD], when
    the module is loaded. *)
Class Arith (num : Type) : Type := {
  zero : num;                       (* LD(0.0) *)
  one : num;                        (* LD(1.0), 1.0 *)
  two : num;                        (* the literal 2 of 2 * PI_LD *)
  pi : num;                         (* LD(mp.pi), evaluated at import *)
  add : num -> num -> num;
  sub : num -> num -> num;
  mul : num -> num -> num;
  div : num -> num -> result num;
  fmod : num -> num -> result num;
  sqrt : num -> result num;
  asin : num -> result num;
  hypot : num -> num -> num;
  cos : num -> num;
  sin : num -> num;
  ceil : num -> num;
  gt : num -> num -> bool
}.

End mp.

(** ** A monad for the engine: exceptions, and a record of the
       [asin] and [sqrt] invocations *)

(** An invocation of one of the two functions that have a domain. *)
Inductive call (num : Type) : Type :=
| AsinCall (x : num)
| SqrtCall (x : num).

Arguments AsinCall {num} x.
Arguments SqrtCall {num} x.

(** A computation yields the invocations it made, in order, and either a
    value or the exception that ended it.  The record of invocations is
    not data of the program: it is there to state which calls a run
    makes. *)
Definition M (num A : Type) : Type := (list (call num) * result A)%type.

Definition calls {num A} (m : M num A) : list (call num) := fst m.
Definition outcome {num A} (m : M num A) : result A := snd m.

Definition ret {num A} (x : A) : M num A := ([], Ok x).

Definition bind {num A B} (m : M num A) (f : A -> M num B) : M num B :=
  match m with
  | (l, Ok x) => (l ++ calls (f x), outcome (f x))
  | (l, Raise e) => (l, Raise e)
  end.

(** An operation that may raise and is not recorded. *)
Definition lift {num A} (r : result A) : M num A := ([], r).

Notation "x <- m ;; k" := (bind m (fun x => k))
  (at level 61, m at next level, right associativity).

(** A computation fails fast, for a notion [bad] of invocation outside
    the domain: if it returns, none of its invocations was bad; if it
    raises, only the last invocation can have been bad, and then what is
    raised is the domain error. *)
Definition fail_fast {num A} (bad : call num -> Prop) (m : M num A) : Prop :=
  match outcome m with
  | Ok _ => Forall (fun c => ~ bad c) (calls m)
  | Raise e =>
      calls m = [] \/
      exists l c, calls m = l ++ [c] /\ Forall (fun c => ~ bad c) l /\
                  (bad c -> e = DomainError)
  end.

(** A computation makes the invocations [l], in this order, and ends
    with [r]. *)
Definition runs {num A} (m : M num A) (l : list (call num)) (r : result A) :
  Prop :=
  calls m = l /\ outcome m = r.

(** ** The engine *)

(** The two source files differ in one expression only, the step length
    of the next cycle: [a] and [a * D] in the modified model, [mp.ceil(a)]
    and [mp.ceil(a * D)] under the original rules. *)
Inductive Mode : Type :=
| Continuous
| UnitCeiling.

(** How the loop was left: by [break], or because [range(max_steps)] was
    used up.  The source does not store this anywhere. *)
Inductive exit : Type :=
| LimitExceeded
| StepsExhausted.

Section Engine.

Context {num : Type} {AR : mp.Arith num}.

Local Notation "0" := mp.zero.
Local Notation "1" := mp.one.
Local Infix "+" := mp.add.
Local Infix "-" := mp.sub.
Local Infix "*" := mp.mul.

(** [PI_LD = LD(mp.pi)], a constant of the module. *)
Definition PI_LD : num := mp.pi.

(** [(angle + PI_LD) % (2 * PI_LD) - PI_LD] *)
Definition wrap_angle (angle : num) : result num :=
  match mp.fmod (angle + PI_LD) (mp.two * PI_LD) with
  | Ok r => Ok (r - PI_LD)
  | Raise e => Raise e
  end.

(** [mp.asin(x)] and [mp.sqrt(x)], recorded. *)
Definition call_asin (x : num) : M num num := ([AsinCall x], mp.asin x).
Definition call_sqrt (x : num) : M num num := ([SqrtCall x], mp.sqrt x).

(** [1.0 / x] *)
Definition inv (x : num) : M num num := lift (mp.div 1 x).

(** The local variables of [simulate]. *)
Record state : Type := mkState {
  moves : num;
  D : num;
  res : num;
  cycle : nat;
  z_angle : num;
  m_angle : num;
  z_x : list num;
  z_y : list num;
  m_x : list num;
  m_y : list num;
  D_list : list num;
  z_angle_list : list num;
  m_angle_list : list num;
  moves_list : list num
}.

(** The dictionary that [simulate] returns. *)
Record RunHistory : Type := mkRun {
  r_z_x : list num;
  r_z_y : list num;
  r_m_x : list num;
  r_m_y : list num;
  r_D : list num;
  r_z_angle : list num;
  r_m_angle : list num;
  r_moves : list num;
  r_res : num;
  r_cycles : nat
}.

Definition initial : state :=
  {| moves := 1; D := 0; res := 0; cycle := O;
     z_angle := 0; m_angle := 0;
     z_x := [0]; z_y := [0]; m_x := [0]; m_y := [0];
     D_list := [0]; z_angle_list := [0];
     m_angle_list := [0]; moves_list := [1] |}.

(** [l[-1]]; the position lists are never empty. *)
Definition back (l : list num) : num := last l 0.

Variable mode : Mode.

(** [a] and [a * D], or their ceilings. *)
Definition quantize (x : num) : num :=
  match mode with
  | Continuous => x
  | UnitCeiling => mp.ceil x
  end.

Variable a : num.
Variable D_limit : num.

(** The branch [if cycle == 1]; [c] is the incremented counter. *)
Definition first_cycle (c : nat) (s : state) : M num state :=
  let D' := 1 in
  let res' := res s + 1 in
  let step_z := moves s in
  let new_z_x := back (z_x s) + step_z * mp.cos (z_angle s) in
  let new_z_y := back (z_y s) + step_z * mp.sin (z_angle s) in
  let moves' := quantize a in
  q <- inv moves' ;;
  alfa_new <- call_asin q ;;
  z_angle' <- lift (wrap_angle (z_angle s + alfa_new)) ;;
  ret {| moves := moves'; D := D'; res := res'; cycle := c;
         z_angle := z_angle'; m_angle := m_angle s;
         z_x := z_x s ++ [new_z_x]; z_y := z_y s ++ [new_z_y];
         m_x := m_x s ++ [back (m_x s)]; m_y := m_y s ++ [back (m_y s)];
         D_list := D_list s ++ [D'];
         z_angle_list := z_angle_list s ++ [z_angle'];
         m_angle_list := m_angle_list s ++ [m_angle s];
         moves_list := moves_list s ++ [moves'] |}.

(** The [else] branch: every cycle after the first. *)
Definition later_cycle (c : nat) (s : state) : M num state :=
  m_dist <- call_sqrt (moves s * moves s - 1) ;;
  let x_diff := m_dist - moves s + D s in
  let D' := mp.hypot x_diff 1 in
  let res' := res s + moves s in
  q <- inv (moves s) ;;
  alfa_old <- call_asin q ;;
  let new_z_x := back (z_x s) + moves s * mp.cos (z_angle s) in
  let new_z_y := back (z_y s) + moves s * mp.sin (z_angle s) in
  let new_m_x := back (m_x s) + moves s * mp.cos (m_angle s) in
  let new_m_y := back (m_y s) + moves s * mp.sin (m_angle s) in
  qD <- inv D' ;;
  aD <- call_asin qD ;;
  m_angle' <- lift (wrap_angle (m_angle s + aD)) ;;
  let moves' := quantize (a * D') in
  q' <- inv moves' ;;
  a1 <- call_asin q' ;;
  qD' <- inv D' ;;
  a2 <- call_asin qD' ;;
  z_angle' <- lift (wrap_angle (z_angle s + a1 + a2 - alfa_old)) ;;
  ret {| moves := moves'; D := D'; res := res'; cycle := c;
         z_angle := z_angle'; m_angle := m_angle';
         z_x := z_x s ++ [new_z_x]; z_y := z_y s ++ [new_z_y];
         m_x := m_x s ++ [new_m_x]; m_y := m_y s ++ [new_m_y];
         D_list := D_list s ++ [D'];
         z_angle_list := z_angle_list s ++ [z_angle'];
         m_angle_list := m_angle_list s ++ [m_angle'];
         moves_list := moves_list s ++ [moves'] |}.

(** The body of the [for] loop up to the test of [D > D_limit].  The
    progress message printed every 10000 cycles is output only. *)
Definition body (s : state) : M num state :=
  let c := S (cycle s) in
  if Nat.eqb c 1 then first_cycle c s else later_cycle c s.

(** [for _ in range(n): ...; if D > D_limit: break] *)
Fixpoint loop (n : nat) (s : state) : M num (state * exit) :=
  match n with
  | O => ret (s, StepsExhausted)
  | S k =>
      s' <- body s ;;
      if mp.gt (D s') D_limit then ret (s', LimitExceeded) else loop k s'
  end.

Definition returned (s : state) : RunHistory :=
  {| r_z_x := z_x s; r_z_y := z_y s; r_m_x := m_x s; r_m_y := m_y s;
     r_D := D_list s; r_z_angle := z_angle_list s;
     r_m_angle := m_angle_list s; r_moves := moves_list s;
     r_res := res s; r_cycles := cycle s |}.

(** [simulate(a, D_limit, max_steps, digits)].  The argument [digits]
    sets the precision of the arithmetic, which is the instance [AR]
    here. *)
Definition simulate (max_steps : nat) : M num RunHistory :=
  se <- loop max_steps initial ;;
  ret (returned (fst se)).

(** The state when [n] cycles have been completed from [s], with no
    test of the limit. *)
Fixpoint after_cycles (n : nat) (s : state) : M num state :=
  match n with
  | O => ret s
  | S k => s' <- after_cycles k s ;; body s'
  end.

(** The distance of a later cycle, from the step length and the
    distance of the cycle before. *)
Definition next_D (m_dist mv d : num) : num :=
  mp.hypot (m_dist - mv + d) 1.

(** The logs have one entry per completed cycle and the seed, and their
    last entries are the current values of the variables. *)
Record logged (s : state) : Prop := {
  logged_D : length (D_list s) = S (cycle s);
  logged_moves : length (moves_list s) = S (cycle s);
  logged_z : length (z_angle_list s) = S (cycle s);
  logged_m : length (m_angle_list s) = S (cycle s);
  last_D : nth_error (D_list s) (cycle s) = Some (D s);
  last_moves : nth_error (moves_list s) (cycle s) = Some (moves s);
  last_z : nth_error (z_angle_list s) (cycle s) = Some (z_angle s);
  last_m : nth_error (m_angle_list s) (cycle s) = Some (m_angle s)
}.

End Engine.

Arguments state num : clear implicits.
Arguments RunHistory num : clear implicits.

Unset Implicit Arguments.

(** ** The arithmetic over the real numbers *)

(** [mpmath] is a library the repository imports.  Its operations are
    read here as the exact operations on real numbers.  [x % m] is the
    remainder of the floored division, [x - floor(x / m) * m], as in
    Python, and raises on a zero modulus; division by zero raises.
    [asin] outside [[-1, 1]] and [sqrt] below [0] have no real value:
    this reading ends the run there, with the domain error the
    specification names.  What [mpmath] does with such arguments is
    read in [Mpmath] below. *)
Module RealArith.

Local Open Scope R_scope.

(** The value of [PI_LD].  [LD(mp.pi)] is evaluated when the module is
    loaded, after the imports and before any call of [simulate]; the
    working precision of [mpmath] is then its default, 53 bits.
    [simulate] sets [mp.mp.dps = digits] later, which does not change
    a number that exists already.  So [PI_LD] is [pi] rounded to 53
    bits, [884279719003555 / 2^48], whatever [digits] is. *)
Definition PI_53 : R := 884279719003555 / 281474976710656.

Definition div (x y : R) : result R :=
  if Req_dec_T y 0 then Raise ZeroDivisionError else Ok (x / y).

(** The remainder of the floored division. *)
Definition remainder (x m : R) : R := x - IZR (Zfloor (x / m)) * m.

Definition fmod (x m : R) : result R :=
  if Req_dec_T m 0 then Raise ZeroDivisionError else Ok (remainder x m).

(** What [wrap_angle] returns over the real numbers. *)
Definition wrapped (theta : R) : R :=
  remainder (theta + PI_53) (2 * PI_53) - PI_53.

(** Modelled from the spec: [mp.sqrt] is a function of the [mpmath]
    library, which is not in the repository; for a negative argument it
    raises the domain error (4.1, 7 of the specification). *)
Definition sqrt (x : R) : result R :=
  if Rlt_dec x 0 then Raise DomainError else Ok (R_sqrt.sqrt x).

(** Modelled from the spec: [mp.asin] is a function of the [mpmath]
    library, which is not in the repository; for an argument of
    magnitude above 1 it raises the domain error (4.1, 7 of the
    specification). *)
Definition asin (x : R) : result R :=
  if Rlt_dec 1 (Rabs x) then Raise DomainError else Ok (Ratan.asin x).

Definition hypot (x y : R) : R := R_sqrt.sqrt (x * x + y * y).

Definition ceil (x : R) : R := IZR (Zceil x).

Definition gt (x y : R) : bool := if Rlt_dec y x then true else false.

#[global] Instance exact : mp.Arith R := {|
  mp.zero := 0;
  mp.one := 1;
  mp.two := 2;
  mp.pi := PI_53;
  mp.add := Rplus;
  mp.sub := Rminus;
  mp.mul := Rmult;
  mp.div := div;
  mp.fmod := fmod;
  mp.sqrt := sqrt;
  mp.asin := asin;
  mp.hypot := hypot;
  mp.cos := Rtrigo_def.cos;
  mp.sin := Rtrigo_def.sin;
  mp.ceil := ceil;
  mp.gt := gt
|}.

(** An invocation outside the domain of its function: [asin] of an
    argument of magnitude above [1], [sqrt] of a negative number. *)
Definition out_of_domain (c : call R) : Prop :=
  match c with
  | AsinCall x => 1 < Rabs x
  | SqrtCall x => x < 0
  end.

End RealArith.

(** The two engines of the repository, over the real numbers. *)
Definition simulate_modified (a D_limit : R) (max_steps : nat) :
  M R (RunHistory R) :=
  simulate Continuous a D_limit max_steps.

Definition simulate_original (a D_limit : R) (max_steps : nat) :
  M R (RunHistory R) :=
  simulate UnitCeiling a D_limit max_steps.

(** The parameter [a] with which every cycle stays inside the domains:
    the step length is at least [1] from the first cycle on. *)
Definition admissible (mode : Mode) (a : R) : Prop :=
  match mode with
  | Continuous => (1 <= a)%R
  | UnitCeiling => (0 < a)%R
  end.

(** What holds of the variables between two cycles. *)
Definition steady (s : state R) : Prop :=
  (1 <= moves s)%R /\ (cycle s <> O -> (1 <= D s)%R).

(** ** The arithmetic of [mpmath] outside the real domains *)

(** Outside the real domains [mpmath] does not raise: [mp.asin] of a
    real number of magnitude above 1 and [mp.sqrt] of a negative one
    return a complex number, an [mp.mpc].  A number is read here as a
    real number, an [mpf], or as [mpc], a complex number whose value is
    not followed. *)
Inductive mpnum : Type :=
| mpf (x : R)
| mpc.

(** On real numbers the operations are those of [RealArith], but for
    [asin] and [sqrt] outside the domain, which return [mpc].  An
    operation with an [mpc] operand gives an [mpc], but for [%]:
    neither class of numbers implements it for a complex operand, the
    reflected operator of [mpf] calls itself, and Python ends the
    evaluation with [RecursionError].  The runs of [simulate] apply
    only [+], [-] and [%] to an [mpc], and [%] only with the real
    modulus [2 * PI_LD]; what the other operations are given for an
    [mpc] here ([mpc], and [false] for the comparison) no run
    reaches. *)
Module Mpmath.

Local Open Scope R_scope.

Definition lift1 (f : R -> R) (u : mpnum) : mpnum :=
  match u with
  | mpf x => mpf (f x)
  | mpc => mpc
  end.

Definition lift2 (f : R -> R -> R) (u v : mpnum) : mpnum :=
  match u, v with
  | mpf x, mpf y => mpf (f x y)
  | _, _ => mpc
  end.

Definition div (u v : mpnum) : result mpnum :=
  match v with
  | mpf y =>
      if Req_dec_T y 0 then Raise ZeroDivisionError
      else Ok (lift1 (fun x => x / y) u)
  | mpc => Ok mpc
  end.

Definition fmod (u v : mpnum) : result mpnum :=
  match u, v with
  | mpf x, mpf m =>
      if Req_dec_T m 0 then Raise ZeroDivisionError
      else Ok (mpf (RealArith.remainder x m))
  | _, _ => Raise RecursionError
  end.

Definition sqrt (u : mpnum) : result mpnum :=
  match u with
  | mpf x => if Rlt_dec x 0 then Ok mpc else Ok (mpf (R_sqrt.sqrt x))
  | mpc => Ok mpc
  end.

Definition asin (u : mpnum) : result mpnum :=
  match u with
  | mpf x => if Rlt_dec 1 (Rabs x) then Ok mpc else Ok (mpf (Ratan.asin x))
  | mpc => Ok mpc
  end.

Definition gt (u v : mpnum) : bool :=
  match u, v with
  | mpf x, mpf y => RealArith.gt x y
  | _, _ => false
  end.

#[global] Instance arith : mp.Arith mpnum := {|
  mp.zero := mpf 0;
  mp.one := mpf 1;
  mp.two := mpf 2;
  mp.pi := mpf RealArith.PI_53;
  mp.add := lift2 Rplus;
  mp.sub := lift2 Rminus;
  mp.mul := lift2 Rmult;
  mp.div := div;
  mp.fmod := fmod;
  mp.sqrt := sqrt;
  mp.asin := asin;
  mp.hypot := lift2 RealArith.hypot;
  mp.cos := lift1 Rtrigo_def.cos;
  mp.sin := lift1 Rtrigo_def.sin;
  mp.ceil := lift1 RealArith.ceil;
  mp.gt := gt
|}.

(** An invocation outside the real domain of its function: [asin] of
    a real number of magnitude above 1, [sqrt] of a negative one, or
    either of a complex number. *)
Definition out_of_domain (c : call mpnum) : Prop :=
  match c with
  | AsinCall (mpf x) => 1 < Rabs x
  | SqrtCall (mpf x) => x < 0
  | _ => True
  end.

End Mpmath.

(** The variables that the next cycle computes with are real numbers,
    and the step length has magnitude at least 1. *)
Definition real_vars (s : state mpnum) : Prop :=
  exists mv d z m,
    moves s = mpf mv /\ D s = mpf d /\ z_angle s = mpf z /\
    m_angle s = mpf m /\ (1 <= Rabs mv)%R.

(** An invocation, a state and a record over the real numbers, as
    those of [mpmath]. *)
Definition mpf_call (c : call R) : call mpnum :=
  match c with
  | AsinCall x => AsinCall (mpf x)
  | SqrtCall x => SqrtCall (mpf x)
  end.

Definition mpf_state (s : state R) : state mpnum :=
  {| moves := mpf (moves s); D := mpf (D s); res := mpf (res s);
     cycle := cycle s;
     z_angle := mpf (z_angle s); m_angle := mpf (m_angle s);
     z_x := map mpf (z_x s); z_y := map mpf (z_y s);
     m_x := map mpf (m_x s); m_y := map mpf (m_y s);
     D_list := map mpf (D_list s);
     z_angle_list := map mpf (z_angle_list s);
     m_angle_list := map mpf (m_angle_list s);
     moves_list := map mpf (moves_list s) |}.

Definition mpf_run (h : RunHistory R) : RunHistory mpnum :=
  {| r_z_x := map mpf (r_z_x h); r_z_y := map mpf (r_z_y h);
     r_m_x := map mpf (r_m_x h); r_m_y := map mpf (r_m_y h);
     r_D := map mpf (r_D h); r_z_angle := map mpf (r_z_angle h);
     r_m_angle := map mpf (r_m_angle h); r_moves := map mpf (r_moves h);
     r_res := mpf (r_res h); r_cycles := r_cycles h |}.

(** ** Positions *)

(** The position lists have one entry per completed cycle and the
    start. *)
Definition placed {num : Type} (s : state num) : Prop :=
  length (z_x s) = S (cycle s) /\ length (z_y s) = S (cycle s) /\
  length (m_x s) = S (cycle s) /\ length (m_y s) = S (cycle s).

(** Over the real numbers: the rabbit's heading leads the hunter's by
    [asin (1 / moves)], up to a whole number of turns of [2 * PI_LD]. *)
Definition leads (s : state R) : Prop :=
  exists k : Z,
    (z_angle s =
     m_angle s + Ratan.asin (1 / moves s) + 2 * RealArith.PI_53 * IZR k)%R.

(** Over the real numbers: the hunter's heading points at the rabbit,
    at the distance [D], and the rabbit's heading leads the hunter's by
    [asin (1 / moves)], with no turn between them. *)
Definition aligned (s : state R) : Prop :=
  (back (z_x s) - back (m_x s) = D s * cos (m_angle s))%R /\
  (back (z_y s) - back (m_y s) = D s * sin (m_angle s))%R /\
  (z_angle s = m_angle s + Ratan.asin (1 / moves s))%R.

(** The recorded headings of the cycles [1] to [n] rise: the hunter's
    is not below the one before, and the rabbit's not below the
    hunter's.  A heading that [wrap_angle] takes a turn back falls. *)
Definition headings_rise (h : RunHistory R) (n : nat) : Prop :=
  forall i m0 m z,
    1 <= i <= n ->
    nth_error (r_m_angle h) (i - 1) = Some m0 ->
    nth_error (r_m_angle h) i = Some m ->
    nth_error (r_z_angle h) i = Some z ->
    (m0 <= m <= z)%R.

(** The sum of a list of real numbers. *)
Definition total (l : list R) : R := fold_right Rplus 0%R l.

(** ** The comparison of two runs
       ([compare_errors_modified_assumptions.compare_data]) *)

(** [[f(i) for i in range(n)]] where [f] may raise. *)
Fixpoint comprehension {A : Type} (f : nat -> option A) (start n : nat) :
  option (list A) :=
  match n with
  | O => Some []
  | S k =>
      match f start with
      | None => None
      | Some x =>
          match comprehension f (S start) k with
          | None => None
          | Some xs => Some (x :: xs)
          end
      end
  end.

(** [abs(hp[i] - fl[i])]; an index out of range raises, here [None]. *)
Definition abs_difference_at (hp fl : list R) (i : nat) : option R :=
  match nth_error hp i, nth_error fl i with
  | Some x, Some y => Some (Rabs (x - y))
  | _, _ => None
  end.

(** [n = min(len(hp), len(fl))] and
    [[abs(hp[i] - fl[i]) for i in range(n)]].  The warning printed when
    the lengths differ is output only. *)
Definition abs_differences (hp fl : list R) : option (list R) :=
  let n := Nat.min (length hp) (length fl) in
  comprehension (abs_difference_at hp fl) 0 n.

(** The dictionary that [compare_data] returns. *)
Record Differences : Type := mkDifferences {
  D_difference : list R;
  angle_difference : list R
}.

(** [compare_data(data)] with [data["hp"]] and [data["float"]]. *)
Definition compare_data (hp fl : RunHistory R) : option Differences :=
  match abs_differences (r_D hp) (r_D fl) with
  | None => None
  | Some result_D =>
      match abs_differences (r_z_angle hp) (r_z_angle fl) with
      | None => None
      | Some result_angle =>
          Some {| D_difference := result_D;
                  angle_difference := result_angle |}
      end
  end.

(** ** Facts about the monad *)

Lemma outcome_bind {num A B} (m : M num A) (f : A -> M num B) :
  outcome (bind m f) =
  match outcome m with
  | Ok x => outcome (f x)
  | Raise e => Raise e
  end.
Proof. destruct m as [l [x | e]]; reflexivity. Qed.

Lemma calls_bind {num A B} (m : M num A) (f : A -> M num B) :
  calls (bind m f) =
  match outcome m with
  | Ok x => calls m ++ calls (f x)
  | Raise e => calls m
  end.
Proof. destruct m as [l [x | e]]; reflexivity. Qed.

Lemma bind_ok_inv {num A B} (m : M num A) (f : A -> M num B) (y : B) :
  outcome (bind m f) = Ok y ->
  exists x, outcome m = Ok x /\ outcome (f x) = Ok y.
Proof.
  rewrite outcome_bind. destruct (outcome m) as [x | e]; [| discriminate].
  intros H. exists x. split; [reflexivity | exact H].
Qed.

Lemma bind_raise {num A B} (m : M num A) (f : A -> M num B) (e : fault) :
  outcome m = Raise e -> outcome (bind m f) = Raise e.
Proof. intros H. rewrite outcome_bind, H. reflexivity. Qed.

Lemma outcome_ret {num A} (x : A) : outcome (@ret num A x) = Ok x.
Proof. reflexivity. Qed.

Lemma outcome_lift {num A} (r : result A) : outcome (@lift num A r) = r.
Proof. reflexivity. Qed.

(** Computations, step by step. *)
Lemma runs_ret {num A} (x : A) : runs (@ret num A x) [] (Ok x).
Proof. split; reflexivity. Qed.

Lemma runs_lift {num A} (r : result A) : runs (@lift num A r) [] r.
Proof. split; reflexivity. Qed.

Lemma runs_bind_ok {num A B} (m : M num A) (f : A -> M num B) l1 x l2 r :
  runs m l1 (Ok x) -> runs (f x) l2 r -> runs (bind m f) (l1 ++ l2) r.
Proof.
  intros [E1 E2] [F1 F2]. split.
  - rewrite calls_bind, E2, E1, F1. reflexivity.
  - rewrite outcome_bind, E2. exact F2.
Qed.

Lemma runs_bind_raise {num A B} (m : M num A) (f : A -> M num B) l e :
  runs m l (Raise e) -> runs (bind m f) l (Raise e).
Proof.
  intros [E1 E2]. split.
  - rewrite calls_bind, E2. exact E1.
  - rewrite outcome_bind, E2. reflexivity.
Qed.

(** ** Facts about one cycle *)

Section Cycle.

Context {num : Type} {AR : mp.Arith num}.
Variable mode : Mode.
Variables a D_limit : num.

(** What the first cycle computes. *)
Lemma first_cycle_ok c s s' :
  outcome (first_cycle mode a c s) = Ok s' ->
  exists q alfa_new z',
    mp.div mp.one (quantize mode a) = Ok q /\
    mp.asin q = Ok alfa_new /\
    wrap_angle (mp.add (z_angle s) alfa_new) = Ok z' /\
    s' = {| moves := quantize mode a; D := mp.one;
            res := mp.add (res s) mp.one; cycle := c;
            z_angle := z';
            m_angle := m_angle s;
            z_x := z_x s ++
              [mp.add (back (z_x s)) (mp.mul (moves s) (mp.cos (z_angle s)))];
            z_y := z_y s ++
              [mp.add (back (z_y s)) (mp.mul (moves s) (mp.sin (z_angle s)))];
            m_x := m_x s ++ [back (m_x s)];
            m_y := m_y s ++ [back (m_y s)];
            D_list := D_list s ++ [mp.one];
            z_angle_list := z_angle_list s ++ [z'];
            m_angle_list := m_angle_list s ++ [m_angle s];
            moves_list := moves_list s ++ [quantize mode a] |}.
Proof.
  unfold first_cycle. intros H.
  apply bind_ok_inv in H. destruct H as [q [Hq H]].
  apply bind_ok_inv in H. destruct H as [al [Hal H]].
  apply bind_ok_inv in H. destruct H as [z' [Hz H]].
  rewrite outcome_ret in H. injection H as <-.
  exists q, al, z'. repeat split; assumption.
Qed.

Lemma later_cycle_ok c s s' :
  outcome (later_cycle mode a c s) = Ok s' ->
  exists m_dist,
    mp.sqrt (mp.sub (mp.mul (moves s) (moves s)) mp.one) = Ok m_dist /\
    D s' = next_D m_dist (moves s) (D s) /\
    res s' = mp.add (res s) (moves s) /\
    moves s' = quantize mode (mp.mul a (D s')) /\
    cycle s' = c /\
    D_list s' = D_list s ++ [D s'] /\
    moves_list s' = moves_list s ++ [moves s'] /\
    z_angle_list s' = z_angle_list s ++ [z_angle s'] /\
    m_angle_list s' = m_angle_list s ++ [m_angle s'] /\
    (exists q, mp.div mp.one (moves s) = Ok q /\ exists v, mp.asin q = Ok v) /\
    (exists q, mp.div mp.one (D s') = Ok q /\ exists v, mp.asin q = Ok v) /\
    (exists q, mp.div mp.one (moves s') = Ok q /\ exists v, mp.asin q = Ok v).
Proof.
  unfold later_cycle. intros H.
  apply bind_ok_inv in H. destruct H as [md [Hmd H]].
  apply bind_ok_inv in H. destruct H as [q [Hq H]].
  apply bind_ok_inv in H. destruct H as [ao [Hao H]].
  apply bind_ok_inv in H. destruct H as [qD [HqD H]].
  apply bind_ok_inv in H. destruct H as [aD [HaD H]].
  apply bind_ok_inv in H. destruct H as [m' [Hm' H]].
  apply bind_ok_inv in H. destruct H as [q' [Hq' H]].
  apply bind_ok_inv in H. destruct H as [a1 [Ha1 H]].
  apply bind_ok_inv in H. destruct H as [qD' [HqD' H]].
  apply bind_ok_inv in H. destruct H as [a2 [Ha2 H]].
  apply bind_ok_inv in H. destruct H as [z' [Hz' H]].
  rewrite outcome_ret in H. injection H as <-.
  exists md. cbn [D res moves cycle D_list moves_list z_angle_list
                  m_angle_list z_angle m_angle].
  split; [exact Hmd |].
  repeat (split; [reflexivity |]).
  split; [exists q; split; [exact Hq | exists ao; exact Hao] |].
  split; [exists qD; split; [exact HqD | exists aD; exact HaD] |].
  exists q'; split; [exact Hq' | exists a1; exact Ha1].
Qed.

(** Every completed cycle counts one up and appends one entry to each
    of the four logs: the values it leaves in the variables. *)
Lemma body_appends s s' :
  outcome (body mode a s) = Ok s' ->
  cycle s' = S (cycle s) /\
  D_list s' = D_list s ++ [D s'] /\
  moves_list s' = moves_list s ++ [moves s'] /\
  z_angle_list s' = z_angle_list s ++ [z_angle s'] /\
  m_angle_list s' = m_angle_list s ++ [m_angle s'].
Proof.
  unfold body. destruct (Nat.eqb (S (cycle s)) 1) eqn:E; intros H.
  - apply first_cycle_ok in H. destruct H as [q [al [z' [_ [_ [_ ->]]]]]].
    cbn. repeat split; reflexivity.
  - apply later_cycle_ok in H.
    destruct H as [md [_ [_ [_ [_ [Hc [HD [Hm [Hz [Hma _]]]]]]]]]].
    repeat split; assumption.
Qed.

Lemma body_first s s' :
  cycle s = O -> outcome (body mode a s) = Ok s' ->
  D s' = mp.one /\ res s' = mp.add (res s) mp.one /\
  moves s' = quantize mode a /\
  exists q alfa_new, mp.div mp.one (moves s') = Ok q /\
    mp.asin q = Ok alfa_new /\
    wrap_angle (mp.add (z_angle s) alfa_new) = Ok (z_angle s').
Proof.
  unfold body. intros -> H. cbn in H.
  apply first_cycle_ok in H. destruct H as [q [al [z' [Hq [Hal [Hz ->]]]]]].
  cbn. repeat split; try reflexivity. exists q, al. repeat split; assumption.
Qed.

Lemma body_later s s' :
  cycle s <> O -> outcome (body mode a s) = Ok s' ->
  exists m_dist,
    mp.sqrt (mp.sub (mp.mul (moves s) (moves s)) mp.one) = Ok m_dist /\
    D s' = next_D m_dist (moves s) (D s) /\
    res s' = mp.add (res s) (moves s) /\
    moves s' = quantize mode (mp.mul a (D s')).
Proof.
  unfold body. intros Hc H.
  destruct (Nat.eqb_spec (S (cycle s)) 1) as [E | E]; [lia |].
  apply later_cycle_ok in H. destruct H as [md [H1 [H2 [H3 [H4 _]]]]].
  exists md. repeat split; assumption.
Qed.

End Cycle.

(** ** Facts about a run *)

Section Run.

Context {num : Type} {AR : mp.Arith num}.
Variable mode : Mode.
Variables a D_limit : num.

(** The first of [S n] cycles can be taken off the front. *)
Lemma after_cycles_front n s :
  outcome (after_cycles mode a (S n) s) =
  match outcome (body mode a s) with
  | Ok s1 => outcome (after_cycles mode a n s1)
  | Raise e => Raise e
  end.
Proof.
  induction n as [| n IH].
  - cbn [after_cycles]. rewrite outcome_bind, outcome_ret.
    destruct (outcome (body mode a s)); reflexivity.
  - change (after_cycles mode a (S (S n)) s)
      with (bind (after_cycles mode a (S n) s) (body mode a)).
    rewrite outcome_bind, IH.
    destruct (outcome (body mode a s)) as [s1 | e]; [| reflexivity].
    cbn [after_cycles]. rewrite outcome_bind. reflexivity.
Qed.

Lemma after_cycles_step n s s' :
  outcome (after_cycles mode a (S n) s) = Ok s' ->
  exists s1,
    outcome (after_cycles mode a n s) = Ok s1 /\
    outcome (body mode a s1) = Ok s'.
Proof. cbn [after_cycles]. apply bind_ok_inv. Qed.

(** A run that completed [n] cycles completed every smaller number. *)
Lemma after_cycles_earlier n s s' i :
  outcome (after_cycles mode a n s) = Ok s' -> i <= n ->
  exists si, outcome (after_cycles mode a i s) = Ok si.
Proof.
  revert s'. induction n as [| n IH]; intros s' H Hi.
  - assert (i = O) as -> by lia. exists s'. exact H.
  - destruct (Nat.eq_dec i (S n)) as [-> | Hne].
    + exists s'. exact H.
    + apply after_cycles_step in H. destruct H as [s1 [H1 _]].
      apply (IH s1 H1). lia.
Qed.

Lemma after_cycles_cycle n s s' :
  outcome (after_cycles mode a n s) = Ok s' -> cycle s' = cycle s + n.
Proof.
  revert s'. induction n as [| n IH]; intros s' H.
  - cbn in H. injection H as <-. lia.
  - apply after_cycles_step in H. destruct H as [s1 [H1 H2]].
    apply body_appends in H2. destruct H2 as [Hc _].
    rewrite Hc, (IH s1 H1). lia.
Qed.

Lemma logged_initial : logged initial.
Proof. constructor; reflexivity. Qed.

Lemma nth_error_snoc {A} (l : list A) (x : A) n :
  length l = n -> nth_error (l ++ [x]) n = Some x.
Proof.
  intros <-. rewrite nth_error_app2 by lia.
  rewrite Nat.sub_diag. reflexivity.
Qed.

Lemma logged_body s s' :
  logged s -> outcome (body mode a s) = Ok s' -> logged s'.
Proof.
  intros [L1 L2 L3 L4 _ _ _ _] H.
  apply body_appends in H. destruct H as [Hc [HD [Hm [Hz Hma]]]].
  constructor; rewrite Hc.
  - rewrite HD, length_app, L1. cbn. lia.
  - rewrite Hm, length_app, L2. cbn. lia.
  - rewrite Hz, length_app, L3. cbn. lia.
  - rewrite Hma, length_app, L4. cbn. lia.
  - rewrite HD. apply nth_error_snoc, L1.
  - rewrite Hm. apply nth_error_snoc, L2.
  - rewrite Hz. apply nth_error_snoc, L3.
  - rewrite Hma. apply nth_error_snoc, L4.
Qed.

Lemma logged_after n s s' :
  logged s -> outcome (after_cycles mode a n s) = Ok s' -> logged s'.
Proof.
  intros L. revert s'. induction n as [| n IH]; intros s' H.
  - cbn in H. injection H as <-. exact L.
  - apply after_cycles_step in H. destruct H as [s1 [H1 H2]].
    exact (logged_body _ _ (IH s1 H1) H2).
Qed.

(** Entries, once written, stay. *)
Lemma kept_body s s' i :
  outcome (body mode a s) = Ok s' ->
  (forall x, nth_error (D_list s) i = Some x ->
             nth_error (D_list s') i = Some x) /\
  (forall x, nth_error (moves_list s) i = Some x ->
             nth_error (moves_list s') i = Some x) /\
  (forall x, nth_error (z_angle_list s) i = Some x ->
             nth_error (z_angle_list s') i = Some x) /\
  (forall x, nth_error (m_angle_list s) i = Some x ->
             nth_error (m_angle_list s') i = Some x).
Proof.
  intros H. apply body_appends in H.
  destruct H as [_ [HD [Hm [Hz Hma]]]].
  rewrite HD, Hm, Hz, Hma.
  repeat split; intros x Hx; rewrite nth_error_app1; try exact Hx;
    apply nth_error_Some; rewrite Hx; discriminate.
Qed.

(** The entry of index [i] of each log is the value the variable had
    when [i] cycles were completed. *)
Lemma history_entry n i sn si :
  outcome (after_cycles mode a n initial) = Ok sn ->
  outcome (after_cycles mode a i initial) = Ok si ->
  i <= n ->
  nth_error (D_list sn) i = Some (D si) /\
  nth_error (moves_list sn) i = Some (moves si) /\
  nth_error (z_angle_list sn) i = Some (z_angle si) /\
  nth_error (m_angle_list sn) i = Some (m_angle si).
Proof.
  revert sn. induction n as [| n IH]; intros sn Hn Hi Hle.
  - assert (i = O) as -> by lia. rewrite Hi in Hn. injection Hn as <-.
    cbn in Hi. injection Hi as <-. cbn. repeat split; reflexivity.
  - destruct (Nat.eq_dec i (S n)) as [-> | Hne].
    + rewrite Hi in Hn. injection Hn as <-.
      pose proof (logged_after _ _ _ logged_initial Hi) as L.
      pose proof (after_cycles_cycle _ _ _ Hi) as Hc. cbn in Hc.
      destruct L as [_ _ _ _ L1 L2 L3 L4]. rewrite Hc in *.
      repeat split; assumption.
    + apply after_cycles_step in Hn. destruct Hn as [s1 [H1 H2]].
      destruct (IH s1 H1 Hi ltac:(lia)) as [I1 [I2 [I3 I4]]].
      destruct (kept_body _ _ i H2) as [K1 [K2 [K3 K4]]].
      repeat split; auto.
Qed.

(** The loop, read as a number of completed cycles: it stops after the
    first cycle that leaves [D > D_limit], or after [k] cycles. *)
Lemma loop_cycles k s s' r :
  outcome (loop mode a D_limit k s) = Ok (s', r) ->
  exists j,
    j <= k /\
    outcome (after_cycles mode a j s) = Ok s' /\
    (forall i si, 1 <= i < j -> outcome (after_cycles mode a i s) = Ok si ->
                  mp.gt (D si) D_limit = false) /\
    match r with
    | LimitExceeded => 1 <= j /\ mp.gt (D s') D_limit = true
    | StepsExhausted => j = k /\ (1 <= j -> mp.gt (D s') D_limit = false)
    end.
Proof.
  revert s. induction k as [| k IH]; intros s H.
  - cbn in H. injection H as <- <-. exists O.
    repeat split; try reflexivity; intros; lia.
  - cbn [loop] in H. apply bind_ok_inv in H.
    destruct H as [s1 [Hb H]].
    destruct (mp.gt (D s1) D_limit) eqn:G.
    + rewrite outcome_ret in H. injection H as <- <-. exists 1.
      split; [lia |]. split.
      { rewrite after_cycles_front, Hb. reflexivity. }
      split; [intros; lia |]. split; [lia | exact G].
    + destruct (IH s1 H) as [j [Hj [Ha [Hbefore Hr]]]].
      exists (S j). split; [lia |]. split.
      { rewrite after_cycles_front, Hb. exact Ha. }
      split.
      { intros i si Hi Hsi. destruct i as [| i]; [lia |].
        rewrite after_cycles_front, Hb in Hsi.
        destruct i as [| i].
        - cbn in Hsi. injection Hsi as <-. exact G.
        - apply (Hbefore (S i) si); [lia | exact Hsi]. }
      destruct r.
      * destruct Hr as [_ Hr]. split; [lia | exact Hr].
      * destruct Hr as [Hjk Hr]. split; [lia |]. intros _.
        destruct j as [| j]; [| apply Hr; lia].
        cbn in Ha. injection Ha as <-. exact G.
Qed.

(** What [simulate] returns is the state the loop ended in. *)
Lemma simulate_ok max_steps h :
  outcome (simulate mode a D_limit max_steps) = Ok h ->
  exists s r,
    outcome (loop mode a D_limit max_steps initial) = Ok (s, r) /\
    h = returned s.
Proof.
  unfold simulate. intros H. apply bind_ok_inv in H.
  destruct H as [[s r] [Hl H]]. rewrite outcome_ret in H.
  injection H as <-. exists s, r. split; [exact Hl | reflexivity].
Qed.

Lemma simulate_of_loop max_steps s r :
  outcome (loop mode a D_limit max_steps initial) = Ok (s, r) ->
  outcome (simulate mode a D_limit max_steps) = Ok (returned s).
Proof.
  intros H. unfold simulate. rewrite outcome_bind, H. reflexivity.
Qed.

(** A run that returns completed [r_cycles] cycles, none of which but
    the last left [D] above the limit. *)
Lemma simulate_cycles max_steps h :
  outcome (simulate mode a D_limit max_steps) = Ok h ->
  exists s r,
    outcome (loop mode a D_limit max_steps initial) = Ok (s, r) /\
    h = returned s /\
    r_cycles h <= max_steps /\
    outcome (after_cycles mode a (r_cycles h) initial) = Ok s /\
    logged s.
Proof.
  intros H. destruct (simulate_ok _ _ H) as [s [r [Hl ->]]].
  destruct (loop_cycles _ _ _ _ Hl) as [j [Hj [Ha _]]].
  pose proof (after_cycles_cycle _ _ _ Ha) as Hc. cbn in Hc.
  exists s, r. cbn [r_cycles returned]. rewrite Hc.
  split; [exact Hl |]. split; [reflexivity |]. split; [exact Hj |].
  split; [exact Ha |].
  exact (logged_after _ _ _ logged_initial Ha).
Qed.

End Run.

(** ** Properties of every run, whatever the arithmetic *)

Section Properties.

Context {num : Type} {AR : mp.Arith num}.
Variable mode : Mode.
Variables a D_limit : num.

(** C6.  A run that returns gives four logs [D], [z_angle], [m_angle]
    and [moves] of one length, the number of cycles plus one. *)
Theorem history_lengths max_steps h :
  outcome (simulate mode a D_limit max_steps) = Ok h ->
  length (r_D h) = r_cycles h + 1 /\
  length (r_z_angle h) = r_cycles h + 1 /\
  length (r_m_angle h) = r_cycles h + 1 /\
  length (r_moves h) = r_cycles h + 1.
Proof.
  intros H.
  destruct (simulate_cycles _ _ _ _ _ H) as [s [r [_ [-> [_ [_ L]]]]]].
  destruct L as [L1 L2 L3 L4 _ _ _ _]. cbn.
  rewrite L1, L2, L3, L4. repeat split; lia.
Qed.

(** Two consecutive completed cycles of a run, and their log entries. *)
Lemma consecutive_cycles max_steps h n :
  outcome (simulate mode a D_limit max_steps) = Ok h ->
  S n <= r_cycles h ->
  exists s s',
    outcome (after_cycles mode a n initial) = Ok s /\
    outcome (body mode a s) = Ok s' /\
    outcome (after_cycles mode a (S n) initial) = Ok s' /\
    cycle s = n /\
    nth_error (r_D h) n = Some (D s) /\
    nth_error (r_moves h) n = Some (moves s) /\
    nth_error (r_z_angle h) n = Some (z_angle s) /\
    nth_error (r_D h) (S n) = Some (D s') /\
    nth_error (r_moves h) (S n) = Some (moves s') /\
    nth_error (r_z_angle h) (S n) = Some (z_angle s').
Proof.
  intros H Hn.
  destruct (simulate_cycles _ _ _ _ _ H) as [sf [r [_ [-> [_ [Hf _]]]]]].
  cbn [r_cycles returned] in *.
  destruct (after_cycles_earlier _ _ _ _ _ (S n) Hf Hn) as [s' Hs'].
  destruct (after_cycles_step _ _ _ _ _ Hs') as [s [Hs Hb]].
  pose proof (after_cycles_cycle _ _ _ _ _ Hs) as Hc. cbn in Hc.
  destruct (history_entry _ _ _ _ _ _ Hf Hs ltac:(lia)) as [E1 [E2 [E3 _]]].
  destruct (history_entry _ _ _ _ _ _ Hf Hs' Hn) as [F1 [F2 [F3 _]]].
  exists s, s'. cbn [r_D r_moves r_z_angle returned].
  repeat split; assumption.
Qed.

(** C1.  In every cycle [n > 1] of a run the recorded distance is
    [hypot(m_dist - moves + D_prev, 1)] with [m_dist = sqrt(moves^2 - 1)],
    where [moves] and [D_prev] are the step length and the distance
    recorded by the cycle before. *)
Theorem distance_recurrence max_steps h n :
  outcome (simulate mode a D_limit max_steps) = Ok h ->
  1 < n <= r_cycles h ->
  exists mv d_prev m_dist,
    nth_error (r_moves h) (n - 1) = Some mv /\
    nth_error (r_D h) (n - 1) = Some d_prev /\
    mp.sqrt (mp.sub (mp.mul mv mv) mp.one) = Ok m_dist /\
    nth_error (r_D h) n =
      Some (mp.hypot (mp.add (mp.sub m_dist mv) d_prev) mp.one).
Proof.
  intros H [Hn1 Hn2].
  destruct n as [| n]; [lia |].
  replace (S n - 1) with n by lia.
  destruct (consecutive_cycles _ _ _ H Hn2)
    as [s [s' [_ [Hb [_ [Hc [E1 [E2 [_ [F1 _]]]]]]]]]].
  assert (Hnz : cycle s <> O) by lia.
  destruct (body_later _ _ _ _ Hnz Hb) as [md [Hmd [HD _]]].
  exists (moves s), (D s), md.
  repeat split; try assumption.
  rewrite F1, HD. reflexivity.
Qed.

(** A run that returns before [max_steps] cycles left the loop by
    [break]. *)
Lemma early_return_is_break max_steps s r :
  outcome (loop mode a D_limit max_steps initial) = Ok (s, r) ->
  cycle s < max_steps -> r = LimitExceeded.
Proof.
  intros Hl Hlt.
  destruct (loop_cycles _ _ _ _ _ _ _ Hl) as [j [_ [Ha [_ Hr]]]].
  pose proof (after_cycles_cycle _ _ _ _ _ Ha) as Hc. cbn in Hc.
  destruct r; [reflexivity |]. destruct Hr as [Hj _]. lia.
Qed.

(** C2.  When the loop is left by [break], the last entry of the
    returned [D] log is the distance of the last cycle and exceeds
    [D_limit], and no entry of an earlier cycle does; nor does the seed
    entry, when [0 > D_limit] is false. *)
Theorem stops_at_first_exceeding max_steps s r :
  outcome (loop mode a D_limit max_steps initial) = Ok (s, r) ->
  r = LimitExceeded \/ cycle s < max_steps ->
  let h := returned s in
  outcome (simulate mode a D_limit max_steps) = Ok h /\
  1 <= r_cycles h /\
  length (r_D h) = S (r_cycles h) /\
  nth_error (r_D h) (r_cycles h) = Some (D s) /\
  mp.gt (D s) D_limit = true /\
  (forall i d, 1 <= i < r_cycles h -> nth_error (r_D h) i = Some d ->
               mp.gt d D_limit = false) /\
  (mp.gt mp.zero D_limit = false ->
   forall i d, i < r_cycles h -> nth_error (r_D h) i = Some d ->
               mp.gt d D_limit = false).
Proof.
  intros Hl Hr h.
  assert (r = LimitExceeded) as ->.
  { destruct Hr as [-> | Hlt]; [reflexivity |].
    exact (early_return_is_break _ _ _ Hl Hlt). }
  destruct (loop_cycles _ _ _ _ _ _ _ Hl) as [j [_ [Ha [Hbefore [Hj G]]]]].
  pose proof (after_cycles_cycle _ _ _ _ _ Ha) as Hc. cbn in Hc.
  pose proof (logged_after _ _ _ _ _ logged_initial Ha) as L.
  subst h. split; [exact (simulate_of_loop _ _ _ _ _ _ Hl) |].
  cbn [r_cycles r_D returned]. rewrite Hc.
  assert (early : forall i d, 1 <= i < j ->
            nth_error (D_list s) i = Some d -> mp.gt d D_limit = false).
  { intros i d Hi Hd.
    destruct (after_cycles_earlier _ _ _ _ _ i Ha ltac:(lia)) as [si Hsi].
    destruct (history_entry _ _ _ _ _ _ Ha Hsi ltac:(lia)) as [E _].
    rewrite E in Hd. injection Hd as <-.
    exact (Hbefore i si Hi Hsi). }
  split; [exact Hj |].
  split; [rewrite <- Hc; exact (logged_D L) |].
  split; [rewrite <- Hc; exact (last_D L) |].
  split; [exact G |].
  split; [exact early |].
  intros G0 i d Hi Hd. destruct i as [| i].
  - destruct (history_entry _ _ _ O _ _ Ha eq_refl (Nat.le_0_l _)) as [E _].
    rewrite E in Hd. injection Hd as <-. exact G0.
  - apply (early (S i) d); [lia | exact Hd].
Qed.

(** C8, as the code has it.  The returned record has no field for the
    way the loop was left.  After at least one cycle, the loop was left
    by [break] exactly when the last recorded distance exceeds
    [D_limit]; otherwise all [max_steps] cycles were run. *)
Theorem exit_shown_only_by_last_distance max_steps s r :
  outcome (loop mode a D_limit max_steps initial) = Ok (s, r) ->
  1 <= max_steps ->
  let h := returned s in
  outcome (simulate mode a D_limit max_steps) = Ok h /\
  nth_error (r_D h) (r_cycles h) = Some (D s) /\
  (r = LimitExceeded <-> mp.gt (D s) D_limit = true) /\
  (r = StepsExhausted -> r_cycles h = max_steps).
Proof.
  intros Hl Hm h.
  destruct (loop_cycles _ _ _ _ _ _ _ Hl) as [j [_ [Ha [_ Hr]]]].
  pose proof (after_cycles_cycle _ _ _ _ _ Ha) as Hc. cbn in Hc.
  pose proof (logged_after _ _ _ _ _ logged_initial Ha) as L.
  subst h. split; [exact (simulate_of_loop _ _ _ _ _ _ Hl) |].
  cbn [r_cycles r_D returned].
  split; [exact (last_D L) |].
  destruct r.
  - destruct Hr as [_ G]. split; [tauto |]. discriminate.
  - destruct Hr as [Hj G]. split; [| intros _; lia].
    rewrite (G ltac:(lia)). split; discriminate.
Qed.

End Properties.

(** ** Invocations outside the domains, where the library raises *)

Section Faults.

Context {num : Type} {AR : mp.Arith num}.
Variable bad : call num -> Prop.
Hypothesis asin_raises :
  forall x, bad (AsinCall x) -> mp.asin x = Raise DomainError.
Hypothesis sqrt_raises :
  forall x, bad (SqrtCall x) -> mp.sqrt x = Raise DomainError.

Lemma ff_ret {A} (x : A) : fail_fast bad (@ret num A x).
Proof. unfold fail_fast. cbn. constructor. Qed.

Lemma ff_lift {A} (r : result A) : fail_fast bad (@lift num A r).
Proof.
  unfold fail_fast. destruct r; cbn; [constructor | left; reflexivity].
Qed.

Lemma ff_call_asin x : fail_fast bad (call_asin x).
Proof.
  unfold fail_fast, call_asin. cbn. destruct (mp.asin x) as [v | e] eqn:E.
  - constructor; [| constructor]. intros B.
    rewrite (asin_raises _ B) in E. discriminate.
  - right. exists [], (AsinCall x). split; [reflexivity |].
    split; [constructor |]. intros B.
    rewrite (asin_raises _ B) in E. injection E as <-. reflexivity.
Qed.

Lemma ff_call_sqrt x : fail_fast bad (call_sqrt x).
Proof.
  unfold fail_fast, call_sqrt. cbn. destruct (mp.sqrt x) as [v | e] eqn:E.
  - constructor; [| constructor]. intros B.
    rewrite (sqrt_raises _ B) in E. discriminate.
  - right. exists [], (SqrtCall x). split; [reflexivity |].
    split; [constructor |]. intros B.
    rewrite (sqrt_raises _ B) in E. injection E as <-. reflexivity.
Qed.

Lemma ff_bind {A B} (m : M num A) (f : A -> M num B) :
  fail_fast bad m -> (forall x, fail_fast bad (f x)) ->
  fail_fast bad (bind m f).
Proof.
  destruct m as [l [x | e]]; unfold fail_fast; cbn; intros Hm Hf;
    [| exact Hm].
  specialize (Hf x). destruct (f x) as [l2 [y | e2]]; cbn in *.
  - apply Forall_app. split; assumption.
  - destruct Hf as [-> | [l0 [c [-> [Hl0 Hc]]]]].
    + rewrite app_nil_r.
      destruct l as [| c0 l0] using rev_ind; [left; reflexivity |].
      right. exists l0, c0. apply Forall_app in Hm. destruct Hm as [Hm Hc0].
      split; [reflexivity |]. split; [exact Hm |].
      intros Bc. inversion Hc0; subst. contradiction.
    + right. exists (l ++ l0), c. rewrite app_assoc.
      split; [reflexivity |]. split; [| exact Hc].
      apply Forall_app. split; assumption.
Qed.

Lemma ff_inv x : fail_fast bad (inv x).
Proof. apply ff_lift. Qed.

Lemma ff_first_cycle mode a c s : fail_fast bad (first_cycle mode a c s).
Proof.
  unfold first_cycle.
  repeat (apply ff_bind;
          [first [apply ff_inv | apply ff_lift | apply ff_call_asin]
          | intros ?]).
  apply ff_ret.
Qed.

Lemma ff_later_cycle mode a c s : fail_fast bad (later_cycle mode a c s).
Proof.
  unfold later_cycle.
  repeat (apply ff_bind;
          [first [apply ff_inv | apply ff_lift | apply ff_call_asin
                 | apply ff_call_sqrt]
          | intros ?]).
  apply ff_ret.
Qed.

Lemma ff_body mode a s : fail_fast bad (body mode a s).
Proof.
  unfold body. destruct (Nat.eqb (S (cycle s)) 1);
    [apply ff_first_cycle | apply ff_later_cycle].
Qed.

Lemma ff_loop mode a D_limit n s : fail_fast bad (loop mode a D_limit n s).
Proof.
  revert s. induction n as [| n IH]; intros s; cbn [loop].
  - apply ff_ret.
  - apply ff_bind; [apply ff_body |]. intros s'.
    destruct (mp.gt (D s') D_limit); [apply ff_ret | apply IH].
Qed.

Lemma ff_simulate mode a D_limit max_steps :
  fail_fast bad (simulate mode a D_limit max_steps).
Proof.
  unfold simulate. apply ff_bind; [apply ff_loop |]. intros ?. apply ff_ret.
Qed.

End Faults.

(** ** The operations over the real numbers *)

Section RealOperations.

Local Open Scope R_scope.

Lemma div_ok (x y : R) : y <> 0 -> mp.div x y = Ok (x / y).
Proof.
  intros Hy. cbn. unfold RealArith.div.
  destruct (Req_dec_T y 0) as [E | _]; [contradiction | reflexivity].
Qed.

Lemma sqrt_ok (x : R) : 0 <= x -> mp.sqrt x = Ok (sqrt x).
Proof.
  intros Hx. cbn. unfold RealArith.sqrt.
  destruct (Rlt_dec x 0) as [E | _]; [lra | reflexivity].
Qed.

Lemma asin_ok (x : R) : Rabs x <= 1 -> mp.asin x = Ok (asin x).
Proof.
  intros Hx. cbn. unfold RealArith.asin.
  destruct (Rlt_dec 1 (Rabs x)) as [E | _]; [lra | reflexivity].
Qed.

Lemma asin_out_of_domain (x : R) :
  RealArith.out_of_domain (AsinCall x) -> mp.asin x = Raise DomainError.
Proof.
  cbn. intros Hx. unfold RealArith.asin.
  destruct (Rlt_dec 1 (Rabs x)) as [_ | E]; [reflexivity | contradiction].
Qed.

Lemma sqrt_out_of_domain (x : R) :
  RealArith.out_of_domain (SqrtCall x) -> mp.sqrt x = Raise DomainError.
Proof.
  cbn. intros Hx. unfold RealArith.sqrt.
  destruct (Rlt_dec x 0) as [_ | E]; [reflexivity | contradiction].
Qed.

Lemma gt_true (x y : R) : y < x -> mp.gt x y = true.
Proof.
  intros H. cbn. unfold RealArith.gt.
  destruct (Rlt_dec y x); [reflexivity | contradiction].
Qed.

Lemma gt_false (x y : R) : x <= y -> mp.gt x y = false.
Proof.
  intros H. cbn. unfold RealArith.gt.
  destruct (Rlt_dec y x); [lra | reflexivity].
Qed.

Lemma gt_false_le (x y : R) : mp.gt x y = false -> x <= y.
Proof.
  cbn. unfold RealArith.gt.
  destruct (Rlt_dec y x); [discriminate | intros _; lra].
Qed.

Lemma gt_true_lt (x y : R) : mp.gt x y = true -> y < x.
Proof.
  cbn. unfold RealArith.gt.
  destruct (Rlt_dec y x); [intros _; assumption | discriminate].
Qed.

(** [sqrt y <= z] and [z < sqrt y] from the squares. *)
Lemma sqrt_le_of_square (y z : R) : 0 <= z -> y <= z * z -> sqrt y <= z.
Proof.
  intros Hz H. rewrite <- (sqrt_square z Hz). apply sqrt_le_1_alt, H.
Qed.

Lemma sqrt_ge_of_square (y z : R) : 0 <= z -> z * z <= y -> z <= sqrt y.
Proof.
  intros Hz H. rewrite <- (sqrt_square z Hz) at 1. apply sqrt_le_1_alt, H.
Qed.

Lemma sqrt_gt_of_square (y z : R) : 0 <= z -> z * z < y -> z < sqrt y.
Proof.
  intros Hz H. rewrite <- (sqrt_square z Hz) at 1. apply sqrt_lt_1_alt.
  split; [nra | exact H].
Qed.

(** The hypotenuse over a unit leg is at least [1]. *)
Lemma hypot_unit_ge_1 (x : R) : 1 <= mp.hypot x 1.
Proof.
  cbn. unfold RealArith.hypot. apply sqrt_ge_of_square; nra.
Qed.

Lemma hypot_unit_le (x d : R) : 0 <= x <= d -> mp.hypot x 1 <= d + 1.
Proof.
  intros H. cbn. unfold RealArith.hypot. apply sqrt_le_of_square; nra.
Qed.

(** [1 / x] is in the domain of [asin] when [x >= 1]. *)
Lemma inverse_in_domain (x : R) : 1 <= x -> Rabs (1 / x) <= 1.
Proof.
  intros Hx. assert (0 < / x) by (apply Rinv_0_lt_compat; lra).
  assert (/ x <= 1).
  { rewrite <- Rinv_1. apply Rinv_le_contravar; lra. }
  unfold Rdiv. rewrite Rmult_1_l, Rabs_pos_eq; lra.
Qed.

(** The ceiling of a positive number is an integer, at least [1]. *)
Lemma ceil_positive (x : R) : 0 < x -> (1 <= Zceil x)%Z.
Proof.
  intros Hx. destruct (Zceil_bound x) as [_ Hu].
  assert (0 < IZR (Zceil x)) by lra.
  apply lt_IZR in H. lia.
Qed.

Lemma ceil_ge_1 (x : R) : 0 < x -> 1 <= mp.ceil x.
Proof.
  intros Hx. cbn. unfold RealArith.ceil. apply IZR_le, ceil_positive, Hx.
Qed.

Lemma quantize_admissible mode (a d : R) :
  admissible mode a -> 1 <= d -> 1 <= quantize mode (a * d).
Proof.
  destruct mode; cbn [admissible quantize]; intros Ha Hd.
  - nra.
  - apply ceil_ge_1. nra.
Qed.

Lemma quantize_positive mode (a d : R) :
  0 < a -> 1 <= d -> 0 < quantize mode (a * d).
Proof.
  destruct mode; cbn [quantize]; intros Ha Hd.
  - nra.
  - assert (1 <= mp.ceil (a * d)) by (apply ceil_ge_1; nra). lra.
Qed.

(** [sqrt(m^2 - 1) - m] lies between [-1] and [0] when [m >= 1]. *)
Lemma leg_minus_step (m : R) :
  1 <= m -> -1 <= sqrt (m * m - 1) - m <= 0.
Proof.
  intros Hm. split.
  - assert (m - 1 <= sqrt (m * m - 1)) by (apply sqrt_ge_of_square; nra). lra.
  - assert (sqrt (m * m - 1) <= m) by (apply sqrt_le_of_square; nra). lra.
Qed.

End RealOperations.

(** ** Angle wrapping over the real numbers *)

Section Wrap.

Local Open Scope R_scope.

(** [PI_LD] is below [pi]: the rounding to 53 bits went down.  The
    lower bound on [pi] is a partial sum of Machin's series. *)
Lemma PI_LD_lt_PI : RealArith.PI_53 < PI.
Proof.
  pose proof (PI_2_3_7_ineq 8) as [H _].
  unfold PI_2_3_7_tg, Ratan_seq, tg_alt in H.
  cbn [sum_f_R0 Nat.mul Nat.add pow INR] in H.
  unfold RealArith.PI_53. lra.
Qed.

Lemma PI_LD_gt_3 : 3 < RealArith.PI_53.
Proof. unfold RealArith.PI_53. lra. Qed.

(** The remainder of the floored division by a positive number lies in
    [[0, m)]. *)
Lemma remainder_bound (x m : R) :
  0 < m -> 0 <= RealArith.remainder x m < m.
Proof.
  intros Hm. unfold RealArith.remainder.
  destruct (Zfloor_bound (x / m)) as [Hl Hu].
  set (k := IZR (Zfloor (x / m))) in *.
  assert (E : x = x / m * m) by (field; lra).
  split.
  - assert (k * m <= x / m * m) by (apply Rmult_le_compat_r; lra). lra.
  - assert (x / m * m < (k + 1) * m) by (apply Rmult_lt_compat_r; lra). lra.
Qed.

Lemma remainder_shift (x m : R) (k : Z) :
  m <> 0 -> RealArith.remainder (x + IZR k * m) m = RealArith.remainder x m.
Proof.
  intros Hm. unfold RealArith.remainder.
  replace ((x + IZR k * m) / m) with (x / m + IZR k) by (field; exact Hm).
  rewrite Zfloor_addz, plus_IZR. ring.
Qed.

(** The remainder of a number between [j * m] and [(j + 1) * m]. *)
Lemma remainder_in_turn (x m : R) (j : Z) :
  0 < m -> IZR j * m <= x < (IZR j + 1) * m ->
  RealArith.remainder x m = x - IZR j * m.
Proof.
  intros Hm [Hl Hu]. unfold RealArith.remainder.
  replace (Zfloor (x / m)) with j; [reflexivity |].
  symmetry. apply Zfloor_eq. split.
  - apply Rmult_le_reg_r with m; [exact Hm |].
    replace (x / m * m) with x by (field; lra). exact Hl.
  - apply Rmult_lt_reg_r with m; [exact Hm |].
    replace (x / m * m) with x by (field; lra). exact Hu.
Qed.

Lemma fmod_ok (x m : R) : m <> 0 -> mp.fmod x m = Ok (RealArith.remainder x m).
Proof.
  intros Hm. cbn. unfold RealArith.fmod.
  destruct (Req_dec_T m 0) as [E | _]; [contradiction | reflexivity].
Qed.

(** Over the real numbers [wrap_angle] returns, for every angle. *)
Lemma wrap_angle_real (theta : R) :
  wrap_angle theta = Ok (RealArith.wrapped theta).
Proof.
  pose proof PI_LD_gt_3 as HP. unfold wrap_angle, PI_LD.
  change (@mp.pi R RealArith.exact) with RealArith.PI_53.
  change (@mp.two R RealArith.exact) with 2.
  change (@mp.add R RealArith.exact) with Rplus.
  change (@mp.mul R RealArith.exact) with Rmult.
  change (@mp.sub R RealArith.exact) with Rminus.
  rewrite fmod_ok by lra. reflexivity.
Qed.

Lemma wrapped_bound (theta : R) :
  - RealArith.PI_53 <= RealArith.wrapped theta < RealArith.PI_53.
Proof.
  pose proof PI_LD_gt_3 as HP. unfold RealArith.wrapped.
  pose proof (remainder_bound (theta + RealArith.PI_53)
                (2 * RealArith.PI_53) ltac:(lra)). lra.
Qed.

(** An angle already in [[-PI_LD, PI_LD)] is left as it is. *)
Lemma wrapped_id (theta : R) :
  - RealArith.PI_53 <= theta < RealArith.PI_53 ->
  RealArith.wrapped theta = theta.
Proof.
  intros H. pose proof PI_LD_gt_3 as HP. unfold RealArith.wrapped.
  rewrite (remainder_in_turn _ _ 0); cbn [IZR]; lra.
Qed.

(** An angle one turn further is taken one turn back. *)
Lemma wrapped_next (theta : R) :
  RealArith.PI_53 <= theta < 3 * RealArith.PI_53 ->
  RealArith.wrapped theta = theta - 2 * RealArith.PI_53.
Proof.
  intros H. pose proof PI_LD_gt_3 as HP. unfold RealArith.wrapped.
  rewrite (remainder_in_turn _ _ 1); cbn [IZR]; lra.
Qed.

(** Wrapping takes off a whole number of turns of [2 * PI_LD]. *)
Lemma wrapped_turns (theta : R) :
  exists k : Z,
    RealArith.wrapped theta = theta + 2 * RealArith.PI_53 * IZR k.
Proof.
  exists (- Zfloor ((theta + RealArith.PI_53) / (2 * RealArith.PI_53)))%Z.
  unfold RealArith.wrapped, RealArith.remainder. rewrite opp_IZR. ring.
Qed.

Lemma wrapped_shift (theta : R) (k : Z) :
  RealArith.wrapped (theta + 2 * RealArith.PI_53 * IZR k) =
  RealArith.wrapped theta.
Proof.
  pose proof PI_LD_gt_3 as HP. unfold RealArith.wrapped.
  replace (theta + 2 * RealArith.PI_53 * IZR k + RealArith.PI_53)
    with (theta + RealArith.PI_53 + IZR k * (2 * RealArith.PI_53)) by ring.
  rewrite remainder_shift by lra. reflexivity.
Qed.

Lemma wrapped_in_pi (theta : R) : - PI <= RealArith.wrapped theta < PI.
Proof.
  pose proof (wrapped_bound theta). pose proof PI_LD_lt_PI. lra.
Qed.

(** A heading that was turned forward by at most a quarter turn, and
    is not below what it was, has not been taken a turn back. *)
Lemma wrapped_ahead (x d : R) :
  - RealArith.PI_53 <= x < RealArith.PI_53 -> 0 <= d <= PI / 2 ->
  x <= RealArith.wrapped (x + d) ->
  RealArith.wrapped (x + d) = x + d.
Proof.
  intros Hx Hd Hle. pose proof PI_LD_gt_3 as HP. pose proof PI_4 as H4.
  destruct (Rlt_le_dec (x + d) RealArith.PI_53) as [H | H].
  - apply wrapped_id. lra.
  - rewrite wrapped_next in Hle by lra. lra.
Qed.

(** C3.  What [wrap_angle] does over the real numbers.  It returns
    [((theta + PI_LD) mod (2 PI_LD)) - PI_LD] with the remainder of the
    floored division, a number of [[-PI_LD, PI_LD)], which lies inside
    [[-pi, pi)].  It is unchanged when a multiple of [2 PI_LD] is added
    to [theta].  But [PI_LD] is [pi] rounded to 53 bits, not [pi]:
    [2 pi] is not a period.  [wrap_angle (0 + 2 pi)] is
    [2 (pi - PI_LD)], and [wrap_angle 0] is 0. *)
Theorem wrap_angle_period_is_not_two_pi :
  (forall theta : R,
     exists w,
       wrap_angle theta = Ok w /\
       w = RealArith.remainder (theta + PI_LD) (2 * PI_LD) - PI_LD /\
       0 <= RealArith.remainder (theta + PI_LD) (2 * PI_LD) < 2 * PI_LD /\
       - PI_LD <= w < PI_LD /\
       - PI <= w < PI) /\
  (forall (theta : R) (k : Z),
     wrap_angle (theta + 2 * PI_LD * IZR k) = wrap_angle theta) /\
  PI_LD < PI /\
  wrap_angle 0 = Ok 0 /\
  wrap_angle (0 + 2 * PI * IZR 1) = Ok (2 * (PI - PI_LD)) /\
  wrap_angle (0 + 2 * PI * IZR 1) <> wrap_angle 0.
Proof.
  pose proof PI_LD_gt_3 as HP. pose proof PI_LD_lt_PI as HL.
  pose proof PI_4 as H4.
  change (@PI_LD R RealArith.exact) with RealArith.PI_53.
  assert (W0 : RealArith.wrapped 0 = 0) by (apply wrapped_id; lra).
  assert (W1 : RealArith.wrapped (0 + 2 * PI * IZR 1) =
               2 * (PI - RealArith.PI_53)).
  { rewrite wrapped_next; cbn [IZR]; lra. }
  split; [| split; [| split; [| split; [| split]]]].
  - intros theta. pose proof (wrapped_bound theta) as Hb.
    exists (RealArith.wrapped theta).
    split; [apply wrap_angle_real |]. split; [reflexivity |].
    split; [apply remainder_bound; lra |].
    split; [exact Hb | lra].
  - intros theta k. rewrite !wrap_angle_real, wrapped_shift. reflexivity.
  - exact HL.
  - rewrite wrap_angle_real, W0. reflexivity.
  - rewrite wrap_angle_real, W1. reflexivity.
  - rewrite !wrap_angle_real, W0, W1. intros C. injection C as C. lra.
Qed.

End Wrap.

(** ** Runs over the real numbers *)

Section RealRuns.

Local Open Scope R_scope.

Variable mode : Mode.
Variables a D_limit : R.

(** [1.0 / x] followed by [asin], for [x >= 1]. *)
Lemma inv_asin_ok {A} (x : R) (k : R -> M R A) :
  1 <= x ->
  outcome (q <- inv x ;; v <- call_asin q ;; k v) =
  outcome (k (asin (1 / x))).
Proof.
  intros Hx. rewrite outcome_bind. unfold inv. rewrite outcome_lift.
  change (@mp.one R RealArith.exact) with 1.
  rewrite div_ok by lra. rewrite outcome_bind.
  unfold call_asin at 1. unfold outcome at 1. cbn [snd].
  rewrite asin_ok by (apply inverse_in_domain, Hx). reflexivity.
Qed.

(** [wrap_angle] in the middle of a cycle. *)
Lemma wrap_ok {A} (theta : R) (k : R -> M R A) :
  outcome (z <- lift (wrap_angle theta) ;; k z) =
  outcome (k (RealArith.wrapped theta)).
Proof. rewrite outcome_bind, outcome_lift, wrap_angle_real. reflexivity. Qed.

(** The first cycle returns when the first step length is at least 1. *)
Lemma first_cycle_returns c s :
  1 <= quantize mode a ->
  exists s', outcome (first_cycle mode a c s) = Ok s'.
Proof.
  intros Hq. unfold first_cycle. rewrite inv_asin_ok by exact Hq.
  rewrite wrap_ok. eexists. apply outcome_ret.
Qed.

(** A later cycle returns when the step length it starts with is at
    least 1 and the next one is too. *)
Lemma later_cycle_returns c s :
  1 <= moves s ->
  (forall d, 1 <= d -> 1 <= quantize mode (a * d)) ->
  exists s', outcome (later_cycle mode a c s) = Ok s'.
Proof.
  intros Hm Hq. unfold later_cycle.
  rewrite outcome_bind. unfold call_sqrt at 1. unfold outcome at 1. cbn [snd].
  change (@mp.sub R RealArith.exact) with Rminus.
  change (@mp.mul R RealArith.exact) with Rmult.
  change (@mp.add R RealArith.exact) with Rplus.
  change (@mp.one R RealArith.exact) with 1.
  rewrite sqrt_ok by nra.
  rewrite inv_asin_ok by exact Hm.
  set (D' := mp.hypot _ 1).
  assert (HD : 1 <= D') by apply hypot_unit_ge_1.
  rewrite inv_asin_ok by exact HD.
  rewrite wrap_ok.
  rewrite inv_asin_ok by (apply Hq, HD).
  rewrite inv_asin_ok by exact HD.
  rewrite wrap_ok.
  eexists. apply outcome_ret.
Qed.

Lemma steady_initial : steady initial.
Proof. split; cbn; [lra | congruence]. Qed.

(** With an admissible [a], every cycle returns; the distance it leaves
    is at least 1, and at most 1 more than the one before. *)
Lemma body_returns s :
  admissible mode a -> steady s ->
  exists s',
    outcome (body mode a s) = Ok s' /\ steady s' /\ 1 <= D s' /\
    (cycle s = O -> D s' = 1) /\ (cycle s <> O -> D s' <= D s + 1).
Proof.
  intros Ha [Hm HD]. unfold body.
  destruct (Nat.eqb_spec (S (cycle s)) 1) as [E | E].
  - assert (Hq : 1 <= quantize mode a).
    { replace a with (a * 1) by ring.
      apply quantize_admissible; [exact Ha | lra]. }
    destruct (first_cycle_returns (S (cycle s)) s Hq) as [s' Hs'].
    exists s'. split; [exact Hs' |].
    apply first_cycle_ok in Hs'.
    destruct Hs' as [q [al [z' [_ [_ [_ ->]]]]]].
    cbn [moves D cycle]. change (@mp.one R RealArith.exact) with 1.
    split; [split; cbn [moves D cycle]; [exact Hq | intros _; lra] |].
    split; [lra |]. split; [reflexivity |]. intros C. lia.
  - assert (Hc : cycle s <> O) by lia.
    destruct (later_cycle_returns (S (cycle s)) s Hm
                (fun d => quantize_admissible mode a d Ha)) as [s' Hs'].
    exists s'. split; [exact Hs' |].
    apply later_cycle_ok in Hs'.
    destruct Hs' as [md [Hmd [HD' [_ [Hmv [Hcy _]]]]]].
    rewrite sqrt_ok in Hmd
      by (change (0 <= moves s * moves s - 1); nra).
    injection Hmd as <-.
    assert (G : 1 <= D s') by (rewrite HD'; apply hypot_unit_ge_1).
    pose proof (leg_minus_step (moves s) Hm) as Hleg.
    specialize (HD Hc).
    split; [split |].
    + rewrite Hmv. apply quantize_admissible; assumption.
    + intros _. exact G.
    + split; [exact G |]. split; [intros C; contradiction |]. intros _.
      rewrite HD'. unfold next_D. apply hypot_unit_le.
      change (0 <= sqrt (moves s * moves s - 1) - moves s + D s <= D s). lra.
Qed.

Lemma after_cycles_returns n :
  admissible mode a ->
  exists s,
    outcome (after_cycles mode a n initial) = Ok s /\ steady s /\
    (n <> O -> 1 <= D s) /\ D s <= INR n.
Proof.
  intros Ha. induction n as [| n [s [Hs [St [_ Hn]]]]].
  - exists initial. split; [reflexivity |]. split; [exact steady_initial |].
    split; [congruence | cbn; lra].
  - destruct (body_returns s Ha St) as [s' [Hb [St' [G [H0 H1]]]]].
    exists s'. split.
    { cbn [after_cycles]. rewrite outcome_bind, Hs. exact Hb. }
    split; [exact St' |]. split; [intros _; exact G |].
    pose proof (after_cycles_cycle _ _ _ _ _ Hs) as Hc. cbn in Hc.
    rewrite S_INR. destruct n as [| n].
    + rewrite (H0 Hc). cbn. lra.
    + assert (Hnz : cycle s <> O) by lia. specialize (H1 Hnz). lra.
Qed.

Lemma loop_returns k s :
  admissible mode a -> steady s ->
  exists s' r, outcome (loop mode a D_limit k s) = Ok (s', r).
Proof.
  intros Ha. revert s. induction k as [| k IH]; intros s St.
  - exists s, StepsExhausted. reflexivity.
  - destruct (body_returns s Ha St) as [s1 [Hb [St1 _]]].
    cbn [loop]. rewrite outcome_bind, Hb.
    destruct (mp.gt (D s1) D_limit).
    + exists s1, LimitExceeded. reflexivity.
    + apply IH, St1.
Qed.

(** With an admissible [a] the run returns a history. *)
Lemma simulate_returns max_steps :
  admissible mode a ->
  exists h, outcome (simulate mode a D_limit max_steps) = Ok h.
Proof.
  intros Ha.
  destruct (loop_returns max_steps initial Ha steady_initial) as [s [r H]].
  exists (returned s). unfold simulate.
  rewrite outcome_bind, H. reflexivity.
Qed.

End RealRuns.

(** ** Which way the loop is left *)

Section Exits.

Context {num : Type} {AR : mp.Arith num}.
Variable mode : Mode.
Variables a D_limit : num.

(** If no cycle up to the [k]th leaves [D] above the limit, the loop runs
    all [k] cycles. *)
Lemma loop_all_cycles k s sk :
  outcome (after_cycles mode a k s) = Ok sk ->
  (forall i si, 1 <= i <= k -> outcome (after_cycles mode a i s) = Ok si ->
                mp.gt (D si) D_limit = false) ->
  outcome (loop mode a D_limit k s) = Ok (sk, StepsExhausted).
Proof.
  revert s. induction k as [| k IH]; intros s Hk Hall.
  - cbn in Hk. injection Hk as <-. reflexivity.
  - rewrite after_cycles_front in Hk.
    destruct (outcome (body mode a s)) as [s1 | e] eqn:Hb; [| discriminate].
    assert (G : mp.gt (D s1) D_limit = false).
    { apply (Hall 1 s1); [lia |]. rewrite after_cycles_front, Hb. reflexivity. }
    cbn [loop]. rewrite outcome_bind, Hb, G.
    apply IH; [exact Hk |]. intros i si Hi Hsi.
    apply (Hall (S i) si); [lia |]. rewrite after_cycles_front, Hb. exact Hsi.
Qed.

(** If the [j]th cycle is the first to leave [D] above the limit, the
    loop is left by [break] after it. *)
Lemma loop_breaks_at k j s sj :
  1 <= j <= k ->
  outcome (after_cycles mode a j s) = Ok sj ->
  mp.gt (D sj) D_limit = true ->
  (forall i si, 1 <= i < j -> outcome (after_cycles mode a i s) = Ok si ->
                mp.gt (D si) D_limit = false) ->
  outcome (loop mode a D_limit k s) = Ok (sj, LimitExceeded).
Proof.
  revert j s. induction k as [| k IH]; intros j s Hj Hsj G Hall; [lia |].
  destruct j as [| j]; [lia |].
  rewrite after_cycles_front in Hsj.
  destruct (outcome (body mode a s)) as [s1 | e] eqn:Hb; [| discriminate].
  cbn [loop]. rewrite outcome_bind, Hb.
  destruct j as [| j].
  - cbn in Hsj. injection Hsj as <-. rewrite G. reflexivity.
  - assert (G1 : mp.gt (D s1) D_limit = false).
    { apply (Hall 1 s1); [lia |]. rewrite after_cycles_front, Hb. reflexivity. }
    rewrite G1. apply (IH (S j)); [lia | exact Hsj | exact G |].
    intros i si Hi Hsi.
    apply (Hall (S i) si); [lia |]. rewrite after_cycles_front, Hb. exact Hsi.
Qed.

(** A run of at least one step completes at least one cycle. *)
Lemma at_least_one_cycle max_steps h :
  outcome (simulate mode a D_limit max_steps) = Ok h ->
  1 <= max_steps -> 1 <= r_cycles h.
Proof.
  intros H Hm. destruct (simulate_ok _ _ _ _ _ H) as [s [r [Hl ->]]].
  destruct (loop_cycles _ _ _ _ _ _ _ Hl) as [j [_ [Ha [_ Hr]]]].
  pose proof (after_cycles_cycle _ _ _ _ _ Ha) as Hc. cbn in Hc.
  cbn [r_cycles returned]. destruct r; lia.
Qed.

End Exits.

(** ** Properties of the runs over the real numbers *)

Section RealProperties.

Local Open Scope R_scope.

(** The distance after a completed cycle is at least 1; the step length
    it sets is positive when [a] is. *)
Lemma after_cycle_values mode (a : R) n s :
  outcome (after_cycles mode a (S n) initial) = Ok s ->
  1 <= D s /\ (0 < a -> 0 < moves s).
Proof.
  intros H. apply after_cycles_step in H. destruct H as [s0 [H0 Hb]].
  pose proof (after_cycles_cycle _ _ _ _ _ H0) as Hc. cbn in Hc.
  destruct n as [| n].
  - destruct (body_first _ _ _ _ Hc Hb) as [HD [_ [Hm _]]].
    rewrite HD, Hm. split; [cbn; lra |]. intros Ha.
    replace a with (a * 1) by ring. apply quantize_positive; lra.
  - assert (Hnz : cycle s0 <> O) by lia.
    destruct (body_later _ _ _ _ Hnz Hb) as [md [_ [HD [_ Hm]]]].
    assert (G : 1 <= D s) by (rewrite HD; apply hypot_unit_ge_1).
    split; [exact G |]. intros Ha. rewrite Hm.
    apply quantize_positive; assumption.
Qed.

(** C10.  The distance recorded by every completed cycle of a run is at
    least 1, so [1 / D], the argument of [asin] in the update of the
    hunter's heading, lies in [[-1, 1]]. *)
Theorem distance_at_least_one mode (a D_limit : R) max_steps h n :
  outcome (simulate mode a D_limit max_steps) = Ok h ->
  (1 <= n <= r_cycles h)%nat ->
  exists d,
    nth_error (r_D h) n = Some d /\ 1 <= d /\
    Rabs (1 / d) <= 1 /\ ~ RealArith.out_of_domain (AsinCall (1 / d)).
Proof.
  intros H [Hn1 Hn2]. destruct n as [| n]; [lia |].
  destruct (consecutive_cycles _ _ _ _ _ _ H Hn2)
    as [s [s' [_ [_ [Hs' [_ [_ [_ [_ [F1 _]]]]]]]]]].
  destruct (after_cycle_values _ _ _ _ Hs') as [G _].
  pose proof (inverse_in_domain _ G) as Hd.
  exists (D s'). repeat split; try assumption. cbn. lra.
Qed.

(** C4.  Under the original rules with [a > 0], the step length recorded
    by every cycle is [ceil(a * D)] for the distance [D] recorded by the
    same cycle, which is 1 for the first cycle; it is an integer, at
    least 1. *)
Theorem unit_mode_quantization (a D_limit : R) max_steps h n :
  0 < a ->
  outcome (simulate_original a D_limit max_steps) = Ok h ->
  (1 <= n <= r_cycles h)%nat ->
  exists d,
    nth_error (r_D h) n = Some d /\
    (n = 1%nat -> d = 1) /\
    nth_error (r_moves h) n = Some (IZR (Zceil (a * d))) /\
    (1 <= Zceil (a * d))%Z.
Proof.
  intros Ha H [Hn1 Hn2]. destruct n as [| n]; [lia |].
  destruct (consecutive_cycles _ _ _ _ _ _ H Hn2)
    as [s [s' [_ [Hb [Hs' [Hc [_ [_ [_ [F1 [F2 _]]]]]]]]]]].
  destruct (after_cycle_values _ _ _ _ Hs') as [G _].
  exists (D s'). split; [exact F1 |].
  assert (Hm : moves s' = IZR (Zceil (a * D s')) /\ (n = O -> D s' = 1)).
  { destruct n as [| n].
    - destruct (body_first _ _ _ _ Hc Hb) as [HD [_ [Hm _]]].
      split; [| intros _; exact HD]. rewrite Hm, HD.
      change (IZR (Zceil a) = IZR (Zceil (a * 1))). rewrite Rmult_1_r.
      reflexivity.
    - assert (Hnz : cycle s <> O) by lia.
      destruct (body_later _ _ _ _ Hnz Hb) as [md [_ [_ [_ Hm]]]].
      split; [exact Hm | intros C; discriminate]. }
  destruct Hm as [Hm H1].
  split; [intros E; apply H1; lia |].
  split; [rewrite F2, Hm; reflexivity |].
  apply ceil_positive. nra.
Qed.

(** C5.  In a run that returns, the accumulator [res] is 1 when the
    first cycle is completed; every later cycle adds to it the step
    length the cycle travels, which is the one recorded by the cycle
    before; the value returned is the one after the last cycle.  With
    [a > 0] no cycle makes it smaller. *)
Theorem res_accumulates mode (a D_limit : R) max_steps h :
  outcome (simulate mode a D_limit max_steps) = Ok h ->
  (forall n, (1 <= n <= r_cycles h)%nat ->
     exists s s',
       outcome (after_cycles mode a (n - 1) initial) = Ok s /\
       outcome (after_cycles mode a n initial) = Ok s' /\
       (n = 1%nat -> res s' = 1) /\
       ((1 < n)%nat ->
        exists mv, nth_error (r_moves h) (n - 1) = Some mv /\
                   res s' = res s + mv) /\
       (0 < a -> res s <= res s')) /\
  (exists sf, outcome (after_cycles mode a (r_cycles h) initial) = Ok sf /\
              r_res h = res sf).
Proof.
  intros H. split.
  - intros n [Hn1 Hn2]. destruct n as [| n]; [lia |].
    replace (S n - 1)%nat with n by lia.
    destruct (consecutive_cycles _ _ _ _ _ _ H Hn2)
      as [s [s' [Hs [Hb [Hs' [Hc [_ [E2 _]]]]]]]].
    exists s, s'. split; [exact Hs |]. split; [exact Hs' |].
    destruct n as [| n].
    + destruct (body_first _ _ _ _ Hc Hb) as [_ [Hr _]].
      cbn in Hs. injection Hs as <-.
      assert (R1 : res s' = 1) by (rewrite Hr; cbn; lra).
      split; [intros _; exact R1 |]. split; [intros C; lia |].
      intros _. rewrite R1. cbn. lra.
    + assert (Hnz : cycle s <> O) by lia.
      destruct (body_later _ _ _ _ Hnz Hb) as [md [_ [_ [Hr _]]]].
      split; [intros C; discriminate |].
      split; [intros _; exists (moves s); split; [exact E2 | exact Hr] |].
      intros Ha. destruct (after_cycle_values _ _ _ _ Hs) as [_ Hpos].
      specialize (Hpos Ha). rewrite Hr.
      change (res s <= res s + moves s). lra.
  - destruct (simulate_cycles _ _ _ _ _ H) as [s [r [_ [-> [_ [Hs _]]]]]].
    exists s. split; [exact Hs | reflexivity].
Qed.

(** C9.  The continuous engine with [a = 2] and [D_limit = 100], run for
    at least one step, returns; its first cycle records the distance 1,
    the step length 2 and the rabbit heading [asin (1/2)]. *)
Theorem first_cycle_scenario max_steps :
  (1 <= max_steps)%nat ->
  exists h,
    outcome (simulate_modified 2 100 max_steps) = Ok h /\
    nth_error (r_D h) 1 = Some 1 /\
    nth_error (r_moves h) 1 = Some 2 /\
    nth_error (r_z_angle h) 1 = Some (asin (1 / 2)).
Proof.
  intros Hm. unfold simulate_modified.
  assert (Ha : admissible Continuous 2) by (cbn; lra).
  destruct (simulate_returns Continuous 2 100 max_steps Ha) as [h H].
  exists h. split; [exact H |].
  pose proof (at_least_one_cycle _ _ _ _ _ H Hm) as Hc.
  destruct (consecutive_cycles _ _ _ _ _ _ H Hc)
    as [s [s' [Hs [Hb [_ [_ [_ [_ [_ [F1 [F2 F3]]]]]]]]]]].
  cbn in Hs. injection Hs as <-.
  destruct (body_first Continuous 2 initial s' eq_refl Hb)
    as [HD [_ [Hmv [q [al [Hq [Hal Hz]]]]]]].
  rewrite Hmv in Hq. cbn [quantize] in Hq, Hmv.
  rewrite div_ok in Hq by lra. injection Hq as <-.
  change (@mp.one R RealArith.exact) with 1 in *.
  rewrite asin_ok in Hal by (apply inverse_in_domain; lra).
  injection Hal as <-.
  rewrite wrap_angle_real in Hz. injection Hz as Hz.
  rewrite F1, F2, F3, HD, Hmv, <- Hz.
  repeat split. f_equal. cbn [z_angle initial].
  change (mp.add mp.zero (asin (1 / 2))) with (0 + asin (1 / 2)).
  rewrite Rplus_0_l. apply wrapped_id.
  pose proof (asin_bound (1 / 2)). pose proof PI_4. pose proof PI_LD_gt_3.
  lra.
Qed.

End RealProperties.

(** ** Particular runs *)

Section Scenarios.

Local Open Scope R_scope.

(** With an admissible [a] and a limit of at least [max_steps], all
    [max_steps] cycles are run: the distance grows by at most 1 a
    cycle. *)
Lemma truncated_loop mode (a D_limit : R) max_steps :
  admissible mode a -> INR max_steps <= D_limit ->
  exists s,
    outcome (loop mode a D_limit max_steps initial) = Ok (s, StepsExhausted) /\
    cycle s = max_steps.
Proof.
  intros Ha Hl.
  destruct (after_cycles_returns mode a max_steps Ha) as [s [Hs _]].
  exists s. split.
  - apply loop_all_cycles; [exact Hs |]. intros i si Hi Hsi.
    destruct (after_cycles_returns mode a i Ha) as [si' [Hsi' [_ [_ Hb]]]].
    rewrite Hsi in Hsi'. injection Hsi' as <-.
    apply gt_false. assert (INR i <= INR max_steps) by (apply le_INR; lia).
    lra.
  - exact (after_cycles_cycle _ _ _ _ _ Hs).
Qed.

Lemma truncated_run mode (a D_limit : R) max_steps :
  admissible mode a -> INR max_steps <= D_limit ->
  exists h,
    outcome (simulate mode a D_limit max_steps) = Ok h /\
    r_cycles h = max_steps.
Proof.
  intros Ha Hl.
  destruct (truncated_loop mode a D_limit max_steps Ha Hl) as [s [Hs Hc]].
  exists (returned s). split; [| exact Hc].
  unfold simulate. rewrite outcome_bind, Hs. reflexivity.
Qed.

(** With a limit below 1 the loop is left after the first cycle. *)
Lemma first_cycle_break mode (a D_limit : R) max_steps :
  admissible mode a -> D_limit < 1 -> (1 <= max_steps)%nat ->
  exists s,
    outcome (loop mode a D_limit max_steps initial) = Ok (s, LimitExceeded) /\
    cycle s = 1%nat.
Proof.
  intros Ha Hl Hm.
  destruct (after_cycles_returns mode a 1 Ha) as [s [Hs _]].
  pose proof (after_cycles_step _ _ _ _ _ Hs) as [s0 [Hs0 Hb]].
  cbn in Hs0. injection Hs0 as <-.
  destruct (body_first mode a initial s eq_refl Hb) as [HD _].
  exists s. split; [| exact (after_cycles_cycle _ _ _ _ _ Hs)].
  apply (loop_breaks_at mode a D_limit max_steps 1 initial s);
    [lia | exact Hs | | intros; lia].
  rewrite HD. apply gt_true. cbn. exact Hl.
Qed.

(** The continuous engine with [a = 2]: the second cycle leaves the
    distance [hypot (sqrt 3 - 2 + 1) 1], which is above [6/5]. *)
Lemma second_cycle_distance :
  exists s1 s2,
    outcome (after_cycles Continuous 2 1 initial) = Ok s1 /\
    outcome (after_cycles Continuous 2 2 initial) = Ok s2 /\
    D s1 = 1 /\ 6 / 5 < D s2.
Proof.
  assert (Ha : admissible Continuous 2) by (cbn; lra).
  destruct (after_cycles_returns Continuous 2 2 Ha) as [s2 [Hs2 _]].
  pose proof (after_cycles_step _ _ _ _ _ Hs2) as [s1 [Hs1 Hb2]].
  pose proof (after_cycles_step _ _ _ _ _ Hs1) as [s0 [Hs0 Hb1]].
  cbn in Hs0. injection Hs0 as <-.
  destruct (body_first Continuous 2 initial s1 eq_refl Hb1)
    as [HD1 [_ [Hm1 _]]].
  pose proof (after_cycles_cycle _ _ _ _ _ Hs1) as Hc. cbn in Hc.
  assert (Hnz : cycle s1 <> O) by lia.
  destruct (body_later _ _ _ _ Hnz Hb2) as [md [Hmd [HD2 _]]].
  rewrite Hm1 in Hmd, HD2. rewrite HD1 in HD2. cbn [quantize] in Hmd, HD2.
  rewrite sqrt_ok in Hmd by (change (0 <= 2 * 2 - 1); lra).
  injection Hmd as <-.
  exists s1, s2. split; [exact Hs1 |]. split; [exact Hs2 |].
  split; [exact HD1 |]. rewrite HD2. unfold next_D.
  change (6 / 5 < sqrt ((sqrt (2 * 2 - 1) - 2 + 1) * (sqrt (2 * 2 - 1) - 2 + 1)
                        + 1 * 1)).
  assert (H3 : 17 / 10 < sqrt (2 * 2 - 1)) by (apply sqrt_gt_of_square; lra).
  apply sqrt_gt_of_square; [lra |]. nra.
Qed.

(** The loop of the continuous engine with [a = 2] and the limit [6/5]
    is left by [break] after the second cycle. *)
Lemma second_cycle_break :
  exists s,
    outcome (loop Continuous 2 (6 / 5) 5 initial) = Ok (s, LimitExceeded) /\
    cycle s = 2%nat.
Proof.
  destruct second_cycle_distance as [s1 [s2 [Hs1 [Hs2 [HD1 HD2]]]]].
  exists s2. split; [| exact (after_cycles_cycle _ _ _ _ _ Hs2)].
  apply (loop_breaks_at Continuous 2 (6 / 5) 5 2 initial s2);
    [lia | exact Hs2 | apply gt_true, HD2 |].
  intros i si Hi Hsi. assert (i = 1%nat) as -> by lia.
  rewrite Hs1 in Hsi. injection Hsi as <-.
  rewrite HD1. apply gt_false. lra.
Qed.

End Scenarios.

(** ** Runs that leave the real domains *)

(** The operations of [Mpmath] on real operands, computed. *)
Ltac mp_cbn :=
  cbn [mp.zero mp.one mp.two mp.add mp.sub mp.mul mp.hypot mp.cos mp.sin
       mp.ceil Mpmath.arith Mpmath.lift1 Mpmath.lift2].

Section MpmathRuns.

Local Open Scope R_scope.

Lemma quantize_mpf mode (x : R) :
  quantize mode (mpf x) = mpf (quantize mode x).
Proof. destruct mode; reflexivity. Qed.


(** The operations of the library on real numbers. *)
Lemma mp_div_zero (x : R) : mp.div (mpf x) (mpf 0) = Raise ZeroDivisionError.
Proof.
  cbn. destruct (Req_dec_T 0 0) as [_ | C]; [reflexivity | contradiction].
Qed.

Lemma mp_div_ok (x y : R) : y <> 0 -> mp.div (mpf x) (mpf y) = Ok (mpf (x / y)).
Proof.
  intros Hy. cbn.
  destruct (Req_dec_T y 0) as [E | _]; [contradiction | reflexivity].
Qed.

Lemma mp_sqrt_ok (x : R) : 0 <= x -> mp.sqrt (mpf x) = Ok (mpf (sqrt x)).
Proof.
  intros Hx. cbn. destruct (Rlt_dec x 0) as [E | _]; [lra | reflexivity].
Qed.

Lemma mp_asin_ok (x : R) :
  Rabs x <= 1 -> mp.asin (mpf x) = Ok (mpf (asin x)).
Proof.
  intros Hx. cbn.
  destruct (Rlt_dec 1 (Rabs x)) as [E | _]; [lra | reflexivity].
Qed.

Lemma mp_asin_complex (x : R) : 1 < Rabs x -> mp.asin (mpf x) = Ok mpc.
Proof.
  intros Hx. cbn.
  destruct (Rlt_dec 1 (Rabs x)) as [_ | E]; [reflexivity | contradiction].
Qed.

Lemma mp_wrap_real (theta : R) :
  wrap_angle (mpf theta) = Ok (mpf (RealArith.wrapped theta)).
Proof.
  pose proof PI_LD_gt_3 as HP. unfold wrap_angle, PI_LD. cbn.
  destruct (Req_dec_T (2 * RealArith.PI_53) 0) as [E | _]; [lra |].
  reflexivity.
Qed.

Lemma mp_wrap_complex : wrap_angle mpc = Raise RecursionError.
Proof. reflexivity. Qed.

Lemma inverse_in_domain_abs (x : R) : 1 <= Rabs x -> Rabs (1 / x) <= 1.
Proof.
  intros Hx. assert (x <> 0).
  { intros ->. rewrite Rabs_R0 in Hx. lra. }
  unfold Rdiv. rewrite Rmult_1_l, Rabs_inv.
  rewrite <- Rinv_1. apply Rinv_le_contravar; lra.
Qed.

Lemma inverse_out_of_domain (x : R) :
  x <> 0 -> Rabs x < 1 -> 1 < Rabs (1 / x).
Proof.
  intros H0 Hx. assert (0 < Rabs x) by (apply Rabs_pos_lt, H0).
  unfold Rdiv. rewrite Rmult_1_l, Rabs_inv.
  rewrite <- Rinv_1. apply Rinv_lt_contravar; lra.
Qed.

(** The ceiling of a real number is 0 or of magnitude at least 1. *)
Lemma ceil_whole (x : R) : RealArith.ceil x = 0 \/ 1 <= Rabs (RealArith.ceil x).
Proof.
  unfold RealArith.ceil.
  destruct (Z.eq_dec (Zceil x) 0) as [-> | Hz]; [left; reflexivity |].
  right. rewrite <- abs_IZR. apply IZR_le. lia.
Qed.

(** When the first step length has magnitude at least 1, so has every
    later one. *)
Lemma quantize_abs mode (a d : R) :
  1 <= Rabs (quantize mode a) -> 1 <= d -> 1 <= Rabs (quantize mode (a * d)).
Proof.
  destruct mode; cbn [quantize]; intros Ha Hd.
  - rewrite Rabs_mult, (Rabs_pos_eq d) by lra.
    assert (0 <= Rabs a) by apply Rabs_pos. nra.
  - cbn in *. unfold RealArith.ceil in *.
    destruct (Zceil_bound a) as [La Ua].
    destruct (Zceil_bound (a * d)) as [Ld Ud].
    rewrite <- abs_IZR in *. apply le_IZR in Ha. apply IZR_le.
    destruct (Z_le_gt_dec 1 (Zceil a)) as [P | N].
    + assert (0 < a) by (apply IZR_le in P; lra).
      assert (0 < IZR (Zceil (a * d))) by nra.
      apply lt_IZR in H0. lia.
    + assert (Hz : (Zceil a <= -1)%Z) by lia.
      apply IZR_le in Hz. assert (a <= -1) by lra.
      assert (IZR (Zceil (a * d)) < 0) by nra.
      apply lt_IZR in H0. lia.
Qed.

Lemma runs_inv_ok (x : R) :
  x <> 0 -> runs (inv (mpf x)) [] (Ok (mpf (1 / x))).
Proof.
  intros Hx. unfold inv. change (@mp.one mpnum Mpmath.arith) with (mpf 1).
  rewrite mp_div_ok by exact Hx. apply runs_lift.
Qed.

Lemma runs_inv_zero : runs (inv (mpf 0)) [] (Raise ZeroDivisionError).
Proof.
  unfold inv. change (@mp.one mpnum Mpmath.arith) with (mpf 1).
  rewrite mp_div_zero. apply runs_lift.
Qed.

Lemma runs_asin_ok (x : R) :
  Rabs x <= 1 ->
  runs (call_asin (mpf x)) [AsinCall (mpf x)] (Ok (mpf (asin x))).
Proof.
  intros Hx. unfold call_asin. rewrite mp_asin_ok by exact Hx.
  split; reflexivity.
Qed.

Lemma runs_asin_complex (x : R) :
  1 < Rabs x -> runs (call_asin (mpf x)) [AsinCall (mpf x)] (Ok mpc).
Proof.
  intros Hx. unfold call_asin. rewrite mp_asin_complex by exact Hx.
  split; reflexivity.
Qed.

Lemma runs_sqrt_ok (x : R) :
  0 <= x ->
  runs (call_sqrt (mpf x)) [SqrtCall (mpf x)] (Ok (mpf (sqrt x))).
Proof.
  intros Hx. unfold call_sqrt. rewrite mp_sqrt_ok by exact Hx.
  split; reflexivity.
Qed.

Lemma runs_wrap_real (theta : R) :
  runs (@lift mpnum _ (wrap_angle (mpf theta))) []
       (Ok (mpf (RealArith.wrapped theta))).
Proof. rewrite mp_wrap_real. apply runs_lift. Qed.

Lemma runs_wrap_complex :
  runs (@lift mpnum _ (wrap_angle mpc)) [] (Raise RecursionError).
Proof. apply runs_lift. Qed.

(** The first cycle. *)
Lemma mp_first_zero mode (a : R) c s :
  quantize mode a = 0 ->
  runs (first_cycle mode (mpf a) c s) [] (Raise ZeroDivisionError).
Proof.
  intros Hq. unfold first_cycle. rewrite quantize_mpf, Hq.
  apply runs_bind_raise, runs_inv_zero.
Qed.

Lemma mp_first_complex mode (a : R) c s z :
  z_angle s = mpf z ->
  quantize mode a <> 0 -> 1 < Rabs (1 / quantize mode a) ->
  runs (first_cycle mode (mpf a) c s)
       [AsinCall (mpf (1 / quantize mode a))] (Raise RecursionError).
Proof.
  intros Hz Hq Hd. unfold first_cycle. rewrite quantize_mpf, Hz.
  change [AsinCall (mpf (1 / quantize mode a))]
    with ([] ++ [AsinCall (mpf (1 / quantize mode a))] ++ []).
  eapply runs_bind_ok; [apply runs_inv_ok, Hq |].
  eapply runs_bind_ok; [apply runs_asin_complex, Hd |].
  apply runs_bind_raise. mp_cbn. apply runs_wrap_complex.
Qed.

Lemma mp_first_real mode (a : R) c s z :
  z_angle s = mpf z ->
  quantize mode a <> 0 -> Rabs (1 / quantize mode a) <= 1 ->
  exists s',
    runs (first_cycle mode (mpf a) c s)
         [AsinCall (mpf (1 / quantize mode a))] (Ok s') /\
    moves s' = mpf (quantize mode a) /\ D s' = mpf 1 /\
    (exists z', z_angle s' = mpf z') /\ m_angle s' = m_angle s /\
    cycle s' = c.
Proof.
  intros Hz Hq Hd. unfold first_cycle. rewrite quantize_mpf, Hz.
  eexists. split.
  - change [AsinCall (mpf (1 / quantize mode a))]
      with ([] ++ [AsinCall (mpf (1 / quantize mode a))] ++ [] ++ []).
    eapply runs_bind_ok; [apply runs_inv_ok, Hq |].
    eapply runs_bind_ok; [apply runs_asin_ok, Hd |].
    eapply runs_bind_ok; [mp_cbn; apply runs_wrap_real |].
    apply runs_ret.
  - cbn [moves D z_angle m_angle cycle].
    repeat split; try reflexivity. eexists. reflexivity.
Qed.

Lemma abs_square (x : R) : 1 <= Rabs x -> 0 <= x * x - 1 /\ x <> 0.
Proof.
  unfold Rabs. destruct (Rcase_abs x); intros H; split; nra.
Qed.

Lemma in_domain_asin (x : R) :
  Rabs x <= 1 -> ~ Mpmath.out_of_domain (AsinCall (mpf x)).
Proof. cbn. lra. Qed.

Lemma in_domain_sqrt (x : R) :
  0 <= x -> ~ Mpmath.out_of_domain (SqrtCall (mpf x)).
Proof. cbn. lra. Qed.

Lemma mp_later_real mode (a : R) c s :
  real_vars s ->
  (forall d', 1 <= d' -> 1 <= Rabs (quantize mode (a * d'))) ->
  exists l s',
    runs (later_cycle mode (mpf a) c s) l (Ok s') /\
    Forall (fun c => ~ Mpmath.out_of_domain c) l /\
    real_vars s' /\ cycle s' = c.
Proof.
  intros [mv [d [z [m [Hmv [Hd [Hz [Hm Habs]]]]]]]] Hgood.
  destruct (abs_square mv Habs) as [Hrad Hnz].
  pose proof (inverse_in_domain_abs mv Habs) as Hin.
  set (d' := RealArith.hypot (sqrt (mv * mv - 1) - mv + d) 1).
  assert (Hd' : 1 <= d') by apply hypot_unit_ge_1.
  pose proof (inverse_in_domain d' Hd') as Hin'.
  assert (Hmv' : 1 <= Rabs (quantize mode (a * d'))) by apply Hgood, Hd'.
  destruct (abs_square _ Hmv') as [_ Hnz'].
  pose proof (inverse_in_domain_abs _ Hmv') as Hin''.
  unfold later_cycle. rewrite Hmv, Hd, Hz, Hm. mp_cbn.
  do 2 eexists. split; [| split].
  - eapply runs_bind_ok; [apply runs_sqrt_ok, Hrad |]. mp_cbn. fold d'.
    eapply runs_bind_ok; [apply runs_inv_ok, Hnz |].
    eapply runs_bind_ok; [apply runs_asin_ok, Hin |].
    eapply runs_bind_ok; [apply runs_inv_ok; lra |].
    eapply runs_bind_ok; [apply runs_asin_ok, Hin' |]. mp_cbn.
    eapply runs_bind_ok; [apply runs_wrap_real |].
    rewrite quantize_mpf.
    eapply runs_bind_ok; [apply runs_inv_ok, Hnz' |].
    eapply runs_bind_ok; [apply runs_asin_ok, Hin'' |].
    eapply runs_bind_ok; [apply runs_inv_ok; lra |].
    eapply runs_bind_ok; [apply runs_asin_ok, Hin' |]. mp_cbn.
    eapply runs_bind_ok; [apply runs_wrap_real |].
    apply runs_ret.
  - cbn [app].
    repeat (constructor;
            [first [apply in_domain_sqrt; assumption
                   | apply in_domain_asin; assumption] |]).
    constructor.
  - split; [| reflexivity]. cbn [moves D z_angle m_angle].
    do 4 eexists. repeat (split; [reflexivity |]). exact Hmv'.
Qed.

Lemma mp_initial_heading : z_angle (@initial mpnum Mpmath.arith) = mpf 0.
Proof. reflexivity. Qed.

Lemma abs_inverse_ge (x : R) : x <> 0 -> Rabs (1 / x) <= 1 -> 1 <= Rabs x.
Proof.
  intros H0 Hx. destruct (Rle_or_lt 1 (Rabs x)) as [H | H]; [exact H |].
  pose proof (inverse_out_of_domain x H0 H). lra.
Qed.

(** From a state with real variables, after the first cycle, the loop
    returns, and every invocation it makes is inside the domain. *)
Lemma mp_loop_real mode (a : R) D_limit k s :
  real_vars s -> cycle s <> O ->
  (forall d', 1 <= d' -> 1 <= Rabs (quantize mode (a * d'))) ->
  exists l r,
    runs (loop mode (mpf a) D_limit k s) l (Ok r) /\
    Forall (fun c => ~ Mpmath.out_of_domain c) l.
Proof.
  intros Hs Hc Hgood. revert s Hs Hc. induction k as [| k IH]; intros s Hs Hc.
  - exists [], (s, StepsExhausted). split; [apply runs_ret | constructor].
  - cbn [loop]. unfold body.
    destruct (Nat.eqb_spec (S (cycle s)) 1) as [E | _]; [lia |].
    destruct (mp_later_real mode a (S (cycle s)) s Hs Hgood)
      as [l1 [s1 [R1 [F1 [Hs1 Hc1]]]]].
    destruct (mp.gt (D s1) D_limit) eqn:G.
    + exists (l1 ++ []), (s1, LimitExceeded). split.
      * eapply runs_bind_ok; [exact R1 |]. rewrite G. apply runs_ret.
      * rewrite app_nil_r. exact F1.
    + destruct (IH s1 Hs1) as [l2 [r [R2 F2]]]; [lia |].
      exists (l1 ++ l2), r. split.
      * eapply runs_bind_ok; [exact R1 |]. rewrite G. exact R2.
      * apply Forall_app. split; assumption.
Qed.

(** The three ways a run of at least one step goes, by the first step
    length [q]: [q = 0]; [0 < |q| < 1]; [|q| >= 1]. *)
Lemma mp_simulate_zero mode (a : R) D_limit k :
  quantize mode a = 0 ->
  runs (simulate mode (mpf a) D_limit (S k)) [] (Raise ZeroDivisionError).
Proof.
  intros Hq. unfold simulate. apply runs_bind_raise. cbn [loop].
  apply runs_bind_raise. unfold body. cbn [cycle initial Nat.eqb].
  apply mp_first_zero, Hq.
Qed.

Lemma mp_simulate_complex mode (a : R) D_limit k :
  quantize mode a <> 0 -> 1 < Rabs (1 / quantize mode a) ->
  runs (simulate mode (mpf a) D_limit (S k))
       [AsinCall (mpf (1 / quantize mode a))] (Raise RecursionError).
Proof.
  intros Hq Hd. unfold simulate. apply runs_bind_raise. cbn [loop].
  apply runs_bind_raise. unfold body. cbn [cycle initial Nat.eqb].
  apply (mp_first_complex mode a 1%nat initial 0 mp_initial_heading Hq Hd).
Qed.

Lemma mp_simulate_real mode (a : R) D_limit k :
  quantize mode a <> 0 -> Rabs (1 / quantize mode a) <= 1 ->
  exists l h,
    runs (simulate mode (mpf a) D_limit k) l (Ok h) /\
    Forall (fun c => ~ Mpmath.out_of_domain c) l.
Proof.
  intros Hq Hd. unfold simulate. destruct k as [| k].
  - exists ([] ++ []), (returned initial). split; [| constructor].
    eapply runs_bind_ok; [apply runs_ret | apply runs_ret].
  - pose proof (abs_inverse_ge _ Hq Hd) as Habs.
    destruct (mp_first_real mode a 1%nat initial 0 mp_initial_heading Hq Hd)
      as [s1 [R1 [Hmv [HD [[z' Hz] [Hm Hc]]]]]].
    assert (Hs1 : real_vars s1).
    { exists (quantize mode a), 1, z', 0.
      repeat (split; [assumption |]). exact Habs. }
    assert (Hnz : cycle s1 <> O) by (rewrite Hc; discriminate).
    assert (Hrest : exists l r,
              runs (if mp.gt (D s1) D_limit then ret (s1, LimitExceeded)
                    else loop mode (mpf a) D_limit k s1) l (Ok r) /\
              Forall (fun c => ~ Mpmath.out_of_domain c) l).
    { destruct (mp.gt (D s1) D_limit).
      - exists [], (s1, LimitExceeded). split; [apply runs_ret | constructor].
      - apply (mp_loop_real mode a D_limit k s1 Hs1 Hnz).
        intros d' Hd'. apply quantize_abs; assumption. }
    destruct Hrest as [l [r [R2 F2]]].
    exists (([AsinCall (mpf (1 / quantize mode a))] ++ l) ++ []),
      (returned (fst r)).
    split.
    + eapply runs_bind_ok; [| apply runs_ret]. cbn [loop].
      eapply runs_bind_ok; [| exact R2]. unfold body.
      cbn [cycle initial Nat.eqb]. exact R1.
    + rewrite app_nil_r. apply Forall_app. split; [| exact F2].
      constructor; [apply in_domain_asin, Hd | constructor].
Qed.


(** X21.  How a run of at least one step ends, read with the complex
    numbers of [mpmath], by the first step length [q] ([a], or its
    ceiling under the original rules).  With [q = 0] it raises
    [ZeroDivisionError] before any invocation.  With [0 < |q| < 1],
    which only the modified engine allows, it raises [RecursionError]
    after its first invocation of [asin].  With [|q| >= 1], a negative
    [a] included, it returns a history, and every invocation of [asin]
    and [sqrt] was inside the real domain. *)
Theorem mpmath_run_outcomes mode (a D_limit : R) k :
  let q := quantize mode a in
  let run := simulate mode (mpf a) (mpf D_limit) (S k) in
  (q = 0 -> runs run [] (Raise ZeroDivisionError)) /\
  (q <> 0 -> Rabs q < 1 ->
   mode = Continuous /\
   runs run [AsinCall (mpf (1 / a))] (Raise RecursionError)) /\
  (1 <= Rabs q ->
   exists l h,
     runs run l (Ok h) /\ Forall (fun c => ~ Mpmath.out_of_domain c) l).
Proof.
  intros q run. subst q run. split; [| split].
  - apply mp_simulate_zero.
  - intros Hq Hd.
    assert (Hmode : mode = Continuous).
    { destruct mode; [reflexivity |]. exfalso. cbn [quantize] in Hq, Hd.
      destruct (ceil_whole a) as [Z | G]; [exact (Hq Z) |]. cbn in Hd. lra. }
    subst mode. split; [reflexivity |]. cbn [quantize] in *.
    apply (mp_simulate_complex Continuous a (mpf D_limit) k Hq).
    apply inverse_out_of_domain; assumption.
  - intros Hq. destruct (abs_square _ Hq) as [_ Hnz].
    apply (mp_simulate_real mode a (mpf D_limit) (S k) Hnz).
    apply inverse_in_domain_abs, Hq.
Qed.

End MpmathRuns.

(** ** The properties at particular runs *)

Section Instances.

Local Open Scope R_scope.

Lemma three_steps_below_limit : INR 3 <= 100.
Proof. cbn. lra. Qed.

Lemma two_admissible mode : admissible mode 2.
Proof. destruct mode; cbn; lra. Qed.

(** The continuous engine, [a = 2], [D_limit = 100], three steps. *)
Lemma history_lengths_witness :
  exists h,
    outcome (simulate_modified 2 100 3) = Ok h /\
    length (r_D h) = (r_cycles h + 1)%nat /\
    length (r_z_angle h) = (r_cycles h + 1)%nat /\
    length (r_m_angle h) = (r_cycles h + 1)%nat /\
    length (r_moves h) = (r_cycles h + 1)%nat.
Proof.
  destruct (simulate_returns Continuous 2 100 3 (two_admissible _)) as [h H].
  exists h. split; [exact H |].
  exact (history_lengths Continuous 2 100 3 h H).
Defined.

(** The same run, second cycle. *)
Lemma distance_recurrence_witness :
  exists h,
    outcome (simulate_modified 2 100 3) = Ok h /\
    (1 < 2 <= r_cycles h)%nat /\
    exists mv d_prev m_dist,
      nth_error (r_moves h) (2 - 1) = Some mv /\
      nth_error (r_D h) (2 - 1) = Some d_prev /\
      mp.sqrt (mp.sub (mp.mul mv mv) mp.one) = Ok m_dist /\
      nth_error (r_D h) 2 =
        Some (mp.hypot (mp.add (mp.sub m_dist mv) d_prev) mp.one).
Proof.
  destruct (truncated_run Continuous 2 100 3 (two_admissible _)
              three_steps_below_limit) as [h [H Hc]].
  assert (Hn : (1 < 2 <= r_cycles h)%nat) by (rewrite Hc; lia).
  exists h. split; [exact H |]. split; [exact Hn |].
  exact (distance_recurrence Continuous 2 100 3 h 2 H Hn).
Defined.

(** The continuous engine, [a = 2], [D_limit = 6/5], five steps: the
    loop is left after the second cycle. *)
Lemma stops_at_first_exceeding_witness :
  exists s,
    outcome (loop Continuous 2 (6 / 5) 5 initial) = Ok (s, LimitExceeded) /\
    outcome (simulate_modified 2 (6 / 5) 5) = Ok (returned s) /\
    (1 <= r_cycles (returned s))%nat /\
    length (r_D (returned s)) = S (r_cycles (returned s)) /\
    nth_error (r_D (returned s)) (r_cycles (returned s)) = Some (D s) /\
    mp.gt (D s) (6 / 5) = true /\
    (forall i d, (1 <= i < r_cycles (returned s))%nat ->
                 nth_error (r_D (returned s)) i = Some d ->
                 mp.gt d (6 / 5) = false) /\
    (mp.gt mp.zero (6 / 5) = false ->
     forall i d, (i < r_cycles (returned s))%nat ->
                 nth_error (r_D (returned s)) i = Some d ->
                 mp.gt d (6 / 5) = false).
Proof.
  destruct second_cycle_break as [s [H _]].
  exists s. split; [exact H |].
  exact (stops_at_first_exceeding Continuous 2 (6 / 5) 5 s LimitExceeded H
           (or_introl eq_refl)).
Defined.

(** The continuous engine, [a = 2], [D_limit = 100], three steps: all
    three cycles are run. *)
Lemma exit_shown_only_by_last_distance_witness :
  exists s,
    outcome (loop Continuous 2 100 3 initial) = Ok (s, StepsExhausted) /\
    outcome (simulate_modified 2 100 3) = Ok (returned s) /\
    nth_error (r_D (returned s)) (r_cycles (returned s)) = Some (D s) /\
    (StepsExhausted = LimitExceeded <-> mp.gt (D s) 100 = true) /\
    (StepsExhausted = StepsExhausted -> r_cycles (returned s) = 3%nat).
Proof.
  destruct (truncated_loop Continuous 2 100 3 (two_admissible _)
              three_steps_below_limit) as [s [H _]].
  exists s. split; [exact H |].
  exact (exit_shown_only_by_last_distance Continuous 2 100 3 s StepsExhausted
           H (le_S _ _ (le_S _ _ (le_n 1)))).
Defined.

(** The engine of the original rules, [a = 2], [D_limit = 100], three
    steps, second cycle. *)
Lemma unit_mode_quantization_witness :
  exists h,
    0 < 2 /\
    outcome (simulate_original 2 100 3) = Ok h /\
    (1 <= 2 <= r_cycles h)%nat /\
    exists d,
      nth_error (r_D h) 2 = Some d /\
      (2%nat = 1%nat -> d = 1) /\
      nth_error (r_moves h) 2 = Some (IZR (Zceil (2 * d))) /\
      (1 <= Zceil (2 * d))%Z.
Proof.
  destruct (truncated_run UnitCeiling 2 100 3 (two_admissible _)
              three_steps_below_limit) as [h [H Hc]].
  assert (Hn : (1 <= 2 <= r_cycles h)%nat) by (rewrite Hc; lia).
  exists h. split; [lra |]. split; [exact H |]. split; [exact Hn |].
  exact (unit_mode_quantization 2 100 3 h 2 ltac:(lra) H Hn).
Defined.

(** The same run: all three cycles are completed.  The accumulator is
    1 after the first cycle; the second cycle adds the step length 2
    recorded by the first, which gives 3; the third adds the step
    length recorded by the second, which is at least 2. *)
Lemma res_accumulates_witness :
  exists h s1 s2 s3 mv,
    outcome (simulate_modified 2 100 3) = Ok h /\
    r_cycles h = 3%nat /\
    outcome (after_cycles Continuous 2 1 initial) = Ok s1 /\
    outcome (after_cycles Continuous 2 2 initial) = Ok s2 /\
    outcome (after_cycles Continuous 2 3 initial) = Ok s3 /\
    res s1 = 1 /\
    nth_error (r_moves h) 1 = Some 2 /\ res s2 = 3 /\
    nth_error (r_moves h) 2 = Some mv /\ 2 <= mv /\ res s3 = 3 + mv /\
    res s1 <= res s2 <= res s3 /\
    r_res h = res s3.
Proof.
  destruct (truncated_run Continuous 2 100 3 (two_admissible _)
              three_steps_below_limit) as [h [H Hc]].
  destruct (res_accumulates Continuous 2 100 3 h H) as [Hall [sf [Hsf Hres]]].
  assert (N1 : (1 <= 1 <= r_cycles h)%nat) by (rewrite Hc; lia).
  assert (N2 : (1 <= 2 <= r_cycles h)%nat) by (rewrite Hc; lia).
  assert (N3 : (1 <= 3 <= r_cycles h)%nat) by (rewrite Hc; lia).
  assert (L12 : (1 < 2)%nat) by lia.
  assert (L13 : (1 < 3)%nat) by lia.
  assert (Hpos : 0 < 2) by lra.
  destruct (Hall 1%nat N1) as [s0 [s1 [_ [H1 [R1 _]]]]].
  destruct (Hall 2%nat N2) as [s1' [s2 [H1' [H2 [_ [A2 M2]]]]]].
  destruct (Hall 3%nat N3) as [s2' [s3 [H2' [H3 [_ [A3 M3]]]]]].
  cbn [Nat.sub] in H1', H2', A2, A3.
  rewrite H1 in H1'. injection H1' as <-.
  rewrite H2 in H2'. injection H2' as <-.
  destruct (A2 L12) as [mv2 [E2 R2]].
  destruct (A3 L13) as [mv3 [E3 R3]].
  rewrite Hc, H3 in Hsf. injection Hsf as <-.
  destruct (consecutive_cycles Continuous 2 100 3 h 0 H (proj2 N1))
    as [t0 [t1 [T0 [Tb [T1 [_ [_ [_ [_ [_ [F1 _]]]]]]]]]]].
  cbn in T0. injection T0 as <-.
  rewrite H1 in T1. injection T1 as <-.
  destruct (body_first Continuous 2 initial s1 eq_refl Tb) as [_ [_ [Hm1 _]]].
  cbn [quantize] in Hm1. rewrite F1, Hm1 in E2. injection E2 as <-.
  rewrite Hm1 in F1.
  destruct (consecutive_cycles Continuous 2 100 3 h 1 H (proj2 N2))
    as [u1 [u2 [U1 [Ub [U2 [Uc [_ [_ [_ [_ [G2 _]]]]]]]]]]].
  rewrite H2 in U2. injection U2 as <-.
  assert (Unz : cycle u1 <> O) by (rewrite Uc; discriminate).
  destruct (body_later Continuous 2 u1 s2 Unz Ub) as [md [_ [_ [_ Hm2]]]].
  destruct (after_cycle_values Continuous 2 1 s2 H2) as [HD2 _].
  cbn [quantize] in Hm2. rewrite G2 in E3. injection E3 as <-.
  assert (R1' : res s1 = 1) by (apply R1; reflexivity).
  assert (R2' : res s2 = 3) by (rewrite R2, R1'; lra).
  assert (Hmv : 2 <= moves s2).
  { rewrite Hm2. change (2 <= 2 * D s2). lra. }
  exists h, s1, s2, s3, (moves s2).
  split; [exact H |]. split; [exact Hc |]. split; [exact H1 |].
  split; [exact H2 |]. split; [exact H3 |]. split; [exact R1' |].
  split; [exact F1 |]. split; [exact R2' |]. split; [exact G2 |].
  split; [exact Hmv |]. split; [rewrite R3, R2'; reflexivity |].
  split; [split; [exact (M2 Hpos) | exact (M3 Hpos)] | exact Hres].
Defined.

Lemma distance_at_least_one_witness :
  exists h,
    outcome (simulate_modified 2 100 3) = Ok h /\
    (1 <= 3 <= r_cycles h)%nat /\
    exists d,
      nth_error (r_D h) 3 = Some d /\ 1 <= d /\
      Rabs (1 / d) <= 1 /\ ~ RealArith.out_of_domain (AsinCall (1 / d)).
Proof.
  destruct (truncated_run Continuous 2 100 3 (two_admissible _)
              three_steps_below_limit) as [h [H Hc]].
  assert (Hn : (1 <= 3 <= r_cycles h)%nat) by (rewrite Hc; lia).
  exists h. split; [exact H |]. split; [exact Hn |].
  exact (distance_at_least_one Continuous 2 100 3 h 3 H Hn).
Defined.

Lemma first_cycle_scenario_witness :
  exists h,
    outcome (simulate_modified 2 100 1) = Ok h /\
    nth_error (r_D h) 1 = Some 1 /\
    nth_error (r_moves h) 1 = Some 2 /\
    nth_error (r_z_angle h) 1 = Some (asin (1 / 2)).
Proof. exact (first_cycle_scenario 1 (le_n 1)). Defined.


(** C8, as the claim has it, fails.  The continuous engine with [a = 2]
    and one step returns the same record with [D_limit = 1/2], where the
    loop is left by [break], and with [D_limit = 100], where the step
    count is used up: nothing computed from the returned record alone
    tells the two ways of leaving the loop apart. *)
Lemma same_record_for_both_exits :
  (exists s,
     outcome (loop Continuous 2 (1 / 2) 1 initial) = Ok (s, LimitExceeded) /\
     outcome (loop Continuous 2 100 1 initial) = Ok (s, StepsExhausted) /\
     outcome (simulate_modified 2 (1 / 2) 1) = Ok (returned s) /\
     outcome (simulate_modified 2 100 1) = Ok (returned s)) /\
  ~ (exists status : RunHistory R -> exit,
       forall D_limit max_steps s r,
         outcome (loop Continuous 2 D_limit max_steps initial) = Ok (s, r) ->
         status (returned s) = r).
Proof.
  assert (E : exists s,
     outcome (loop Continuous 2 (1 / 2) 1 initial) = Ok (s, LimitExceeded) /\
     outcome (loop Continuous 2 100 1 initial) = Ok (s, StepsExhausted)).
  { destruct (first_cycle_break Continuous 2 (1 / 2) 1 (two_admissible _)
                ltac:(lra) (le_n 1)) as [s [Hs _]].
    exists s. split; [exact Hs |].
    cbn [loop] in *. apply bind_ok_inv in Hs. destruct Hs as [s1 [Hb Hs]].
    rewrite outcome_bind, Hb.
    assert (HD : D s1 = 1).
    { destruct (body_first Continuous 2 initial s1 eq_refl Hb) as [HD _].
      exact HD. }
    rewrite HD in *. rewrite gt_true in Hs by lra.
    rewrite outcome_ret in Hs. injection Hs as <-.
    rewrite gt_false by lra. reflexivity. }
  destruct E as [s [H1 H2]]. split.
  - exists s. split; [exact H1 |]. split; [exact H2 |].
    unfold simulate_modified, simulate.
    rewrite !outcome_bind, H1, H2. split; reflexivity.
  - intros [status Hst].
    pose proof (Hst _ _ _ _ H1) as E1. pose proof (Hst _ _ _ _ H2) as E2.
    rewrite E1 in E2. discriminate.
Qed.

End Instances.

(** ** The whole state after a cycle *)

Section CycleState.

Context {num : Type} {AR : mp.Arith num}.
Variable mode : Mode.
Variable a : num.

(** Everything a later cycle leaves in the variables. *)
Lemma later_cycle_state c s s' :
  outcome (later_cycle mode a c s) = Ok s' ->
  exists m_dist alfa_old aD a1,
    mp.sqrt (mp.sub (mp.mul (moves s) (moves s)) mp.one) = Ok m_dist /\
    (exists q, mp.div mp.one (moves s) = Ok q /\ mp.asin q = Ok alfa_old) /\
    (exists q, mp.div mp.one (D s') = Ok q /\ mp.asin q = Ok aD) /\
    (exists q, mp.div mp.one (moves s') = Ok q /\ mp.asin q = Ok a1) /\
    D s' = next_D m_dist (moves s) (D s) /\
    moves s' = quantize mode (mp.mul a (D s')) /\
    wrap_angle (mp.add (m_angle s) aD) = Ok (m_angle s') /\
    wrap_angle (mp.sub (mp.add (mp.add (z_angle s) a1) aD) alfa_old) =
      Ok (z_angle s') /\
    z_x s' = z_x s ++
      [mp.add (back (z_x s)) (mp.mul (moves s) (mp.cos (z_angle s)))] /\
    z_y s' = z_y s ++
      [mp.add (back (z_y s)) (mp.mul (moves s) (mp.sin (z_angle s)))] /\
    m_x s' = m_x s ++
      [mp.add (back (m_x s)) (mp.mul (moves s) (mp.cos (m_angle s)))] /\
    m_y s' = m_y s ++
      [mp.add (back (m_y s)) (mp.mul (moves s) (mp.sin (m_angle s)))].
Proof.
  unfold later_cycle. intros H.
  apply bind_ok_inv in H. destruct H as [md [Hmd H]].
  apply bind_ok_inv in H. destruct H as [q [Hq H]].
  apply bind_ok_inv in H. destruct H as [ao [Hao H]].
  apply bind_ok_inv in H. destruct H as [qD [HqD H]].
  apply bind_ok_inv in H. destruct H as [aD [HaD H]].
  apply bind_ok_inv in H. destruct H as [m' [Hm' H]].
  apply bind_ok_inv in H. destruct H as [q' [Hq' H]].
  apply bind_ok_inv in H. destruct H as [a1 [Ha1 H]].
  apply bind_ok_inv in H. destruct H as [qD' [HqD' H]].
  apply bind_ok_inv in H. destruct H as [a2 [Ha2 H]].
  apply bind_ok_inv in H. destruct H as [z' [Hz' H]].
  rewrite outcome_ret in H. injection H as <-.
  unfold inv in HqD, HqD'. rewrite outcome_lift in HqD, HqD'.
  rewrite HqD in HqD'. injection HqD' as <-.
  unfold call_asin, outcome in HaD, Ha2. cbn [snd] in HaD, Ha2.
  rewrite HaD in Ha2. injection Ha2 as <-.
  rewrite outcome_lift in Hm', Hz'.
  exists md, ao, aD, a1.
  cbn [D moves m_angle z_angle z_x z_y m_x m_y].
  split; [exact Hmd |].
  split; [exists q; split; [exact Hq | exact Hao] |].
  split; [exists qD; split; [exact HqD | exact HaD] |].
  split; [exists q'; split; [exact Hq' | exact Ha1] |].
  split; [reflexivity |]. split; [reflexivity |].
  split; [exact Hm' |]. split; [exact Hz' |].
  repeat split; reflexivity.
Qed.

(** Every completed cycle appends one entry to each position list. *)
Lemma body_places s s' :
  outcome (body mode a s) = Ok s' ->
  z_x s' = z_x s ++ [back (z_x s')] /\
  z_y s' = z_y s ++ [back (z_y s')] /\
  m_x s' = m_x s ++ [back (m_x s')] /\
  m_y s' = m_y s ++ [back (m_y s')].
Proof.
  unfold body. destruct (Nat.eqb (S (cycle s)) 1) eqn:E; intros H.
  - apply first_cycle_ok in H. destruct H as [q [al [z' [_ [_ [_ ->]]]]]].
    cbn [z_x z_y m_x m_y]. unfold back. rewrite !last_last.
    repeat split; reflexivity.
  - apply later_cycle_state in H.
    destruct H as [md [ao [aD [a1 [_ [_ [_ [_ [_ [_ [_ [_ H]]]]]]]]]]]].
    destruct H as [-> [-> [-> ->]]].
    unfold back. rewrite !last_last. repeat split; reflexivity.
Qed.

Lemma placed_initial : placed (@initial num AR).
Proof. repeat split. Qed.

Lemma placed_body s s' :
  placed s -> outcome (body mode a s) = Ok s' -> placed s'.
Proof.
  intros [P1 [P2 [P3 P4]]] H.
  destruct (body_appends _ _ _ _ H) as [Hc _].
  destruct (body_places _ _ H) as [E1 [E2 [E3 E4]]].
  unfold placed. rewrite Hc, E1, E2, E3, E4, !length_app, P1, P2, P3, P4.
  cbn. repeat split; lia.
Qed.

Lemma placed_after n s s' :
  placed s -> outcome (after_cycles mode a n s) = Ok s' -> placed s'.
Proof.
  intros P. revert s'. induction n as [| n IH]; intros s' H.
  - cbn in H. injection H as <-. exact P.
  - apply after_cycles_step in H. destruct H as [s1 [H1 H2]].
    exact (placed_body _ _ (IH s1 H1) H2).
Qed.

Lemma nth_error_kept {A} (l t : list A) i x :
  nth_error l i = Some x -> nth_error (l ++ t) i = Some x.
Proof.
  intros H. rewrite nth_error_app1; [exact H |].
  apply nth_error_Some. rewrite H. discriminate.
Qed.

(** The entry of index [i] of each position list is the position when
    [i] cycles were completed. *)
Lemma position_entry n i sn si :
  outcome (after_cycles mode a n initial) = Ok sn ->
  outcome (after_cycles mode a i initial) = Ok si ->
  i <= n ->
  nth_error (z_x sn) i = Some (back (z_x si)) /\
  nth_error (z_y sn) i = Some (back (z_y si)) /\
  nth_error (m_x sn) i = Some (back (m_x si)) /\
  nth_error (m_y sn) i = Some (back (m_y si)).
Proof.
  revert sn. induction n as [| n IH]; intros sn Hn Hi Hle.
  - assert (i = O) as -> by lia. rewrite Hi in Hn. injection Hn as <-.
    cbn in Hi. injection Hi as <-. cbn. repeat split; reflexivity.
  - destruct (Nat.eq_dec i (S n)) as [-> | Hne].
    + rewrite Hi in Hn. injection Hn as <-.
      apply after_cycles_step in Hi. destruct Hi as [s1 [H1 H2]].
      destruct (placed_after _ _ _ placed_initial H1) as [P1 [P2 [P3 P4]]].
      pose proof (after_cycles_cycle _ _ _ _ _ H1) as Hc. cbn in Hc.
      destruct (body_places _ _ H2) as [E1 [E2 [E3 E4]]].
      rewrite Hc in *.
      rewrite E1 at 1. rewrite E2 at 1. rewrite E3 at 1. rewrite E4 at 1.
      repeat split; apply nth_error_snoc; assumption.
    + apply after_cycles_step in Hn. destruct Hn as [s1 [H1 H2]].
      assert (Hle' : i <= n) by lia.
      destruct (IH s1 H1 Hi Hle') as [I1 [I2 [I3 I4]]].
      destruct (body_places _ _ H2) as [E1 [E2 [E3 E4]]].
      rewrite E1, E2, E3, E4.
      repeat split; apply nth_error_kept; assumption.
Qed.

End CycleState.

(** ** More properties of every run, whatever the arithmetic *)

Section MoreProperties.

Context {num : Type} {AR : mp.Arith num}.
Variable mode : Mode.
Variables a D_limit : num.

(** X1.  A run that returns gives four position lists [z_x], [z_y],
    [m_x] and [m_y] of the length of the logs, the number of cycles plus
    one; none is empty. *)
Theorem position_lengths max_steps h :
  outcome (simulate mode a D_limit max_steps) = Ok h ->
  length (r_z_x h) = r_cycles h + 1 /\
  length (r_z_y h) = r_cycles h + 1 /\
  length (r_m_x h) = r_cycles h + 1 /\
  length (r_m_y h) = r_cycles h + 1 /\
  length (r_z_x h) = length (r_D h).
Proof.
  intros H.
  destruct (simulate_cycles _ _ _ _ _ H) as [s [r [_ [-> [_ [Hs L]]]]]].
  destruct (placed_after _ _ _ _ _ placed_initial Hs) as [P1 [P2 [P3 P4]]].
  cbn [r_z_x r_z_y r_m_x r_m_y r_D r_cycles returned] in *.
  rewrite P1, P2, P3, P4, (logged_D L). repeat split; lia.
Qed.

(** Two runs that differ in [max_steps] only: the shorter one ends
    after no more cycles than the longer one, and in the same state when
    it ends before its own [max_steps]. *)
Lemma loop_prefix n m s1 r1 s2 r2 :
  n <= m ->
  outcome (loop mode a D_limit n initial) = Ok (s1, r1) ->
  outcome (loop mode a D_limit m initial) = Ok (s2, r2) ->
  cycle s1 <= cycle s2 /\
  outcome (after_cycles mode a (cycle s1) initial) = Ok s1 /\
  outcome (after_cycles mode a (cycle s2) initial) = Ok s2 /\
  (cycle s1 < n -> s2 = s1).
Proof.
  intros Hnm H1 H2.
  destruct (loop_cycles _ _ _ _ _ _ _ H1) as [j1 [Hj1 [Ha1 [Hb1 Hr1]]]].
  destruct (loop_cycles _ _ _ _ _ _ _ H2) as [j2 [Hj2 [Ha2 [Hb2 Hr2]]]].
  pose proof (after_cycles_cycle _ _ _ _ _ Ha1) as C1. cbn in C1.
  pose proof (after_cycles_cycle _ _ _ _ _ Ha2) as C2. cbn in C2.
  rewrite C1, C2.
  assert (Hle : j1 <= j2).
  { destruct (Nat.le_gt_cases j1 j2) as [Hle | Hgt]; [exact Hle |].
    exfalso.
    assert (G2 : mp.gt (D s2) D_limit = true).
    { destruct r2; [apply Hr2 |]. destruct Hr2 as [E _]. lia. }
    assert (Hj2' : 1 <= j2).
    { destruct r2; [apply Hr2 |]. destruct Hr2 as [E _]. lia. }
    rewrite (Hb1 j2 s2 (conj Hj2' Hgt) Ha2) in G2. discriminate. }
  split; [exact Hle |]. split; [exact Ha1 |]. split; [exact Ha2 |].
  intros Hlt.
  assert (r1 = LimitExceeded) as ->.
  { destruct r1; [reflexivity |]. destruct Hr1 as [E _]. lia. }
  destruct Hr1 as [Hj1' G1].
  destruct (Nat.eq_dec j1 j2) as [E | Hne].
  - rewrite <- E, Ha1 in Ha2. injection Ha2 as <-. reflexivity.
  - assert (Hlt' : 1 <= j1 < j2) by lia.
    rewrite (Hb2 j1 s1 Hlt' Ha1) in G1. discriminate.
Qed.

(** The entries of the shorter of two such runs are entries of the
    longer one. *)
Lemma entries_extend n m s1 r1 s2 r2 :
  n <= m ->
  outcome (loop mode a D_limit n initial) = Ok (s1, r1) ->
  outcome (loop mode a D_limit m initial) = Ok (s2, r2) ->
  forall i x,
    (nth_error (D_list s1) i = Some x -> nth_error (D_list s2) i = Some x) /\
    (nth_error (moves_list s1) i = Some x ->
     nth_error (moves_list s2) i = Some x) /\
    (nth_error (z_angle_list s1) i = Some x ->
     nth_error (z_angle_list s2) i = Some x) /\
    (nth_error (m_angle_list s1) i = Some x ->
     nth_error (m_angle_list s2) i = Some x) /\
    (nth_error (z_x s1) i = Some x -> nth_error (z_x s2) i = Some x) /\
    (nth_error (z_y s1) i = Some x -> nth_error (z_y s2) i = Some x) /\
    (nth_error (m_x s1) i = Some x -> nth_error (m_x s2) i = Some x) /\
    (nth_error (m_y s1) i = Some x -> nth_error (m_y s2) i = Some x).
Proof.
  intros Hnm L1 L2.
  destruct (loop_prefix _ _ _ _ _ _ Hnm L1 L2) as [Hle [A1 [A2 _]]].
  pose proof (logged_after _ _ _ _ _ logged_initial A1) as Lg.
  destruct (placed_after _ _ _ _ _ placed_initial A1) as [P1 [P2 [P3 P4]]].
  intros i x.
  assert (step : forall (l1 l2 : list num) (v : state num -> num),
            length l1 = S (cycle s1) ->
            (forall si, outcome (after_cycles mode a i initial) = Ok si ->
                        i <= cycle s1 ->
                        nth_error l1 i = Some (v si) /\
                        nth_error l2 i = Some (v si)) ->
            nth_error l1 i = Some x -> nth_error l2 i = Some x).
  { intros l1 l2 v Hlen Hv Hx.
    assert (Hi : i <= cycle s1).
    { assert (i < length l1)
        by (apply nth_error_Some; rewrite Hx; discriminate).
      lia. }
    destruct (after_cycles_earlier _ _ _ _ _ i A1 Hi) as [si Hsi].
    destruct (Hv si Hsi Hi) as [E1 E2].
    rewrite E1 in Hx. injection Hx as <-. exact E2. }
  assert (Hi2 : forall j, j <= cycle s1 -> j <= cycle s2) by (intros; lia).
  repeat split.
  - apply (step _ _ (@D num) (logged_D Lg)). intros si Hsi Hi.
    split; [exact (proj1 (history_entry _ _ _ _ _ _ A1 Hsi Hi))
           | exact (proj1 (history_entry _ _ _ _ _ _ A2 Hsi (Hi2 _ Hi)))].
  - apply (step _ _ (@moves num) (logged_moves Lg)). intros si Hsi Hi.
    split;
      [exact (proj1 (proj2 (history_entry _ _ _ _ _ _ A1 Hsi Hi)))
      | exact (proj1 (proj2 (history_entry _ _ _ _ _ _ A2 Hsi (Hi2 _ Hi))))].
  - apply (step _ _ (@z_angle num) (logged_z Lg)). intros si Hsi Hi.
    split;
      [exact (proj1 (proj2 (proj2 (history_entry _ _ _ _ _ _ A1 Hsi Hi))))
      | exact (proj1 (proj2 (proj2
                 (history_entry _ _ _ _ _ _ A2 Hsi (Hi2 _ Hi)))))].
  - apply (step _ _ (@m_angle num) (logged_m Lg)). intros si Hsi Hi.
    split;
      [exact (proj2 (proj2 (proj2 (history_entry _ _ _ _ _ _ A1 Hsi Hi))))
      | exact (proj2 (proj2 (proj2
                 (history_entry _ _ _ _ _ _ A2 Hsi (Hi2 _ Hi)))))].
  - apply (step _ _ (fun s => back (z_x s)) P1). intros si Hsi Hi.
    split; [exact (proj1 (position_entry _ _ _ _ _ _ A1 Hsi Hi))
           | exact (proj1 (position_entry _ _ _ _ _ _ A2 Hsi (Hi2 _ Hi)))].
  - apply (step _ _ (fun s => back (z_y s)) P2). intros si Hsi Hi.
    split;
      [exact (proj1 (proj2 (position_entry _ _ _ _ _ _ A1 Hsi Hi)))
      | exact (proj1 (proj2 (position_entry _ _ _ _ _ _ A2 Hsi (Hi2 _ Hi))))].
  - apply (step _ _ (fun s => back (m_x s)) P3). intros si Hsi Hi.
    split;
      [exact (proj1 (proj2 (proj2 (position_entry _ _ _ _ _ _ A1 Hsi Hi))))
      | exact (proj1 (proj2 (proj2
                 (position_entry _ _ _ _ _ _ A2 Hsi (Hi2 _ Hi)))))].
  - apply (step _ _ (fun s => back (m_y s)) P4). intros si Hsi Hi.
    split;
      [exact (proj2 (proj2 (proj2 (position_entry _ _ _ _ _ _ A1 Hsi Hi))))
      | exact (proj2 (proj2 (proj2
                 (position_entry _ _ _ _ _ _ A2 Hsi (Hi2 _ Hi)))))].
Qed.

(** X2.  [max_steps] only cuts a run short.  Of two returning runs with
    the same [a] and [D_limit], the one with the larger [max_steps]
    records at every index the values the other one records there, in
    all four logs and all four position lists; and when the shorter one
    ended before its [max_steps], both return the same record. *)
Theorem longer_run_extends n m h1 h2 :
  n <= m ->
  outcome (simulate mode a D_limit n) = Ok h1 ->
  outcome (simulate mode a D_limit m) = Ok h2 ->
  r_cycles h1 <= r_cycles h2 /\
  (forall i x,
     (nth_error (r_D h1) i = Some x -> nth_error (r_D h2) i = Some x) /\
     (nth_error (r_moves h1) i = Some x ->
      nth_error (r_moves h2) i = Some x) /\
     (nth_error (r_z_angle h1) i = Some x ->
      nth_error (r_z_angle h2) i = Some x) /\
     (nth_error (r_m_angle h1) i = Some x ->
      nth_error (r_m_angle h2) i = Some x) /\
     (nth_error (r_z_x h1) i = Some x -> nth_error (r_z_x h2) i = Some x) /\
     (nth_error (r_z_y h1) i = Some x -> nth_error (r_z_y h2) i = Some x) /\
     (nth_error (r_m_x h1) i = Some x -> nth_error (r_m_x h2) i = Some x) /\
     (nth_error (r_m_y h1) i = Some x -> nth_error (r_m_y h2) i = Some x)) /\
  (r_cycles h1 < n -> h2 = h1).
Proof.
  intros Hnm H1 H2.
  destruct (simulate_ok _ _ _ _ _ H1) as [s1 [r1 [L1 ->]]].
  destruct (simulate_ok _ _ _ _ _ H2) as [s2 [r2 [L2 ->]]].
  destruct (loop_prefix _ _ _ _ _ _ Hnm L1 L2) as [Hle [_ [_ Hsame]]].
  cbn [r_cycles r_D r_moves r_z_angle r_m_angle r_z_x r_z_y r_m_x r_m_y
       returned].
  split; [exact Hle |]. split.
  - exact (entries_extend _ _ _ _ _ _ Hnm L1 L2).
  - intros Hlt. rewrite (Hsame Hlt). reflexivity.
Qed.

End MoreProperties.

(** ** More about the operations over the real numbers *)

Section RealInversion.

Local Open Scope R_scope.

Lemma div_inv (x y q : R) : mp.div x y = Ok q -> y <> 0 /\ q = x / y.
Proof.
  cbn. unfold RealArith.div.
  destruct (Req_dec_T y 0) as [E | E]; [discriminate |].
  intros H. injection H as <-. split; [exact E | reflexivity].
Qed.

Lemma asin_inv (x v : R) : mp.asin x = Ok v -> Rabs x <= 1 /\ v = asin x.
Proof.
  cbn. unfold RealArith.asin.
  destruct (Rlt_dec 1 (Rabs x)) as [E | E]; [discriminate |].
  intros H. injection H as <-. split; [lra | reflexivity].
Qed.

Lemma sqrt_inv (x v : R) : mp.sqrt x = Ok v -> 0 <= x /\ v = sqrt x.
Proof.
  cbn. unfold RealArith.sqrt.
  destruct (Rlt_dec x 0) as [E | E]; [discriminate |].
  intros H. injection H as <-. split; [lra | reflexivity].
Qed.

Lemma inv_asin_inv (x v : R) :
  (exists q, mp.div mp.one x = Ok q /\ mp.asin q = Ok v) ->
  x <> 0 /\ Rabs (1 / x) <= 1 /\ v = asin (1 / x).
Proof.
  intros [q [Hq Hv]]. apply div_inv in Hq. destruct Hq as [Hx ->].
  apply asin_inv in Hv. destruct Hv as [Hd ->].
  split; [exact Hx |]. split; [exact Hd | reflexivity].
Qed.

Lemma abs_le_interval (x : R) : Rabs x <= 1 -> -1 <= x <= 1.
Proof. unfold Rabs. destruct (Rcase_abs x); lra. Qed.

(** For [x >= 1], the angle [asin (1 / x)] has sine [1 / x], and [x]
    times its cosine is the leg [sqrt (x^2 - 1)]. *)
Lemma step_sine (x : R) : 1 <= x -> x * sin (asin (1 / x)) = 1.
Proof.
  intros Hx. pose proof (inverse_in_domain x Hx) as Hd.
  rewrite sin_asin.
  - field. lra.
  - exact (abs_le_interval _ Hd).
Qed.

Lemma step_cosine (x : R) :
  1 <= x -> x * cos (asin (1 / x)) = sqrt (x * x - 1).
Proof.
  intros Hx. pose proof (inverse_in_domain x Hx) as Hd.
  apply abs_le_interval in Hd.
  rewrite cos_asin by exact Hd.
  rewrite <- (sqrt_square x) at 1 by lra.
  rewrite <- sqrt_mult_alt by nra.
  f_equal. unfold Rsqr. field. lra.
Qed.

End RealInversion.

(** ** The state after a cycle, over the real numbers *)

Section RealCycle.

Local Open Scope R_scope.

Variable mode : Mode.
Variable a : R.

Lemma back_snoc (l : list R) (x : R) : back (l ++ [x]) = x.
Proof. unfold back. apply last_last. Qed.

(** The first cycle: the rabbit goes to [(1, 0)], the hunter stays at
    the origin. *)
Lemma first_real s' :
  outcome (body mode a initial) = Ok s' ->
  D s' = 1 /\ moves s' = quantize mode a /\ m_angle s' = 0 /\
  z_angle s' = RealArith.wrapped (asin (1 / moves s')) /\
  back (z_x s') = 1 /\ back (z_y s') = 0 /\
  back (m_x s') = 0 /\ back (m_y s') = 0.
Proof.
  unfold body. cbn [cycle initial Nat.eqb]. intros H.
  apply first_cycle_ok in H. destruct H as [q [al [z' [Hq [Hal [Hz ->]]]]]].
  destruct (inv_asin_inv _ _ (ex_intro _ q (conj Hq Hal))) as [_ [_ ->]].
  rewrite wrap_angle_real in Hz. injection Hz as <-.
  cbn [D moves m_angle z_angle z_x z_y m_x m_y initial].
  rewrite !back_snoc.
  change (@mp.zero R RealArith.exact) with 0.
  change (@mp.one R RealArith.exact) with 1.
  change (@mp.add R RealArith.exact) with Rplus.
  change (@mp.mul R RealArith.exact) with Rmult.
  change (@mp.cos R RealArith.exact) with cos.
  change (@mp.sin R RealArith.exact) with sin.
  change (back [0]) with 0.
  rewrite cos_0, sin_0, Rplus_0_l.
  repeat split; try reflexivity; ring.
Qed.

(** A later cycle. *)
Lemma later_real s s' :
  cycle s <> O ->
  outcome (body mode a s) = Ok s' ->
  0 <= moves s * moves s - 1 /\ moves s <> 0 /\ Rabs (1 / moves s) <= 1 /\
  D s' = mp.hypot (sqrt (moves s * moves s - 1) - moves s + D s) 1 /\
  moves s' = quantize mode (a * D s') /\
  m_angle s' = RealArith.wrapped (m_angle s + asin (1 / D s')) /\
  z_angle s' =
    RealArith.wrapped (z_angle s + asin (1 / moves s') + asin (1 / D s')
                       - asin (1 / moves s)) /\
  back (z_x s') = back (z_x s) + moves s * cos (z_angle s) /\
  back (z_y s') = back (z_y s) + moves s * sin (z_angle s) /\
  back (m_x s') = back (m_x s) + moves s * cos (m_angle s) /\
  back (m_y s') = back (m_y s) + moves s * sin (m_angle s).
Proof.
  unfold body. intros Hc H.
  destruct (Nat.eqb_spec (S (cycle s)) 1) as [E | E]; [lia |].
  apply later_cycle_state in H.
  destruct H as [md [ao [aD [a1 [Hmd [Hao [HaD [Ha1 H]]]]]]]].
  destruct H as [HD [Hmv [Hma [Hza [E1 [E2 [E3 E4]]]]]]].
  apply sqrt_inv in Hmd. destruct Hmd as [Hrad ->].
  apply inv_asin_inv in Hao. destruct Hao as [Hm0 [Hmd ->]].
  apply inv_asin_inv in HaD. destruct HaD as [_ [_ ->]].
  apply inv_asin_inv in Ha1. destruct Ha1 as [_ [_ ->]].
  rewrite wrap_angle_real in Hma, Hza.
  injection Hma as Hma. injection Hza as Hza.
  symmetry in Hma, Hza.
  rewrite E1, E2, E3, E4, !back_snoc.
  split; [exact Hrad |]. split; [exact Hm0 |]. split; [exact Hmd |].
  split; [exact HD |]. split; [exact Hmv |]. split; [exact Hma |].
  split; [exact Hza |]. repeat split; reflexivity.
Qed.

(** With an admissible [a], what holds of the state after [n] cycles. *)
Lemma steady_after n s :
  admissible mode a ->
  outcome (after_cycles mode a n initial) = Ok s ->
  steady s /\ (n <> O -> 1 <= D s) /\ D s <= INR n.
Proof.
  intros Ha H.
  destruct (after_cycles_returns mode a n Ha) as [s0 [H0 P]].
  rewrite H in H0. injection H0 as <-. exact P.
Qed.

(** The step length a completed cycle leaves was in the domain of
    [asin (1 / moves)]. *)
Lemma next_step_in_domain s s' :
  outcome (body mode a s) = Ok s' ->
  moves s' <> 0 /\ Rabs (1 / moves s') <= 1.
Proof.
  unfold body. destruct (Nat.eqb (S (cycle s)) 1); intros H.
  - apply first_cycle_ok in H.
    destruct H as [q [al [z' [Hq [Hal [_ ->]]]]]]. cbn [moves].
    destruct (inv_asin_inv _ _ (ex_intro _ q (conj Hq Hal))) as [H0 [H1 _]].
    split; assumption.
  - apply later_cycle_state in H.
    destruct H as [md [ao [aD [a1 [_ [_ [_ [Ha1 _]]]]]]]].
    apply inv_asin_inv in Ha1. destruct Ha1 as [H0 [H1 _]].
    split; assumption.
Qed.

(** [asin] of a number of [[0, 1]] lies in [[0, pi/2]]. *)
Lemma asin_nonneg (x : R) : 0 <= x <= 1 -> 0 <= asin x <= PI / 2.
Proof.
  intros Hx. destruct (asin_bound x) as [Hl Hu]. split; [| exact Hu].
  destruct (Rle_or_lt 0 (asin x)) as [H | H]; [exact H |]. exfalso.
  assert (S : sin (asin x) < 0).
  { apply sin_lt_0_var; [| exact H]. pose proof PI_RGT_0. lra. }
  rewrite sin_asin in S by lra. lra.
Qed.

Lemma step_angle (x : R) : 1 <= x -> 0 <= asin (1 / x) <= PI / 2.
Proof.
  intros Hx. apply asin_nonneg.
  pose proof (inverse_in_domain x Hx) as Hd. apply abs_le_interval in Hd.
  assert (0 < / x) by (apply Rinv_0_lt_compat; lra).
  unfold Rdiv in *. rewrite Rmult_1_l in *. lra.
Qed.

(** After the first cycle the rabbit's heading leads the hunter's by
    [asin (1 / moves)], up to whole turns of [2 * PI_LD]; every later
    cycle keeps it so. *)
Lemma leads_first s' :
  outcome (body mode a initial) = Ok s' -> leads s'.
Proof.
  intros H. destruct (first_real _ H) as [_ [_ [Hm [Hz _]]]].
  destruct (wrapped_turns (asin (1 / moves s'))) as [k Hk].
  exists k. rewrite Hz, Hm, Hk. ring.
Qed.

Lemma leads_later s s' :
  cycle s <> O -> leads s -> outcome (body mode a s) = Ok s' -> leads s'.
Proof.
  intros Hc [k0 L] H.
  destruct (later_real _ _ Hc H) as [_ [_ [_ [_ [_ [Hma [Hza _]]]]]]].
  destruct (wrapped_turns (m_angle s + asin (1 / D s'))) as [k2 K2].
  destruct (wrapped_turns (z_angle s + asin (1 / moves s')
                           + asin (1 / D s') - asin (1 / moves s)))
    as [k1 K1].
  exists (k0 + k1 - k2)%Z.
  rewrite Hza, K1, Hma, K2, L, minus_IZR, plus_IZR. ring.
Qed.

Lemma leads_after n s :
  outcome (after_cycles mode a (S n) initial) = Ok s -> leads s.
Proof.
  revert s. induction n as [| n IH]; intros s H.
  - apply after_cycles_step in H. destruct H as [s0 [H0 Hb]].
    cbn in H0. injection H0 as <-. exact (leads_first _ Hb).
  - apply after_cycles_step in H. destruct H as [s1 [H1 Hb]].
    pose proof (after_cycles_cycle _ _ _ _ _ H1) as Hc. cbn in Hc.
    assert (Hnz : cycle s1 <> O) by lia.
    exact (leads_later _ _ Hnz (IH s1 H1) Hb).
Qed.

(** The first cycle leaves the hunter's heading pointing at the
    rabbit. *)
Lemma aligned_first s' :
  outcome (body mode a initial) = Ok s' ->
  aligned s' /\ m_angle s' = 0.
Proof.
  intros H. destruct (first_real _ H)
    as [HD [_ [Hm [Hz [Z1 [Z2 [M1 M2]]]]]]].
  split; [| exact Hm]. unfold aligned.
  rewrite HD, Hm, Hz, Z1, Z2, M1, M2, cos_0, sin_0.
  split; [ring |]. split; [ring |].
  rewrite Rplus_0_l. apply wrapped_id.
  pose proof (asin_bound (1 / moves s')). pose proof PI_4.
  pose proof PI_LD_gt_3. lra.
Qed.

(** A later cycle keeps it so, when the step lengths and the distance
    are at least 1 and the headings it leaves have not been taken a
    turn back. *)
Lemma aligned_later s s' :
  cycle s <> O -> 1 <= moves s -> 1 <= D s -> 1 <= moves s' ->
  - RealArith.PI_53 <= m_angle s < RealArith.PI_53 ->
  aligned s ->
  outcome (body mode a s) = Ok s' ->
  m_angle s <= m_angle s' <= z_angle s' ->
  aligned s'.
Proof.
  intros Hc Hm Hd Hm' Hr [Ax [Ay Az]] H [R1 R2].
  destruct (later_real _ _ Hc H)
    as [Hrad [_ [_ [HD [_ [Hma [Hza [Z1 [Z2 [M1 M2]]]]]]]]]].
  pose proof (leg_minus_step _ Hm) as Hleg.
  set (xd := sqrt (moves s * moves s - 1) - moves s + D s) in *.
  assert (Hxd : 0 <= xd) by (unfold xd; lra).
  assert (HD1 : 1 <= D s') by (rewrite HD; apply hypot_unit_ge_1).
  assert (Hsq : D s' * D s' = xd * xd + 1).
  { rewrite HD. cbn. unfold RealArith.hypot. rewrite sqrt_sqrt; nra. }
  pose proof (step_sine _ Hm) as Ms. pose proof (step_cosine _ Hm) as Mc.
  pose proof (step_sine _ HD1) as Ds. pose proof (step_cosine _ HD1) as Dc.
  rewrite Hsq in Dc. replace (xd * xd + 1 - 1) with (xd * xd) in Dc by ring.
  rewrite (sqrt_square _ Hxd) in Dc.
  assert (Em : m_angle s' = m_angle s + asin (1 / D s')).
  { rewrite Hma. apply wrapped_ahead;
      [exact Hr | exact (step_angle _ HD1) | rewrite <- Hma; exact R1]. }
  assert (Ez : z_angle s' = m_angle s' + asin (1 / moves s')).
  { replace (z_angle s + asin (1 / moves s') + asin (1 / D s')
             - asin (1 / moves s))
      with (m_angle s' + asin (1 / moves s')) in Hza
      by (rewrite Az, Em; ring).
    rewrite Hza. apply wrapped_ahead;
      [rewrite Hma; apply wrapped_bound | exact (step_angle _ Hm')
      | rewrite <- Hza; exact R2]. }
  unfold aligned.
  split; [| split; [| exact Ez]].
  - rewrite Z1, M1, Em, Az.
    set (th := m_angle s). set (al := asin (1 / moves s)) in *.
    set (be := asin (1 / D s')) in *. set (m := moves s) in *.
    rewrite !cos_plus.
    replace (D s' * (cos th * cos be - sin th * sin be))
      with (cos th * (D s' * cos be) - sin th * (D s' * sin be)) by ring.
    rewrite Dc, Ds.
    replace (back (z_x s) + m * (cos th * cos al - sin th * sin al)
             - (back (m_x s) + m * cos th))
      with (back (z_x s) - back (m_x s) + cos th * (m * cos al)
            - sin th * (m * sin al) - m * cos th) by ring.
    rewrite Ax, Mc, Ms. unfold xd, th, m. ring.
  - rewrite Z2, M2, Em, Az.
    set (th := m_angle s). set (al := asin (1 / moves s)) in *.
    set (be := asin (1 / D s')) in *. set (m := moves s) in *.
    rewrite !sin_plus.
    replace (D s' * (sin th * cos be + cos th * sin be))
      with (sin th * (D s' * cos be) + cos th * (D s' * sin be)) by ring.
    rewrite Dc, Ds.
    replace (back (z_y s) + m * (sin th * cos al + cos th * sin al)
             - (back (m_y s) + m * sin th))
      with (back (z_y s) - back (m_y s) + sin th * (m * cos al)
            + cos th * (m * sin al) - m * sin th) by ring.
    rewrite Ay, Mc, Ms. unfold xd, th, m. ring.
Qed.

(** With an admissible [a], as long as the headings rise from each
    cycle to the next, the state after a cycle is aligned. *)
Lemma aligned_after n s :
  admissible mode a ->
  outcome (after_cycles mode a (S n) initial) = Ok s ->
  (forall i si si',
     (1 <= i <= n)%nat ->
     outcome (after_cycles mode a i initial) = Ok si ->
     outcome (after_cycles mode a (S i) initial) = Ok si' ->
     m_angle si <= m_angle si' <= z_angle si') ->
  aligned s /\ - RealArith.PI_53 <= m_angle s < RealArith.PI_53.
Proof.
  intros Ha. revert s. induction n as [| n IH]; intros s H Hrise.
  - apply after_cycles_step in H. destruct H as [s0 [H0 Hb]].
    cbn in H0. injection H0 as <-.
    destruct (aligned_first _ Hb) as [Al Hm]. split; [exact Al |].
    rewrite Hm. pose proof PI_LD_gt_3. lra.
  - pose proof H as Hs.
    apply after_cycles_step in H. destruct H as [s1 [H1 Hb]].
    destruct (steady_after _ _ Ha H1) as [[Hm _] [HD _]].
    destruct (steady_after _ _ Ha Hs) as [[Hm' _] _].
    pose proof (after_cycles_cycle _ _ _ _ _ H1) as Hc. cbn in Hc.
    assert (Hnz : cycle s1 <> O) by lia.
    assert (HD1 : 1 <= D s1) by (apply HD; discriminate).
    destruct (IH s1 H1) as [Al Hr].
    { intros i si si' Hi. apply Hrise. lia. }
    assert (Hn : (1 <= S n <= S n)%nat) by lia.
    pose proof (Hrise (S n) s1 s Hn H1 Hs) as R.
    split; [exact (aligned_later _ _ Hnz Hm HD1 Hm' Hr Al Hb R) |].
    destruct (later_real _ _ Hnz Hb) as [_ [_ [_ [_ [_ [Hma _]]]]]].
    rewrite Hma. apply wrapped_bound.
Qed.

End RealCycle.

(** ** The entries of a returned record *)

Section Entries.

Context {num : Type} {AR : mp.Arith num}.
Variable mode : Mode.
Variables a D_limit : num.

(** The entries of index [n] are the values after [n] cycles. *)
Lemma run_entries max_steps h n :
  outcome (simulate mode a D_limit max_steps) = Ok h ->
  n <= r_cycles h ->
  exists s,
    outcome (after_cycles mode a n initial) = Ok s /\
    nth_error (r_D h) n = Some (D s) /\
    nth_error (r_moves h) n = Some (moves s) /\
    nth_error (r_z_angle h) n = Some (z_angle s) /\
    nth_error (r_m_angle h) n = Some (m_angle s) /\
    nth_error (r_z_x h) n = Some (back (z_x s)) /\
    nth_error (r_z_y h) n = Some (back (z_y s)) /\
    nth_error (r_m_x h) n = Some (back (m_x s)) /\
    nth_error (r_m_y h) n = Some (back (m_y s)).
Proof.
  intros H Hn.
  destruct (simulate_cycles _ _ _ _ _ H) as [sf [r [_ [-> [_ [Hf _]]]]]].
  cbn [r_cycles returned] in Hn, Hf.
  destruct (after_cycles_earlier _ _ _ _ _ n Hf Hn) as [s Hs].
  destruct (history_entry _ _ _ _ _ _ Hf Hs Hn) as [E1 [E2 [E3 E4]]].
  destruct (position_entry _ _ _ _ _ _ Hf Hs Hn) as [P1 [P2 [P3 P4]]].
  exists s. cbn [r_D r_moves r_z_angle r_m_angle r_z_x r_z_y r_m_x r_m_y
                 returned].
  repeat split; assumption.
Qed.

(** An index with an entry in a log is the number of a completed cycle,
    or 0. *)
Lemma entry_index max_steps h i :
  outcome (simulate mode a D_limit max_steps) = Ok h ->
  (exists x, nth_error (r_D h) i = Some x \/
             nth_error (r_moves h) i = Some x \/
             nth_error (r_z_angle h) i = Some x \/
             nth_error (r_m_angle h) i = Some x) ->
  i <= r_cycles h.
Proof.
  intros H [x Hx].
  destruct (simulate_cycles _ _ _ _ _ H) as [s [r [_ [-> [_ [_ L]]]]]].
  cbn [r_D r_moves r_z_angle r_m_angle r_cycles returned] in *.
  assert (Hlt : forall l : list num,
            length l = S (cycle s) -> nth_error l i = Some x ->
            i <= cycle s).
  { intros l Hl Hi.
    assert (i < length l) by (apply nth_error_Some; rewrite Hi; discriminate).
    lia. }
  destruct Hx as [Hx | [Hx | [Hx | Hx]]].
  - exact (Hlt _ (logged_D L) Hx).
  - exact (Hlt _ (logged_moves L) Hx).
  - exact (Hlt _ (logged_z L) Hx).
  - exact (Hlt _ (logged_m L) Hx).
Qed.

End Entries.

(** ** More properties of the runs over the real numbers *)

Section RealGeometry.

Local Open Scope R_scope.

(** X3.  The recorded distance is the distance between the recorded
    positions, as long as the headings have not been taken a turn
    back.  With an admissible [a] ([a >= 1] in the modified model,
    [a > 0] under the original rules), when the recorded headings of
    the cycles [1] to [n] rise, the rabbit lies after cycle [n] at the
    recorded distance [D] from the hunter, in the direction of the
    hunter's recorded heading.  (A turn back is by [2 PI_LD], which is
    not a full turn.) *)
Theorem distance_between_positions_until_wrap
    mode (a D_limit : R) max_steps h n :
  admissible mode a ->
  outcome (simulate mode a D_limit max_steps) = Ok h ->
  (1 <= n <= r_cycles h)%nat ->
  headings_rise h n ->
  exists zx zy mx my d th,
    nth_error (r_z_x h) n = Some zx /\ nth_error (r_z_y h) n = Some zy /\
    nth_error (r_m_x h) n = Some mx /\ nth_error (r_m_y h) n = Some my /\
    nth_error (r_D h) n = Some d /\ nth_error (r_m_angle h) n = Some th /\
    zx - mx = d * cos th /\ zy - my = d * sin th /\
    sqrt ((zx - mx) * (zx - mx) + (zy - my) * (zy - my)) = d.
Proof.
  intros Ha H [Hn1 Hn2] Hrise. destruct n as [| n]; [lia |].
  destruct (run_entries _ _ _ _ _ _ H Hn2)
    as [s [Hs [E1 [_ [_ [E4 [P1 [P2 [P3 P4]]]]]]]]].
  assert (Al : aligned s).
  { apply (aligned_after mode a n s Ha Hs).
    intros i si si' Hi Hsi Hsi'.
    assert (Hi1 : (i <= r_cycles h)%nat) by lia.
    assert (Hi2 : (S i <= r_cycles h)%nat) by lia.
    destruct (run_entries _ _ _ _ _ _ H Hi1) as [t [Ht [_ [_ [_ [T4 _]]]]]].
    destruct (run_entries _ _ _ _ _ _ H Hi2)
      as [t' [Ht' [_ [_ [T3' [T4' _]]]]]].
    rewrite Hsi in Ht. injection Ht as <-.
    rewrite Hsi' in Ht'. injection Ht' as <-.
    apply (Hrise (S i)); [lia | | exact T4' | exact T3'].
    replace (S i - 1)%nat with i by lia. exact T4. }
  destruct Al as [Ax [Ay _]].
  destruct (steady_after _ _ _ _ Ha Hs) as [_ [HD _]].
  assert (HD1 : 1 <= D s) by (apply HD; discriminate).
  exists (back (z_x s)), (back (z_y s)), (back (m_x s)), (back (m_y s)),
    (D s), (m_angle s).
  repeat (split; [assumption |]).
  rewrite Ax, Ay.
  replace (D s * cos (m_angle s) * (D s * cos (m_angle s))
           + D s * sin (m_angle s) * (D s * sin (m_angle s)))
    with (D s * D s * ((sin (m_angle s))² + (cos (m_angle s))²))
    by (unfold Rsqr; ring).
  rewrite sin2_cos2, Rmult_1_r. apply sqrt_square. lra.
Qed.

(** X4.  After every completed cycle of a run that returns, the
    rabbit's recorded heading is the hunter's recorded heading plus
    [asin (1 / moves)], for the step length [moves] recorded by the
    same cycle, up to a whole number of turns of [2 PI_LD], the turn
    that [wrap_angle] takes off. *)
Theorem rabbit_heading_leads_by_turns mode (a D_limit : R) max_steps h n :
  outcome (simulate mode a D_limit max_steps) = Ok h ->
  (1 <= n <= r_cycles h)%nat ->
  exists z th mv (k : Z),
    nth_error (r_z_angle h) n = Some z /\
    nth_error (r_m_angle h) n = Some th /\
    nth_error (r_moves h) n = Some mv /\
    Rabs (1 / mv) <= 1 /\
    z = th + asin (1 / mv) + 2 * PI_LD * IZR k.
Proof.
  intros H [Hn1 Hn2]. destruct n as [| n]; [lia |].
  destruct (run_entries _ _ _ _ _ _ H Hn2)
    as [s [Hs [_ [E2 [E3 [E4 _]]]]]].
  destruct (leads_after _ _ _ _ Hs) as [k L].
  destruct (after_cycles_step _ _ _ _ _ Hs) as [s0 [_ Hb]].
  destruct (next_step_in_domain _ _ _ _ Hb) as [_ Hd].
  exists (z_angle s), (m_angle s), (moves s), k.
  repeat (split; [assumption |]). exact L.
Qed.

(** X5.  In every completed cycle the rabbit travels a segment of the
    length of the step with which the cycle starts (the one recorded
    before it); so does the hunter in every cycle but the first, where
    it stays where it is. *)
Theorem segments_have_step_length mode (a D_limit : R) max_steps h n :
  outcome (simulate mode a D_limit max_steps) = Ok h ->
  (S n <= r_cycles h)%nat ->
  exists zx zy mx my zx' zy' mx' my' mv,
    nth_error (r_z_x h) n = Some zx /\ nth_error (r_z_y h) n = Some zy /\
    nth_error (r_m_x h) n = Some mx /\ nth_error (r_m_y h) n = Some my /\
    nth_error (r_z_x h) (S n) = Some zx' /\
    nth_error (r_z_y h) (S n) = Some zy' /\
    nth_error (r_m_x h) (S n) = Some mx' /\
    nth_error (r_m_y h) (S n) = Some my' /\
    nth_error (r_moves h) n = Some mv /\
    (zx' - zx) * (zx' - zx) + (zy' - zy) * (zy' - zy) = mv * mv /\
    (n <> O ->
     (mx' - mx) * (mx' - mx) + (my' - my) * (my' - my) = mv * mv) /\
    (n = O -> mx' = mx /\ my' = my).
Proof.
  intros H Hn.
  assert (Hn' : (n <= r_cycles h)%nat) by lia.
  destruct (run_entries _ _ _ _ _ _ H Hn')
    as [s [Hs [_ [E2 [_ [_ [P1 [P2 [P3 P4]]]]]]]]].
  destruct (run_entries _ _ _ _ _ _ H Hn)
    as [s' [Hs' [_ [_ [_ [_ [Q1 [Q2 [Q3 Q4]]]]]]]]].
  destruct (after_cycles_step _ _ _ _ _ Hs') as [s0 [Hs0 Hb]].
  rewrite Hs in Hs0. injection Hs0 as <-.
  pose proof (after_cycles_cycle _ _ _ _ _ Hs) as Hc. cbn in Hc.
  exists (back (z_x s)), (back (z_y s)), (back (m_x s)), (back (m_y s)),
    (back (z_x s')), (back (z_y s')), (back (m_x s')), (back (m_y s')),
    (moves s).
  repeat (split; [assumption |]).
  assert (trig : forall m t : R,
            m * cos t * (m * cos t) + m * sin t * (m * sin t) = m * m).
  { intros m t.
    replace (m * cos t * (m * cos t) + m * sin t * (m * sin t))
      with (m * m * ((sin t)² + (cos t)²)) by (unfold Rsqr; ring).
    rewrite sin2_cos2. ring. }
  destruct n as [| n].
  - cbn in Hs. injection Hs as <-.
    destruct (first_real _ _ _ Hb) as [_ [_ [_ [_ [Z1 [Z2 [M1 M2]]]]]]].
    rewrite Z1, Z2, M1, M2. cbn [moves z_x z_y m_x m_y initial].
    unfold back. cbn [last].
    change (@mp.zero R RealArith.exact) with 0.
    change (@mp.one R RealArith.exact) with 1.
    split; [ring |]. split; [intros C; contradiction |].
    intros _. split; reflexivity.
  - assert (Hnz : cycle s <> O) by lia.
    destruct (later_real _ _ _ _ Hnz Hb)
      as [_ [_ [_ [_ [_ [_ [_ [Z1 [Z2 [M1 M2]]]]]]]]]].
    rewrite Z1, Z2, M1, M2.
    split.
    { replace (back (z_x s) + moves s * cos (z_angle s) - back (z_x s))
        with (moves s * cos (z_angle s)) by ring.
      replace (back (z_y s) + moves s * sin (z_angle s) - back (z_y s))
        with (moves s * sin (z_angle s)) by ring.
      apply trig. }
    split; [| intros C; discriminate]. intros _.
    replace (back (m_x s) + moves s * cos (m_angle s) - back (m_x s))
      with (moves s * cos (m_angle s)) by ring.
    replace (back (m_y s) + moves s * sin (m_angle s) - back (m_y s))
      with (moves s * sin (m_angle s)) by ring.
    apply trig.
Qed.

(** X6.  Every recorded heading, of the rabbit and of the hunter, the
    seed entries included, lies in [[-pi, pi)]. *)
Theorem headings_in_range mode (a D_limit : R) max_steps h i x :
  outcome (simulate mode a D_limit max_steps) = Ok h ->
  nth_error (r_z_angle h) i = Some x \/ nth_error (r_m_angle h) i = Some x ->
  - PI <= x < PI.
Proof.
  intros H Hx. pose proof PI_RGT_0 as Hpi.
  assert (Hi : (i <= r_cycles h)%nat).
  { apply (entry_index _ _ _ _ _ _ H). exists x. tauto. }
  destruct (run_entries _ _ _ _ _ _ H Hi) as [s [Hs [_ [_ [E3 [E4 _]]]]]].
  assert (R : (- PI <= z_angle s < PI) /\ (- PI <= m_angle s < PI)).
  { destruct i as [| i].
    - cbn in Hs. injection Hs as <-. cbn. lra.
    - destruct (after_cycles_step _ _ _ _ _ Hs) as [s0 [Hs0 Hb]].
      pose proof (after_cycles_cycle _ _ _ _ _ Hs0) as Hc. cbn in Hc.
      destruct i as [| i].
      + cbn in Hs0. injection Hs0 as <-.
        destruct (first_real _ _ _ Hb) as [_ [_ [Hm [Hz _]]]].
        rewrite Hm, Hz. split; [apply wrapped_in_pi | lra].
      + assert (Hnz : cycle s0 <> O) by lia.
        destruct (later_real _ _ _ _ Hnz Hb)
          as [_ [_ [_ [_ [_ [Hm [Hz _]]]]]]].
        rewrite Hm, Hz. split; apply wrapped_in_pi. }
  destruct Hx as [Hx | Hx].
  - rewrite E3 in Hx. injection Hx as <-. apply R.
  - rewrite E4 in Hx. injection Hx as <-. apply R.
Qed.

End RealGeometry.

(** ** Step lengths, growth and edge cases over the real numbers *)

Section RealEdges.

Local Open Scope R_scope.

(** X7.  In the modified model the step length recorded by every cycle
    is [a * D] for the distance [D] recorded by the same cycle. *)
Theorem continuous_step_length (a D_limit : R) max_steps h n :
  outcome (simulate_modified a D_limit max_steps) = Ok h ->
  (1 <= n <= r_cycles h)%nat ->
  exists d,
    nth_error (r_D h) n = Some d /\
    nth_error (r_moves h) n = Some (a * d).
Proof.
  intros H [Hn1 Hn2]. destruct n as [| n]; [lia |].
  destruct (consecutive_cycles _ _ _ _ _ _ H Hn2)
    as [s [s' [_ [Hb [_ [Hc [_ [_ [_ [F1 [F2 _]]]]]]]]]]].
  exists (D s'). split; [exact F1 |]. rewrite F2. f_equal.
  destruct n as [| n].
  - destruct (body_first _ _ _ _ Hc Hb) as [HD [_ [Hm _]]].
    rewrite Hm, HD. cbn. ring.
  - assert (Hnz : cycle s <> O) by lia.
    destruct (body_later _ _ _ _ Hnz Hb) as [md [_ [_ [_ Hm]]]].
    exact Hm.
Qed.

(** X8.  With an admissible [a] the distance grows by at most 1 a
    cycle: the entry of index [n] is at most [n], and a run that was
    ended by the limit before [max_steps] has completed more than
    [D_limit] cycles. *)
Theorem distance_grows_slowly mode (a D_limit : R) max_steps h :
  admissible mode a ->
  outcome (simulate mode a D_limit max_steps) = Ok h ->
  (forall n d, nth_error (r_D h) n = Some d -> d <= INR n) /\
  (forall n d d',
     nth_error (r_D h) n = Some d -> nth_error (r_D h) (S n) = Some d' ->
     d' <= d + 1) /\
  ((r_cycles h < max_steps)%nat -> D_limit < INR (r_cycles h)).
Proof.
  intros Ha H. split; [| split].
  - intros n d Hd.
    assert (Hn : (n <= r_cycles h)%nat).
    { apply (entry_index _ _ _ _ _ _ H). exists d. tauto. }
    destruct (run_entries _ _ _ _ _ _ H Hn) as [s [Hs [E1 _]]].
    rewrite E1 in Hd. injection Hd as <-.
    apply (steady_after _ _ _ _ Ha Hs).
  - intros n d d' Hd Hd'.
    assert (Hn : (S n <= r_cycles h)%nat).
    { apply (entry_index _ _ _ _ _ _ H). exists d'. tauto. }
    destruct (consecutive_cycles _ _ _ _ _ _ H Hn)
      as [s [s' [Hs [Hb [_ [Hc [E1 [_ [_ [F1 _]]]]]]]]]].
    rewrite E1 in Hd. injection Hd as <-.
    rewrite F1 in Hd'. injection Hd' as <-.
    destruct (steady_after _ _ _ _ Ha Hs) as [St _].
    destruct (body_returns _ _ _ Ha St) as [s0 [Hb0 [_ [_ [H0 H1]]]]].
    rewrite Hb in Hb0. injection Hb0 as <-.
    destruct n as [| n].
    + rewrite (H0 Hc). cbn in Hs. injection Hs as <-. cbn. lra.
    + apply H1. lia.
  - intros Hlt.
    destruct (simulate_cycles _ _ _ _ _ H) as [s [r [Hl [-> [_ [Hs _]]]]]].
    cbn [r_cycles returned] in *.
    pose proof (early_return_is_break _ _ _ _ _ _ Hl Hlt) as ->.
    destruct (loop_cycles _ _ _ _ _ _ _ Hl) as [j [_ [_ [_ [_ G]]]]].
    apply gt_true_lt in G.
    destruct (steady_after _ _ _ _ Ha Hs) as [_ [_ Hb]]. lra.
Qed.

(** When the first step length is 1, the distance and the step length
    stay 1. *)
Lemma stalled_after mode (a : R) n s :
  quantize mode a = 1 ->
  outcome (after_cycles mode a (S n) initial) = Ok s ->
  D s = 1 /\ moves s = 1.
Proof.
  intros Hq. revert s. induction n as [| n IH]; intros s H.
  - apply after_cycles_step in H. destruct H as [s0 [H0 Hb]].
    cbn in H0. injection H0 as <-.
    destruct (first_real _ _ _ Hb) as [HD [Hm _]].
    split; [exact HD | rewrite Hm; exact Hq].
  - apply after_cycles_step in H. destruct H as [s1 [H1 Hb]].
    destruct (IH s1 H1) as [HD Hm].
    pose proof (after_cycles_cycle _ _ _ _ _ H1) as Hc. cbn in Hc.
    assert (Hnz : cycle s1 <> O) by lia.
    destruct (later_real _ _ _ _ Hnz Hb) as [_ [_ [_ [HD' [Hm' _]]]]].
    assert (E : D s = 1).
    { rewrite HD', Hm, HD. cbn. unfold RealArith.hypot.
      replace (1 * 1 - 1) with 0 by ring. rewrite sqrt_0.
      replace ((0 - 1 + 1) * (0 - 1 + 1) + 1 * 1) with 1 by ring.
      apply sqrt_1. }
    split; [exact E |]. rewrite Hm', E, Rmult_1_r. exact Hq.
Qed.

Lemma stalled_admissible mode (a : R) :
  (mode = UnitCeiling /\ 0 < a <= 1) \/ (mode = Continuous /\ a = 1) ->
  quantize mode a = 1 /\ admissible mode a.
Proof.
  intros [[-> Ha] | [-> ->]]; cbn [quantize admissible].
  - split; [| lra]. cbn. unfold RealArith.ceil. f_equal.
    apply Zceil_eq. cbn. lra.
  - split; [reflexivity | lra].
Qed.

(** X9.  A run that cannot get away.  Under the original rules with
    [0 < a <= 1], and in the modified model with [a = 1], every cycle
    records the distance 1 and the step length 1; so with
    [D_limit >= 1] the limit is never exceeded and the run takes all
    [max_steps] cycles. *)
Theorem stalled_run mode (a D_limit : R) max_steps :
  (mode = UnitCeiling /\ 0 < a <= 1) \/ (mode = Continuous /\ a = 1) ->
  1 <= D_limit ->
  exists h,
    outcome (simulate mode a D_limit max_steps) = Ok h /\
    r_cycles h = max_steps /\
    forall n, (1 <= n <= max_steps)%nat ->
      nth_error (r_D h) n = Some 1 /\ nth_error (r_moves h) n = Some 1.
Proof.
  intros Hcase Hl.
  destruct (stalled_admissible _ _ Hcase) as [Hq Ha].
  destruct (after_cycles_returns mode a max_steps Ha) as [s [Hs _]].
  assert (Hloop : outcome (loop mode a D_limit max_steps initial)
                  = Ok (s, StepsExhausted)).
  { apply loop_all_cycles; [exact Hs |]. intros i si Hi Hsi.
    destruct i as [| i]; [lia |].
    destruct (stalled_after _ _ _ _ Hq Hsi) as [HD _].
    rewrite HD. apply gt_false, Hl. }
  pose proof (simulate_of_loop _ _ _ _ _ _ Hloop) as H.
  pose proof (after_cycles_cycle _ _ _ _ _ Hs) as Hc. cbn in Hc.
  exists (returned s). split; [exact H |]. split; [exact Hc |].
  intros n [Hn1 Hn2].
  assert (Hn : (n <= r_cycles (returned s))%nat) by (cbn; lia).
  destruct (run_entries _ _ _ _ _ _ H Hn) as [sn [Hsn [E1 [E2 _]]]].
  destruct n as [| n]; [lia |].
  destruct (stalled_after _ _ _ _ Hq Hsn) as [HD Hm].
  rewrite E1, E2, HD, Hm. split; reflexivity.
Qed.

(** X10.  A first step length of 0, that is [a = 0] in the modified
    model and [-1 < a <= 0] under the original rules: a run of at least
    one step raises [ZeroDivisionError] at [1.0 / moves] of the first
    cycle, before any [asin] or [sqrt]. *)
Theorem zero_step_raises mode (a D_limit : R) max_steps :
  (mode = Continuous /\ a = 0) \/ (mode = UnitCeiling /\ -1 < a <= 0) ->
  (1 <= max_steps)%nat ->
  outcome (simulate mode a D_limit max_steps) = Raise ZeroDivisionError /\
  calls (simulate mode a D_limit max_steps) = [].
Proof.
  intros Hcase Hm.
  assert (Hq : quantize mode a = 0).
  { destruct Hcase as [[-> ->] | [-> Ha]]; cbn [quantize];
      [reflexivity |].
    cbn. unfold RealArith.ceil. f_equal. apply Zceil_eq. cbn. lra. }
  assert (Hb : body mode a initial = ([], Raise ZeroDivisionError)).
  { unfold body. cbn [cycle initial Nat.eqb]. unfold first_cycle.
    rewrite Hq. unfold inv, lift. cbn [mp.div RealArith.exact].
    unfold RealArith.div.
    destruct (Req_dec_T 0 0) as [_ | C]; [reflexivity | contradiction]. }
  destruct max_steps as [| k]; [lia |].
  unfold simulate. cbn [loop]. rewrite Hb. split; reflexivity.
Qed.

(** X11.  With an admissible [a] no cycle leaves the domains: the run
    returns a history, and no [asin] it invoked had an argument of
    magnitude above 1, no [sqrt] a negative one. *)
Theorem admissible_run_in_domain mode (a D_limit : R) max_steps :
  admissible mode a ->
  exists h,
    outcome (simulate mode a D_limit max_steps) = Ok h /\
    Forall (fun c => ~ RealArith.out_of_domain c)
           (calls (simulate mode a D_limit max_steps)).
Proof.
  intros Ha. destruct (simulate_returns mode a D_limit max_steps Ha) as [h H].
  exists h. split; [exact H |].
  pose proof (ff_simulate _ asin_out_of_domain sqrt_out_of_domain
                mode a D_limit max_steps) as F.
  unfold fail_fast in F. rewrite H in F. exact F.
Qed.

Lemma total_snoc (l : list R) (x : R) : total (l ++ [x]) = total l + x.
Proof.
  unfold total. induction l as [| y l IH]; cbn; [ring |].
  rewrite IH. ring.
Qed.

Lemma res_total_after mode (a : R) n s :
  outcome (after_cycles mode a n initial) = Ok s ->
  res s + moves s = total (moves_list s).
Proof.
  revert s. induction n as [| n IH]; intros s H.
  - cbn in H. injection H as <-. cbn. ring.
  - apply after_cycles_step in H. destruct H as [s1 [H1 Hb]].
    pose proof (IH s1 H1) as E.
    pose proof (after_cycles_cycle _ _ _ _ _ H1) as Hc. cbn in Hc.
    destruct (body_appends _ _ _ _ Hb) as [_ [_ [Hm _]]].
    rewrite Hm, total_snoc, <- E. f_equal.
    destruct n as [| n].
    + cbn in H1. injection H1 as <-.
      destruct (body_first _ _ _ _ Hc Hb) as [_ [Hr _]].
      rewrite Hr. reflexivity.
    + assert (Hnz : cycle s1 <> O) by lia.
      destruct (body_later _ _ _ _ Hnz Hb) as [md [_ [_ [Hr _]]]].
      exact Hr.
Qed.

(** X12.  The returned [res] is the sum of all recorded step lengths
    but the last one (the seed entry 1 is the step of the first cycle,
    the last entry the step of a cycle that was not run). *)
Theorem res_is_total_of_steps mode (a D_limit : R) max_steps h :
  outcome (simulate mode a D_limit max_steps) = Ok h ->
  r_res h = total (removelast (r_moves h)) /\
  exists mv, nth_error (r_moves h) (r_cycles h) = Some mv /\
             r_res h + mv = total (r_moves h).
Proof.
  intros H.
  destruct (simulate_cycles _ _ _ _ _ H) as [s [r [_ [-> [_ [Hs L]]]]]].
  cbn [r_res r_moves r_cycles returned] in *.
  pose proof (res_total_after _ _ _ _ Hs) as E.
  split; [| exists (moves s); split; [exact (last_moves L) | exact E]].
  pose proof (last_moves L) as Hl. pose proof (logged_moves L) as Hlen.
  destruct (moves_list s) as [| x l] using rev_ind;
    [discriminate |].
  rewrite removelast_last. rewrite total_snoc in E.
  rewrite length_app in Hlen. cbn in Hlen.
  rewrite nth_error_app2 in Hl by lia.
  replace (cycle s - length l)%nat with O in Hl by lia.
  cbn in Hl. injection Hl as ->. lra.
Qed.

End RealEdges.

(** ** The comparison of two runs *)

Section Comparison.

Local Open Scope R_scope.

(** The absolute differences of the pairs of a common prefix. *)
Lemma comprehension_shift {A} (f g : nat -> option A) k n :
  (forall i, f (S i) = g i) ->
  comprehension f (S k) n = comprehension g k n.
Proof.
  intros Hfg. revert k. induction n as [| n IH]; intros k; [reflexivity |].
  cbn [comprehension]. rewrite Hfg, IH. reflexivity.
Qed.

Lemma abs_differences_pairs (hp fl : list R) :
  abs_differences hp fl =
  Some (map (fun p => Rabs (fst p - snd p)) (combine hp fl)).
Proof.
  unfold abs_differences. revert fl.
  induction hp as [| x hp IH]; intros fl; [reflexivity |].
  destruct fl as [| y fl]; [reflexivity |].
  cbn [length Nat.min comprehension combine map fst snd].
  unfold abs_difference_at at 1. cbn [nth_error].
  rewrite (comprehension_shift _ (abs_difference_at hp fl));
    [| intros i; reflexivity].
  rewrite IH. reflexivity.
Qed.

Lemma pairs_length (hp fl : list R) :
  length (map (fun p => Rabs (fst p - snd p)) (combine hp fl)) =
  Nat.min (length hp) (length fl).
Proof. rewrite length_map, length_combine. reflexivity. Qed.

Lemma pairs_entry (hp fl : list R) i x y :
  nth_error hp i = Some x -> nth_error fl i = Some y ->
  nth_error (map (fun p => Rabs (fst p - snd p)) (combine hp fl)) i =
  Some (Rabs (x - y)).
Proof.
  revert fl i. induction hp as [| x0 hp IH]; intros fl i Hx Hy.
  - destruct i; discriminate.
  - destruct fl as [| y0 fl]; [destruct i; discriminate |].
    destruct i as [| i]; cbn in *.
    + injection Hx as <-. injection Hy as <-. reflexivity.
    + apply IH; assumption.
Qed.

Lemma pairs_nonnegative (hp fl : list R) :
  Forall (fun d => 0 <= d)
         (map (fun p => Rabs (fst p - snd p)) (combine hp fl)).
Proof.
  apply Forall_forall. intros d Hd. apply in_map_iff in Hd.
  destruct Hd as [p [<- _]]. apply Rabs_pos.
Qed.

Lemma pairs_symmetric (hp fl : list R) :
  map (fun p => Rabs (fst p - snd p)) (combine hp fl) =
  map (fun p => Rabs (fst p - snd p)) (combine fl hp).
Proof.
  revert fl. induction hp as [| x hp IH]; intros fl.
  - destruct fl; reflexivity.
  - destruct fl as [| y fl]; [reflexivity |].
    cbn. rewrite IH, Rabs_minus_sym. reflexivity.
Qed.

(** A list compared with one that extends it gives zeros. *)
Lemma pairs_of_prefix (l1 l2 : list R) :
  (forall i x, nth_error l1 i = Some x -> nth_error l2 i = Some x) ->
  map (fun p => Rabs (fst p - snd p)) (combine l1 l2) =
  repeat 0 (length l1).
Proof.
  revert l2. induction l1 as [| x l1 IH]; intros l2 H; [reflexivity |].
  pose proof (H O x eq_refl) as H0.
  destruct l2 as [| y l2]; [discriminate |].
  cbn in H0. injection H0 as ->.
  cbn. rewrite Rminus_diag, Rabs_R0. f_equal.
  apply IH. intros i z Hz. exact (H (S i) z Hz).
Qed.

(** X13.  [compare_data] never indexes out of range, whatever the
    lengths of the two records: it returns two lists as long as the
    shorter of the [D] logs and of the [z_angle] logs, whose entry of
    index [i] is the absolute difference of the two entries of index
    [i]; no entry is negative. *)
Theorem compare_data_common_prefix (hp fl : RunHistory R) :
  exists r,
    compare_data hp fl = Some r /\
    length (D_difference r) = Nat.min (length (r_D hp)) (length (r_D fl)) /\
    length (angle_difference r) =
      Nat.min (length (r_z_angle hp)) (length (r_z_angle fl)) /\
    (forall i x y,
       nth_error (r_D hp) i = Some x -> nth_error (r_D fl) i = Some y ->
       nth_error (D_difference r) i = Some (Rabs (x - y))) /\
    (forall i x y,
       nth_error (r_z_angle hp) i = Some x ->
       nth_error (r_z_angle fl) i = Some y ->
       nth_error (angle_difference r) i = Some (Rabs (x - y))) /\
    Forall (fun d => 0 <= d) (D_difference r) /\
    Forall (fun d => 0 <= d) (angle_difference r).
Proof.
  unfold compare_data. rewrite !abs_differences_pairs.
  eexists. split; [reflexivity |]. cbn [D_difference angle_difference].
  split; [apply pairs_length |]. split; [apply pairs_length |].
  split; [intros i x y; apply pairs_entry |].
  split; [intros i x y; apply pairs_entry |].
  split; apply pairs_nonnegative.
Qed.

(** X14.  [compare_data] does not depend on which of the two records
    is given as ["hp"] and which as ["float"]. *)
Theorem compare_data_symmetric (hp fl : RunHistory R) :
  compare_data hp fl = compare_data fl hp.
Proof.
  unfold compare_data. rewrite !abs_differences_pairs.
  rewrite (pairs_symmetric (r_D hp)), (pairs_symmetric (r_z_angle hp)).
  reflexivity.
Qed.

(** X15.  For the records of two returned runs, of either engine and
    with any parameters, both difference lists have the length of the
    smaller cycle count plus one. *)
Theorem compare_data_of_runs mode1 mode2 (a1 a2 l1 l2 : R) n1 n2 h1 h2 :
  outcome (simulate mode1 a1 l1 n1) = Ok h1 ->
  outcome (simulate mode2 a2 l2 n2) = Ok h2 ->
  exists r,
    compare_data h1 h2 = Some r /\
    length (D_difference r) = S (Nat.min (r_cycles h1) (r_cycles h2)) /\
    length (angle_difference r) = S (Nat.min (r_cycles h1) (r_cycles h2)).
Proof.
  intros H1 H2.
  destruct (simulate_cycles _ _ _ _ _ H1) as [s1 [r1 [_ [-> [_ [_ L1]]]]]].
  destruct (simulate_cycles _ _ _ _ _ H2) as [s2 [r2 [_ [-> [_ [_ L2]]]]]].
  unfold compare_data. rewrite !abs_differences_pairs.
  eexists. split; [reflexivity |]. cbn [D_difference angle_difference].
  rewrite !pairs_length.
  cbn [r_D r_z_angle r_cycles returned].
  rewrite (logged_D L1), (logged_D L2), (logged_z L1), (logged_z L2).
  split; reflexivity.
Qed.

(** X16.  A run compared with a run of the same engine, the same [a]
    and [D_limit] and a larger [max_steps] differs nowhere: all
    differences, over the length of the shorter run, are 0. *)
Theorem compare_data_with_longer_run mode (a D_limit : R) n m h1 h2 :
  (n <= m)%nat ->
  outcome (simulate mode a D_limit n) = Ok h1 ->
  outcome (simulate mode a D_limit m) = Ok h2 ->
  compare_data h1 h2 =
  Some {| D_difference := repeat 0 (S (r_cycles h1));
          angle_difference := repeat 0 (S (r_cycles h1)) |}.
Proof.
  intros Hnm H1 H2.
  destruct (simulate_cycles _ _ _ _ _ H1) as [s1 [r1 [K1 [-> [_ [_ L1]]]]]].
  destruct (simulate_ok _ _ _ _ _ H2) as [s2 [r2 [K2 ->]]].
  pose proof (entries_extend _ _ _ _ _ _ _ _ _ Hnm K1 K2) as E.
  unfold compare_data. rewrite !abs_differences_pairs.
  cbn [r_D r_z_angle r_cycles returned].
  rewrite (pairs_of_prefix (D_list s1) (D_list s2)),
          (pairs_of_prefix (z_angle_list s1) (z_angle_list s2)).
  - rewrite (logged_D L1), (logged_z L1). reflexivity.
  - intros i x. apply (E i x).
  - intros i x. apply (E i x).
Qed.

End Comparison.

(** ** The distance never decreases *)

Section RealGrowth.

Local Open Scope R_scope.

(** The ceiling is not below its argument. *)
Lemma ceil_above (x : R) : x <= mp.ceil x.
Proof. cbn. unfold RealArith.ceil. apply Zceil_bound. Qed.

(** With an admissible [a], after every completed cycle the next step
    is at least as long as the distance. *)
Lemma step_covers_distance mode (a : R) n s :
  admissible mode a ->
  outcome (after_cycles mode a (S n) initial) = Ok s ->
  1 <= D s <= moves s /\ (1 < a -> D s < moves s).
Proof.
  intros Ha H.
  destruct (steady_after _ _ _ _ Ha H) as [_ [HD _]].
  assert (HD1 : 1 <= D s) by (apply HD; discriminate).
  assert (Hm : moves s = quantize mode (a * D s)).
  { destruct (after_cycles_step _ _ _ _ _ H) as [s0 [H0 Hb]].
    pose proof (after_cycles_cycle _ _ _ _ _ H0) as Hc. cbn in Hc.
    destruct n as [| n].
    - destruct (body_first _ _ _ _ Hc Hb) as [E [_ [Hm _]]].
      rewrite Hm, E. f_equal. cbn. ring.
    - assert (Hnz : cycle s0 <> O) by lia.
      destruct (body_later _ _ _ _ Hnz Hb) as [md [_ [_ [_ Hm]]]].
      exact Hm. }
  destruct (Rle_lt_dec 1 a) as [H1 | H1].
  - assert (Hq : a * D s <= quantize mode (a * D s)).
    { destruct mode; cbn [quantize]; [lra | apply ceil_above]. }
    rewrite Hm. split; [split; [exact HD1 | nra] |]. intros Hgt. nra.
  - destruct mode; cbn [admissible] in Ha; [lra |].
    assert (Hcase : (UnitCeiling = UnitCeiling /\ 0 < a <= 1) \/
                    (UnitCeiling = Continuous /\ a = 1))
      by (left; split; [reflexivity | lra]).
    destruct (stalled_admissible _ _ Hcase) as [Hq _].
    destruct (stalled_after _ _ _ _ Hq H) as [E1 E2].
    rewrite E1, E2. split; [lra |]. intros C. lra.
Qed.

(** The recurrence does not decrease a distance [d >= 1] when the step
    [m] is at least [d], and increases it when [m > d]. *)
Lemma recurrence_grows (m d : R) :
  1 <= d <= m ->
  d <= mp.hypot (sqrt (m * m - 1) - m + d) 1 /\
  (d < m -> d < mp.hypot (sqrt (m * m - 1) - m + d) 1).
Proof.
  intros [Hd Hm]. cbn. unfold RealArith.hypot.
  assert (Hsq : sqrt (m * m - 1) * sqrt (m * m - 1) = m * m - 1)
    by (apply sqrt_sqrt; nra).
  pose proof (sqrt_pos (m * m - 1)) as Hr.
  set (r := sqrt (m * m - 1)) in *.
  assert (Hrm : r < m) by nra.
  assert (Hid : (r - m + d) * (r - m + d) + 1 * 1 - d * d
                = 2 * (m - r) * (m - d)) by (ring_simplify; nra).
  split.
  - apply sqrt_ge_of_square; [lra |]. nra.
  - intros Hlt. apply sqrt_gt_of_square; [lra |]. nra.
Qed.

(** X17.  With an admissible [a] the recorded distance never decreases
    from one completed cycle to the next, and it increases in every
    cycle when [a > 1]. *)
Theorem distance_never_decreases mode (a D_limit : R) max_steps h n d d' :
  admissible mode a ->
  outcome (simulate mode a D_limit max_steps) = Ok h ->
  (1 <= n)%nat ->
  nth_error (r_D h) n = Some d ->
  nth_error (r_D h) (S n) = Some d' ->
  d <= d' /\ (1 < a -> d < d').
Proof.
  intros Ha H Hn Hd Hd'.
  assert (Hn' : (S n <= r_cycles h)%nat).
  { apply (entry_index _ _ _ _ _ _ H). exists d'. tauto. }
  destruct (consecutive_cycles _ _ _ _ _ _ H Hn')
    as [s [s' [Hs [Hb [_ [Hc [E1 [_ [_ [F1 _]]]]]]]]]].
  rewrite E1 in Hd. injection Hd as <-.
  rewrite F1 in Hd'. injection Hd' as <-.
  destruct n as [| n]; [lia |].
  destruct (step_covers_distance _ _ _ _ Ha Hs) as [Hdm Hstrict].
  assert (Hnz : cycle s <> O) by lia.
  destruct (later_real _ _ _ _ Hnz Hb) as [_ [_ [_ [HD' _]]]].
  rewrite HD'.
  destruct (recurrence_grows (moves s) (D s) Hdm) as [G1 G2].
  split; [exact G1 |]. intros Hgt. apply G2, Hstrict, Hgt.
Qed.

(** X18.  With [D_limit] below 1 every returning run of at least one
    step ends after its first cycle, whatever [a]: the first cycle sets
    the distance 1. *)
Theorem limit_below_one_stops_at_once mode (a D_limit : R) max_steps h :
  D_limit < 1 ->
  (1 <= max_steps)%nat ->
  outcome (simulate mode a D_limit max_steps) = Ok h ->
  r_cycles h = 1%nat /\ r_D h = [0; 1].
Proof.
  intros Hl Hm H.
  destruct (simulate_ok _ _ _ _ _ H) as [s [r [Hloop ->]]].
  destruct max_steps as [| k]; [lia |].
  cbn [loop] in Hloop. apply bind_ok_inv in Hloop.
  destruct Hloop as [s1 [Hb Hloop]].
  destruct (body_first mode a initial s1 eq_refl Hb) as [HD _].
  destruct (body_appends _ _ _ _ Hb) as [Hc [HL _]].
  rewrite HD in Hloop. rewrite gt_true in Hloop by (cbn; exact Hl).
  rewrite outcome_ret in Hloop. injection Hloop as <- _.
  cbn [r_cycles r_D returned]. rewrite Hc, HL, HD. split; reflexivity.
Qed.

End RealGrowth.

(** ** Wrapping and whole step counts *)

Section RealWhole.

Local Open Scope R_scope.

(** X19.  Over the real numbers [wrap_angle] returns for every angle.
    Wrapping twice is wrapping once; the angles that wrapping leaves as
    they are are those of [[-PI_LD, PI_LD)]; and what it returns
    differs from the angle by a whole number of turns of [2 PI_LD]. *)
Theorem wrap_angle_fixes_its_range (theta : R) :
  exists w,
    wrap_angle theta = Ok w /\
    wrap_angle w = Ok w /\
    (w = theta <-> - PI_LD <= theta < PI_LD) /\
    exists k : Z, w = theta + 2 * PI_LD * IZR k.
Proof.
  change (@PI_LD R RealArith.exact) with RealArith.PI_53.
  exists (RealArith.wrapped theta).
  pose proof (wrapped_bound theta) as Hb.
  split; [apply wrap_angle_real |].
  split; [rewrite wrap_angle_real, (wrapped_id _ Hb); reflexivity |].
  split; [| apply wrapped_turns].
  split; [intros E; rewrite <- E; exact Hb | apply wrapped_id].
Qed.

(** Under the original rules the accumulator and the step length are
    whole numbers; with [a > 0] the step length is at least 1 and the
    accumulator at least the number of cycles. *)
Lemma whole_after (a : R) n s :
  outcome (after_cycles UnitCeiling a n initial) = Ok s ->
  exists zr zm : Z,
    res s = IZR zr /\ moves s = IZR zm /\
    (0 < a -> (Z.of_nat n <= zr)%Z /\ (1 <= zm)%Z).
Proof.
  revert s. induction n as [| n IH]; intros s H.
  - cbn in H. injection H as <-. exists 0%Z, 1%Z. cbn.
    repeat split; lia.
  - pose proof (after_cycle_values _ _ _ _ H) as [HD _].
    apply after_cycles_step in H. destruct H as [s1 [H1 Hb]].
    destruct (IH s1 H1) as [zr [zm [Er [Em Hpos]]]].
    pose proof (after_cycles_cycle _ _ _ _ _ H1) as Hc. cbn in Hc.
    assert (Hres : res s = res s1 + moves s1 /\
                   moves s = IZR (Zceil (a * D s))).
    { destruct n as [| n].
      - cbn in H1. injection H1 as <-.
        destruct (body_first _ _ _ _ Hc Hb) as [E [Hr [Hm _]]].
        rewrite Hr, Hm, E. split; [reflexivity |].
        change (IZR (Zceil a) = IZR (Zceil (a * 1))). rewrite Rmult_1_r.
        reflexivity.
      - assert (Hnz : cycle s1 <> O) by lia.
        destruct (body_later _ _ _ _ Hnz Hb) as [md [_ [_ [Hr Hm]]]].
        split; [exact Hr | exact Hm]. }
    destruct Hres as [Hr Hm].
    exists (zr + zm)%Z, (Zceil (a * D s)).
    split; [rewrite Hr, Er, Em, plus_IZR; reflexivity |].
    split; [exact Hm |]. intros Ha. destruct (Hpos Ha) as [P1 P2].
    split; [lia |]. apply ceil_positive. nra.
Qed.

(** X20.  Under the original rules the returned [res] is a whole
    number, the count of unit steps; with [a > 0] it is at least the
    number of completed cycles. *)
Theorem unit_mode_res_is_whole (a D_limit : R) max_steps h :
  outcome (simulate_original a D_limit max_steps) = Ok h ->
  exists z : Z,
    r_res h = IZR z /\ (0 < a -> (Z.of_nat (r_cycles h) <= z)%Z).
Proof.
  intros H.
  destruct (simulate_cycles _ _ _ _ _ H) as [s [r [_ [-> [_ [Hs _]]]]]].
  cbn [r_res r_cycles returned] in *.
  destruct (whole_after _ _ _ Hs) as [zr [zm [Er [_ Hpos]]]].
  exists zr. split; [exact Er |]. intros Ha. apply (Hpos Ha).
Qed.

End RealWhole.

(** ** The two readings agree on the runs that return *)

Section Agreement.

Local Open Scope R_scope.

Variable mode : Mode.
Variable a : R.

Lemma back_mpf (l : list R) : back (map mpf l) = mpf (back l).
Proof.
  unfold back. change (@mp.zero mpnum Mpmath.arith) with (mpf 0).
  change (@mp.zero R RealArith.exact) with 0.
  induction l as [| x l IH]; [reflexivity |].
  destruct l as [| y l]; [reflexivity |]. exact IH.
Qed.

Lemma runs_ret_eq {num A} (x y : A) : x = y -> runs (@ret num A x) [] (Ok y).
Proof. intros ->. apply runs_ret. Qed.

Lemma runs_lift_eq {num A} (r r' : result A) :
  r = r' -> runs (@lift num A r) [] r'.
Proof. intros ->. apply runs_lift. Qed.

Lemma runs_call_asin {num} {AR : mp.Arith num} (x v : num) :
  mp.asin x = Ok v -> runs (call_asin x) [AsinCall x] (Ok v).
Proof. intros E. unfold call_asin. rewrite E. split; reflexivity. Qed.

Lemma runs_call_sqrt {num} {AR : mp.Arith num} (x v : num) :
  mp.sqrt x = Ok v -> runs (call_sqrt x) [SqrtCall x] (Ok v).
Proof. intros E. unfold call_sqrt. rewrite E. split; reflexivity. Qed.

Lemma runs_inv {num} {AR : mp.Arith num} (x q : num) :
  mp.div mp.one x = Ok q -> runs (inv x) [] (Ok q).
Proof. intros E. unfold inv. rewrite E. apply runs_lift. Qed.

Lemma sim_first c s s' :
  outcome (first_cycle mode a c s) = Ok s' ->
  exists l,
    runs (first_cycle mode a c s) l (Ok s') /\
    runs (first_cycle mode (mpf a) c (mpf_state s)) (map mpf_call l)
         (Ok (mpf_state s')).
Proof.
  intros H. apply first_cycle_ok in H.
  destruct H as [q [al [z' [Hq [Hal [Hz ->]]]]]].
  pose proof Hq as Hq'. pose proof Hal as Hal'.
  apply div_inv in Hq'. destruct Hq' as [Hnz ->].
  apply asin_inv in Hal'. destruct Hal' as [Hd ->].
  pose proof Hz as Hz'. rewrite wrap_angle_real in Hz'. injection Hz' as <-.
  exists ([] ++ [AsinCall (1 / quantize mode a)] ++ [] ++ []). split.
  - unfold first_cycle.
    eapply runs_bind_ok; [apply runs_inv, Hq |].
    eapply runs_bind_ok; [apply runs_call_asin, Hal |].
    eapply runs_bind_ok; [apply runs_lift_eq, Hz |].
    apply runs_ret.
  - unfold first_cycle. rewrite quantize_mpf.
    cbn [map app mpf_call].
    change [AsinCall (mpf (1 / quantize mode a))]
      with ([] ++ [AsinCall (mpf (1 / quantize mode a))] ++ [] ++ []).
    eapply runs_bind_ok; [apply runs_inv_ok, Hnz |].
    eapply runs_bind_ok; [apply runs_asin_ok, Hd |].
    eapply runs_bind_ok;
      [cbn [z_angle mpf_state]; mp_cbn; apply runs_wrap_real |].
    apply runs_ret_eq. unfold mpf_state.
    cbn [moves D res cycle z_angle m_angle z_x z_y m_x m_y D_list
         z_angle_list m_angle_list moves_list].
    rewrite !map_app, !back_mpf. reflexivity.
Qed.

Lemma runs_calls {num A} (m : M num A) l l' r :
  runs m l r -> l = l' -> runs m l' r.
Proof. intros H <-. exact H. Qed.

Lemma sim_later c s s' :
  outcome (later_cycle mode a c s) = Ok s' ->
  exists l,
    runs (later_cycle mode a c s) l (Ok s') /\
    runs (later_cycle mode (mpf a) c (mpf_state s)) (map mpf_call l)
         (Ok (mpf_state s')).
Proof.
  intros H. unfold later_cycle in H.
  apply bind_ok_inv in H. destruct H as [md [Hmd H]].
  apply bind_ok_inv in H. destruct H as [q [Hq H]].
  apply bind_ok_inv in H. destruct H as [ao [Hao H]].
  apply bind_ok_inv in H. destruct H as [qD [HqD H]].
  apply bind_ok_inv in H. destruct H as [aD [HaD H]].
  apply bind_ok_inv in H. destruct H as [m' [Hm' H]].
  apply bind_ok_inv in H. destruct H as [q' [Hq' H]].
  apply bind_ok_inv in H. destruct H as [a1 [Ha1 H]].
  apply bind_ok_inv in H. destruct H as [qD' [HqD' H]].
  apply bind_ok_inv in H. destruct H as [a2 [Ha2 H]].
  apply bind_ok_inv in H. destruct H as [z' [Hz' H]].
  rewrite outcome_ret in H. injection H as <-.
  unfold inv in Hq, HqD, Hq', HqD'.
  rewrite outcome_lift in Hq, HqD, Hq', HqD', Hm', Hz'.
  unfold call_sqrt, outcome in Hmd. cbn [snd] in Hmd.
  unfold call_asin, outcome in Hao, HaD, Ha1, Ha2.
  cbn [snd] in Hao, HaD, Ha1, Ha2.
  pose proof (sqrt_inv _ _ Hmd) as [Rmd Emd].
  pose proof (div_inv _ _ _ Hq) as [Rq Eq].
  pose proof (asin_inv _ _ Hao) as [Rao Eao].
  pose proof (div_inv _ _ _ HqD) as [RqD EqD].
  pose proof (asin_inv _ _ HaD) as [RaD EaD].
  pose proof (div_inv _ _ _ Hq') as [Rq' Eq'].
  pose proof (asin_inv _ _ Ha1) as [Ra1 Ea1].
  pose proof (div_inv _ _ _ HqD') as [RqD' EqD'].
  pose proof (asin_inv _ _ Ha2) as [Ra2 Ea2].
  pose proof Hm' as Em'. rewrite wrap_angle_real in Em'. injection Em' as Em'.
  pose proof Hz' as Ez'. rewrite wrap_angle_real in Ez'. injection Ez' as Ez'.
  eexists. split.
  - unfold later_cycle.
    eapply runs_bind_ok; [apply runs_call_sqrt, Hmd |].
    eapply runs_bind_ok; [apply runs_inv, Hq |].
    eapply runs_bind_ok; [apply runs_call_asin, Hao |].
    eapply runs_bind_ok; [apply runs_inv, HqD |].
    eapply runs_bind_ok; [apply runs_call_asin, HaD |].
    eapply runs_bind_ok; [apply runs_lift_eq, Hm' |].
    eapply runs_bind_ok; [apply runs_inv, Hq' |].
    eapply runs_bind_ok; [apply runs_call_asin, Ha1 |].
    eapply runs_bind_ok; [apply runs_inv, HqD' |].
    eapply runs_bind_ok; [apply runs_call_asin, Ha2 |].
    eapply runs_bind_ok; [apply runs_lift_eq, Hz' |].
    apply runs_ret.
  - subst md q ao qD aD q' a1 qD' a2 m' z'.
    change (@mp.one R RealArith.exact) with 1 in *.
    change (@mp.sub R RealArith.exact) with Rminus in *.
    change (@mp.mul R RealArith.exact) with Rmult in *.
    change (@mp.add R RealArith.exact) with Rplus in *.
    change (@mp.hypot R RealArith.exact) with RealArith.hypot in *.
    set (d' := RealArith.hypot
                 (sqrt (moves s * moves s - 1) - moves s + D s) 1) in *.
    unfold later_cycle.
    cbn [moves D res z_angle m_angle z_x z_y m_x m_y D_list z_angle_list
         m_angle_list moves_list mpf_state].
    mp_cbn.
    eapply runs_calls.
    + eapply runs_bind_ok; [apply runs_sqrt_ok, Rmd |]. mp_cbn. fold d'.
      eapply runs_bind_ok; [apply runs_inv_ok, Rq |].
      eapply runs_bind_ok; [apply runs_asin_ok, Rao |].
      eapply runs_bind_ok; [apply runs_inv_ok, RqD |].
      eapply runs_bind_ok; [apply runs_asin_ok, RaD |]. mp_cbn.
      eapply runs_bind_ok; [apply runs_wrap_real |].
      rewrite quantize_mpf.
      eapply runs_bind_ok; [apply runs_inv_ok, Rq' |].
      eapply runs_bind_ok; [apply runs_asin_ok, Ra1 |].
      eapply runs_bind_ok; [apply runs_inv_ok, RqD |].
      eapply runs_bind_ok; [apply runs_asin_ok, RaD |]. mp_cbn.
      eapply runs_bind_ok; [apply runs_wrap_real |].
      apply runs_ret_eq. unfold mpf_state.
      cbn [moves D res cycle z_angle m_angle z_x z_y m_x m_y D_list
           z_angle_list m_angle_list moves_list].
      mp_cbn.
      rewrite !map_app, !back_mpf. reflexivity.
    + reflexivity.
Qed.

Lemma sim_body s s' :
  outcome (body mode a s) = Ok s' ->
  exists l,
    runs (body mode a s) l (Ok s') /\
    runs (body mode (mpf a) (mpf_state s)) (map mpf_call l)
         (Ok (mpf_state s')).
Proof.
  unfold body. cbn [cycle mpf_state].
  destruct (Nat.eqb (S (cycle s)) 1); [apply sim_first | apply sim_later].
Qed.

Lemma sim_loop (D_limit : R) k s s' e :
  outcome (loop mode a D_limit k s) = Ok (s', e) ->
  exists l,
    runs (loop mode a D_limit k s) l (Ok (s', e)) /\
    runs (loop mode (mpf a) (mpf D_limit) k (mpf_state s)) (map mpf_call l)
         (Ok (mpf_state s', e)).
Proof.
  revert s. induction k as [| k IH]; intros s H.
  - cbn in H. injection H as <- <-. exists []. split; apply runs_ret.
  - cbn [loop] in H. apply bind_ok_inv in H. destruct H as [s1 [Hb H]].
    destruct (sim_body _ _ Hb) as [l1 [R1 M1]].
    assert (G : mp.gt (D (mpf_state s1)) (mpf D_limit) =
                mp.gt (D s1) D_limit) by reflexivity.
    destruct (mp.gt (D s1) D_limit) eqn:E.
    + rewrite outcome_ret in H. injection H as <- <-.
      exists (l1 ++ []). split.
      * cbn [loop]. eapply runs_bind_ok; [exact R1 |]. rewrite E.
        apply runs_ret.
      * cbn [loop]. rewrite map_app.
        eapply runs_bind_ok; [exact M1 |]. rewrite G. apply runs_ret.
    + destruct (IH s1 H) as [l2 [R2 M2]].
      exists (l1 ++ l2). split.
      * cbn [loop]. eapply runs_bind_ok; [exact R1 |]. rewrite E. exact R2.
      * cbn [loop]. rewrite map_app.
        eapply runs_bind_ok; [exact M1 |]. rewrite G. exact M2.
Qed.

(** X22.  The two readings agree on the runs that return.  When a run
    returns a history over the real numbers, the same run read with the
    complex numbers of [mpmath] makes the same invocations and returns
    the same history: no complex number arises in it. *)
Theorem mpmath_agrees_on_returning_runs (D_limit : R) max_steps h :
  outcome (simulate mode a D_limit max_steps) = Ok h ->
  runs (simulate mode (mpf a) (mpf D_limit) max_steps)
       (map mpf_call (calls (simulate mode a D_limit max_steps)))
       (Ok (mpf_run h)).
Proof.
  intros H. destruct (simulate_ok _ _ _ _ _ H) as [s [e [Hl ->]]].
  destruct (sim_loop _ _ _ _ _ Hl) as [l [[C1 O1] M]].
  unfold simulate at 2. rewrite calls_bind, O1, C1. cbn [calls ret fst].
  rewrite map_app. unfold simulate.
  eapply runs_bind_ok; [exact M | apply runs_ret].
Qed.

End Agreement.

(** ** The further properties at particular runs *)

Section MoreInstances.

Local Open Scope R_scope.

(** The continuous engine, [a = 2], [D_limit = 100], three steps. *)
Lemma position_lengths_witness :
  exists h,
    outcome (simulate_modified 2 100 3) = Ok h /\
    length (r_z_x h) = (r_cycles h + 1)%nat /\
    length (r_z_y h) = (r_cycles h + 1)%nat /\
    length (r_m_x h) = (r_cycles h + 1)%nat /\
    length (r_m_y h) = (r_cycles h + 1)%nat /\
    length (r_z_x h) = length (r_D h).
Proof.
  destruct (simulate_returns Continuous 2 100 3 (two_admissible _)) as [h H].
  exists h. split; [exact H |].
  exact (position_lengths Continuous 2 100 3 h H).
Defined.

(** The same engine with two and with three steps. *)
Lemma longer_run_extends_witness :
  exists h1 h2,
    (2 <= 3)%nat /\
    outcome (simulate_modified 2 100 2) = Ok h1 /\
    outcome (simulate_modified 2 100 3) = Ok h2 /\
    (r_cycles h1 <= r_cycles h2)%nat /\
    (forall i x,
       (nth_error (r_D h1) i = Some x -> nth_error (r_D h2) i = Some x) /\
       (nth_error (r_moves h1) i = Some x ->
        nth_error (r_moves h2) i = Some x) /\
       (nth_error (r_z_angle h1) i = Some x ->
        nth_error (r_z_angle h2) i = Some x) /\
       (nth_error (r_m_angle h1) i = Some x ->
        nth_error (r_m_angle h2) i = Some x) /\
       (nth_error (r_z_x h1) i = Some x ->
        nth_error (r_z_x h2) i = Some x) /\
       (nth_error (r_z_y h1) i = Some x ->
        nth_error (r_z_y h2) i = Some x) /\
       (nth_error (r_m_x h1) i = Some x ->
        nth_error (r_m_x h2) i = Some x) /\
       (nth_error (r_m_y h1) i = Some x ->
        nth_error (r_m_y h2) i = Some x)) /\
    ((r_cycles h1 < 2)%nat -> h2 = h1).
Proof.
  destruct (simulate_returns Continuous 2 100 2 (two_admissible _))
    as [h1 H1].
  destruct (simulate_returns Continuous 2 100 3 (two_admissible _))
    as [h2 H2].
  exists h1, h2. split; [lia |]. split; [exact H1 |]. split; [exact H2 |].
  exact (longer_run_extends Continuous 2 100 2 3 h1 h2
           (le_S _ _ (le_n 2)) H1 H2).
Defined.

(** [asin] of a number of [[0, 1/2]] is at most [pi / 6]. *)
Lemma asin_le_sixth (x : R) : 0 <= x <= 1 / 2 -> asin x <= PI / 6.
Proof.
  intros Hx. destruct (Rle_or_lt (asin x) (PI / 6)) as [H | H]; [exact H |].
  exfalso. destruct (asin_bound x) as [Hl Hu].
  pose proof PI6_RGT_0 as P0. pose proof PI6_RLT_PI2 as P2.
  assert (S : sin (PI / 6) < sin (asin x))
    by (apply sin_increasing_1; lra).
  rewrite sin_PI6, sin_asin in S by lra. lra.
Qed.

(** The continuous engine, [a = 2], [D_limit = 100], three steps: the
    headings of the first two cycles rise. *)
Lemma two_cycles_rise h :
  outcome (simulate_modified 2 100 3) = Ok h -> headings_rise h 2.
Proof.
  intros H.
  destruct (truncated_run Continuous 2 100 3 (two_admissible _)
              three_steps_below_limit) as [h' [H' Hc]].
  unfold simulate_modified in H. rewrite H in H'. injection H' as <-.
  pose proof PI_LD_gt_3 as HP. pose proof PI_4 as H4.
  pose proof PI_RGT_0 as H0.
  assert (N0 : (0 <= r_cycles h)%nat) by lia.
  assert (N1 : (1 <= r_cycles h)%nat) by lia.
  assert (N2 : (2 <= r_cycles h)%nat) by lia.
  destruct (run_entries Continuous 2 100 3 h 0 H N0)
    as [s0 [Hs0 [_ [_ [_ [M0 _]]]]]].
  destruct (run_entries Continuous 2 100 3 h 1 H N1)
    as [s1 [Hs1 [_ [_ [Z1 [M1 _]]]]]].
  destruct (run_entries Continuous 2 100 3 h 2 H N2)
    as [s2 [Hs2 [_ [_ [Z2 [M2 _]]]]]].
  cbn in Hs0. injection Hs0 as <-.
  destruct (after_cycles_step _ _ _ _ _ Hs1) as [t0 [Ht0 Hb1]].
  cbn in Ht0. injection Ht0 as <-.
  destruct (after_cycles_step _ _ _ _ _ Hs2) as [t1 [Ht1 Hb2]].
  rewrite Hs1 in Ht1. injection Ht1 as <-.
  destruct (aligned_first _ _ _ Hb1) as [[_ [_ Az1]] Hm1].
  destruct (first_real _ _ _ Hb1) as [HD1 [Hmv1 _]].
  cbn [quantize] in Hmv1.
  pose proof (after_cycles_cycle _ _ _ _ _ Hs1) as Hc1. cbn in Hc1.
  assert (Hnz : cycle s1 <> O) by lia.
  destruct (later_real _ _ _ _ Hnz Hb2)
    as [_ [_ [_ [_ [Hmv2 [Hma [Hza _]]]]]]].
  destruct (after_cycle_values Continuous 2 1 s2 Hs2) as [HD2 _].
  cbn [quantize] in Hmv2.
  assert (S1 : 0 <= asin (1 / moves s1) <= PI / 2)
    by (apply step_angle; rewrite Hmv1; lra).
  assert (S2 : 0 <= asin (1 / D s2) <= PI / 2) by (apply step_angle, HD2).
  assert (Hm2 : 2 <= moves s2) by (rewrite Hmv2; lra).
  assert (S3 : 0 <= asin (1 / moves s2) <= PI / 6).
  { split; [apply step_angle; lra |]. apply asin_le_sixth.
    assert (0 < / moves s2) by (apply Rinv_0_lt_compat; lra).
    assert (/ moves s2 <= / 2) by (apply Rinv_le_contravar; lra).
    unfold Rdiv. rewrite Rmult_1_l. lra. }
  assert (Em : m_angle s2 = asin (1 / D s2)).
  { rewrite Hma, Hm1, Rplus_0_l. apply wrapped_id. lra. }
  assert (Ez : z_angle s2 = asin (1 / moves s2) + asin (1 / D s2)).
  { rewrite Hza, Az1, Hm1.
    match goal with
    | |- RealArith.wrapped ?x = ?y => replace x with y by ring
    end.
    apply wrapped_id. lra. }
  intros i m0 m z Hi E0 E1 E2.
  assert (i = 1 \/ i = 2)%nat as [-> | ->] by lia.
  - cbn [Nat.sub] in E0. rewrite M0 in E0. rewrite M1 in E1.
    rewrite Z1 in E2. injection E0 as <-. injection E1 as <-.
    injection E2 as <-. rewrite Az1, Hm1. cbn [m_angle initial].
    change (@mp.zero R RealArith.exact) with 0. lra.
  - cbn [Nat.sub] in E0. rewrite M1 in E0. rewrite M2 in E1.
    rewrite Z2 in E2. injection E0 as <-. injection E1 as <-.
    injection E2 as <-. rewrite Ez, Em, Hm1. lra.
Qed.

Lemma distance_between_positions_until_wrap_witness :
  exists h,
    admissible Continuous 2 /\
    outcome (simulate_modified 2 100 3) = Ok h /\
    (1 <= 2 <= r_cycles h)%nat /\
    headings_rise h 2 /\
    exists zx zy mx my d th,
      nth_error (r_z_x h) 2 = Some zx /\ nth_error (r_z_y h) 2 = Some zy /\
      nth_error (r_m_x h) 2 = Some mx /\ nth_error (r_m_y h) 2 = Some my /\
      nth_error (r_D h) 2 = Some d /\ nth_error (r_m_angle h) 2 = Some th /\
      zx - mx = d * cos th /\ zy - my = d * sin th /\
      sqrt ((zx - mx) * (zx - mx) + (zy - my) * (zy - my)) = d.
Proof.
  destruct (truncated_run Continuous 2 100 3 (two_admissible _)
              three_steps_below_limit) as [h [H Hc]].
  assert (Hn : (1 <= 2 <= r_cycles h)%nat) by (rewrite Hc; lia).
  pose proof (two_cycles_rise h H) as Hrise.
  exists h. split; [exact (two_admissible _) |]. split; [exact H |].
  split; [exact Hn |]. split; [exact Hrise |].
  exact (distance_between_positions_until_wrap Continuous 2 100 3 h 2
           (two_admissible _) H Hn Hrise).
Defined.

Lemma rabbit_heading_leads_by_turns_witness :
  exists h,
    outcome (simulate_original 2 100 3) = Ok h /\
    (1 <= 3 <= r_cycles h)%nat /\
    exists z th mv (k : Z),
      nth_error (r_z_angle h) 3 = Some z /\
      nth_error (r_m_angle h) 3 = Some th /\
      nth_error (r_moves h) 3 = Some mv /\
      Rabs (1 / mv) <= 1 /\
      z = th + asin (1 / mv) + 2 * PI_LD * IZR k.
Proof.
  destruct (truncated_run UnitCeiling 2 100 3 (two_admissible _)
              three_steps_below_limit) as [h [H Hc]].
  assert (Hn : (1 <= 3 <= r_cycles h)%nat) by (rewrite Hc; lia).
  exists h. split; [exact H |]. split; [exact Hn |].
  exact (rabbit_heading_leads_by_turns UnitCeiling 2 100 3 h 3 H Hn).
Defined.

Lemma segments_have_step_length_witness :
  exists h,
    outcome (simulate_modified 2 100 3) = Ok h /\
    (2 <= r_cycles h)%nat /\
    exists zx zy mx my zx' zy' mx' my' mv,
      nth_error (r_z_x h) 1 = Some zx /\ nth_error (r_z_y h) 1 = Some zy /\
      nth_error (r_m_x h) 1 = Some mx /\ nth_error (r_m_y h) 1 = Some my /\
      nth_error (r_z_x h) 2 = Some zx' /\
      nth_error (r_z_y h) 2 = Some zy' /\
      nth_error (r_m_x h) 2 = Some mx' /\
      nth_error (r_m_y h) 2 = Some my' /\
      nth_error (r_moves h) 1 = Some mv /\
      (zx' - zx) * (zx' - zx) + (zy' - zy) * (zy' - zy) = mv * mv /\
      (1%nat <> O ->
       (mx' - mx) * (mx' - mx) + (my' - my) * (my' - my) = mv * mv) /\
      (1%nat = O -> mx' = mx /\ my' = my).
Proof.
  destruct (truncated_run Continuous 2 100 3 (two_admissible _)
              three_steps_below_limit) as [h [H Hc]].
  assert (Hn : (2 <= r_cycles h)%nat) by (rewrite Hc; lia).
  exists h. split; [exact H |]. split; [exact Hn |].
  exact (segments_have_step_length Continuous 2 100 3 h 1 H Hn).
Defined.

Lemma headings_in_range_witness :
  exists h x,
    outcome (simulate_modified 2 100 3) = Ok h /\
    (nth_error (r_z_angle h) 2 = Some x \/
     nth_error (r_m_angle h) 2 = Some x) /\
    - PI <= x < PI.
Proof.
  destruct (truncated_run Continuous 2 100 3 (two_admissible _)
              three_steps_below_limit) as [h [H Hc]].
  assert (Hn : (2 <= r_cycles h)%nat) by (rewrite Hc; lia).
  destruct (run_entries Continuous 2 100 3 h 2 H Hn)
    as [s [_ [_ [_ [E3 _]]]]].
  exists h, (z_angle s). split; [exact H |].
  split; [left; exact E3 |].
  exact (headings_in_range Continuous 2 100 3 h 2 (z_angle s) H
           (or_introl E3)).
Defined.

Lemma continuous_step_length_witness :
  exists h,
    outcome (simulate_modified 2 100 3) = Ok h /\
    (1 <= 2 <= r_cycles h)%nat /\
    exists d,
      nth_error (r_D h) 2 = Some d /\
      nth_error (r_moves h) 2 = Some (2 * d).
Proof.
  destruct (truncated_run Continuous 2 100 3 (two_admissible _)
              three_steps_below_limit) as [h [H Hc]].
  assert (Hn : (1 <= 2 <= r_cycles h)%nat) by (rewrite Hc; lia).
  exists h. split; [exact H |]. split; [exact Hn |].
  exact (continuous_step_length 2 100 3 h 2 H Hn).
Defined.

(** The continuous engine, [a = 2], [D_limit = 6/5], five steps. *)
Lemma distance_grows_slowly_witness :
  exists h,
    admissible Continuous 2 /\
    outcome (simulate_modified 2 (6 / 5) 5) = Ok h /\
    (forall n d, nth_error (r_D h) n = Some d -> d <= INR n) /\
    (forall n d d',
       nth_error (r_D h) n = Some d -> nth_error (r_D h) (S n) = Some d' ->
       d' <= d + 1) /\
    ((r_cycles h < 5)%nat -> 6 / 5 < INR (r_cycles h)).
Proof.
  destruct (simulate_returns Continuous 2 (6 / 5) 5 (two_admissible _))
    as [h H].
  exists h. split; [exact (two_admissible _) |]. split; [exact H |].
  exact (distance_grows_slowly Continuous 2 (6 / 5) 5 h
           (two_admissible _) H).
Defined.

(** The engine of the original rules with [a = 1/2]. *)
Lemma stalled_run_witness :
  ((UnitCeiling = UnitCeiling /\ 0 < 1 / 2 <= 1) \/
   (UnitCeiling = Continuous /\ 1 / 2 = 1)) /\
  1 <= 100 /\
  exists h,
    outcome (simulate_original (1 / 2) 100 3) = Ok h /\
    r_cycles h = 3%nat /\
    forall n, (1 <= n <= 3)%nat ->
      nth_error (r_D h) n = Some 1 /\ nth_error (r_moves h) n = Some 1.
Proof.
  assert (Hcase : (UnitCeiling = UnitCeiling /\ 0 < 1 / 2 <= 1) \/
                  (UnitCeiling = Continuous /\ 1 / 2 = 1))
    by (left; split; [reflexivity | lra]).
  assert (Hl : 1 <= 100) by lra.
  split; [exact Hcase |]. split; [exact Hl |].
  exact (stalled_run UnitCeiling (1 / 2) 100 3 Hcase Hl).
Defined.

(** The continuous engine with [a = 0]. *)
Lemma zero_step_raises_witness :
  ((Continuous = Continuous /\ 0 = 0) \/
   (Continuous = UnitCeiling /\ -1 < 0 <= 0)) /\
  (1 <= 1)%nat /\
  outcome (simulate_modified 0 100 1) = Raise ZeroDivisionError /\
  calls (simulate_modified 0 100 1) = [].
Proof.
  assert (Hcase : (Continuous = Continuous /\ 0 = 0) \/
                  (Continuous = UnitCeiling /\ -1 < 0 <= 0))
    by (left; split; reflexivity).
  split; [exact Hcase |]. split; [exact (le_n 1) |].
  exact (zero_step_raises Continuous 0 100 1 Hcase (le_n 1)).
Defined.

Lemma admissible_run_in_domain_witness :
  admissible Continuous 2 /\
  exists h,
    outcome (simulate_modified 2 100 3) = Ok h /\
    Forall (fun c => ~ RealArith.out_of_domain c)
           (calls (simulate_modified 2 100 3)).
Proof.
  split; [exact (two_admissible _) |].
  exact (admissible_run_in_domain Continuous 2 100 3 (two_admissible _)).
Defined.

Lemma res_is_total_of_steps_witness :
  exists h,
    outcome (simulate_modified 2 100 3) = Ok h /\
    r_res h = total (removelast (r_moves h)) /\
    exists mv, nth_error (r_moves h) (r_cycles h) = Some mv /\
               r_res h + mv = total (r_moves h).
Proof.
  destruct (simulate_returns Continuous 2 100 3 (two_admissible _)) as [h H].
  exists h. split; [exact H |].
  exact (res_is_total_of_steps Continuous 2 100 3 h H).
Defined.

(** A run of each engine. *)
Lemma compare_data_of_runs_witness :
  exists h1 h2,
    outcome (simulate_modified 2 100 3) = Ok h1 /\
    outcome (simulate_original 2 100 2) = Ok h2 /\
    exists r,
      compare_data h1 h2 = Some r /\
      length (D_difference r) = S (Nat.min (r_cycles h1) (r_cycles h2)) /\
      length (angle_difference r) =
        S (Nat.min (r_cycles h1) (r_cycles h2)).
Proof.
  destruct (simulate_returns Continuous 2 100 3 (two_admissible _))
    as [h1 H1].
  destruct (simulate_returns UnitCeiling 2 100 2 (two_admissible _))
    as [h2 H2].
  exists h1, h2. split; [exact H1 |]. split; [exact H2 |].
  exact (compare_data_of_runs Continuous UnitCeiling 2 2 100 100 3 2 h1 h2
           H1 H2).
Defined.

Lemma compare_data_with_longer_run_witness :
  exists h1 h2,
    (2 <= 3)%nat /\
    outcome (simulate_modified 2 100 2) = Ok h1 /\
    outcome (simulate_modified 2 100 3) = Ok h2 /\
    compare_data h1 h2 =
    Some {| D_difference := repeat 0 (S (r_cycles h1));
            angle_difference := repeat 0 (S (r_cycles h1)) |}.
Proof.
  destruct (simulate_returns Continuous 2 100 2 (two_admissible _))
    as [h1 H1].
  destruct (simulate_returns Continuous 2 100 3 (two_admissible _))
    as [h2 H2].
  exists h1, h2. split; [lia |]. split; [exact H1 |]. split; [exact H2 |].
  exact (compare_data_with_longer_run Continuous 2 100 2 3 h1 h2
           (le_S _ _ (le_n 2)) H1 H2).
Defined.

Lemma distance_never_decreases_witness :
  exists h d d',
    admissible Continuous 2 /\
    outcome (simulate_modified 2 100 3) = Ok h /\
    (1 <= 1)%nat /\
    nth_error (r_D h) 1 = Some d /\
    nth_error (r_D h) 2 = Some d' /\
    d <= d' /\ (1 < 2 -> d < d').
Proof.
  destruct (truncated_run Continuous 2 100 3 (two_admissible _)
              three_steps_below_limit) as [h [H Hc]].
  assert (H1 : (1 <= r_cycles h)%nat) by (rewrite Hc; lia).
  assert (H2 : (2 <= r_cycles h)%nat) by (rewrite Hc; lia).
  destruct (run_entries Continuous 2 100 3 h 1 H H1) as [s1 [_ [E1 _]]].
  destruct (run_entries Continuous 2 100 3 h 2 H H2) as [s2 [_ [E2 _]]].
  exists h, (D s1), (D s2).
  split; [exact (two_admissible _) |]. split; [exact H |].
  split; [exact (le_n 1) |]. split; [exact E1 |]. split; [exact E2 |].
  exact (distance_never_decreases Continuous 2 100 3 h 1 (D s1) (D s2)
           (two_admissible _) H (le_n 1) E1 E2).
Defined.

(** The continuous engine, [a = 2], [D_limit = 1/2], three steps. *)
Lemma limit_below_one_stops_at_once_witness :
  exists h,
    1 / 2 < 1 /\ (1 <= 3)%nat /\
    outcome (simulate_modified 2 (1 / 2) 3) = Ok h /\
    r_cycles h = 1%nat /\ r_D h = [0; 1].
Proof.
  destruct (simulate_returns Continuous 2 (1 / 2) 3 (two_admissible _))
    as [h H].
  assert (Hl : 1 / 2 < 1) by lra.
  assert (Hm : (1 <= 3)%nat) by lia.
  exists h. split; [exact Hl |]. split; [exact Hm |]. split; [exact H |].
  exact (limit_below_one_stops_at_once Continuous 2 (1 / 2) 3 h Hl Hm H).
Defined.

Lemma unit_mode_res_is_whole_witness :
  exists h,
    outcome (simulate_original 2 100 3) = Ok h /\
    exists z : Z,
      r_res h = IZR z /\ (0 < 2 -> (Z.of_nat (r_cycles h) <= z)%Z).
Proof.
  destruct (simulate_returns UnitCeiling 2 100 3 (two_admissible _))
    as [h H].
  exists h. split; [exact H |].
  exact (unit_mode_res_is_whole 2 100 3 h H).
Defined.

(** The continuous engine, [a = 2], [D_limit = 100], three steps. *)
Lemma mpmath_agrees_on_returning_runs_witness :
  exists h,
    outcome (simulate_modified 2 100 3) = Ok h /\
    runs (simulate Continuous (mpf 2) (mpf 100) 3)
         (map mpf_call (calls (simulate Continuous 2 100 3)))
         (Ok (mpf_run h)).
Proof.
  destruct (simulate_returns Continuous 2 100 3 (two_admissible _)) as [h H].
  exists h. split; [exact H |].
  exact (mpmath_agrees_on_returning_runs Continuous 2 100 3 h H).
Defined.

(** The modified engine with [a = -2]. *)
Lemma mpmath_run_outcomes_witness :
  1 <= Rabs (quantize Continuous (-2)) /\
  exists l h,
    runs (simulate Continuous (mpf (-2)) (mpf 100) 3) l (Ok h) /\
    Forall (fun c => ~ Mpmath.out_of_domain c) l.
Proof.
  assert (Hq : 1 <= Rabs (quantize Continuous (-2))).
  { cbn [quantize]. rewrite Rabs_left; lra. }
  split; [exact Hq |].
  exact (proj2 (proj2 (mpmath_run_outcomes Continuous (-2) 100 2)) Hq).
Defined.

End MoreInstances.
